(** * Street You There: the tile stitching pipeline

    A shallow embedding of [services/streetView.ts] and [constants.ts]:
    the resolution catalog, the tile classifier, the border cropper, the
    wrap-seam remover and the worker pool that downloads the tiles and
    composites them on a canvas.

    - JavaScript numbers that hold integers are [Z]. The floating point
      comparisons of the source compare quotients of small integers with
      decimal constants; they are modelled by the exact inequality (see
      [ratio_below_2pct], [ratio_above_5pct], [floor_30pct] and [JsNum]).
    - A bitmap is a function from coordinates to pixels; what the 2D
      context reads outside of it is transparent black. Drawing an image
      or a canvas region copies its pixels.
    - Exceptions are values of [result]; [getContext('2d')] returning
      [null] is a flag of the canvas, set by the environment for the
      canvases the code creates.
    - The workers of the pool are interleaved at their [await]s: a job is
      run under a schedule that names the worker to resume next. *)

From stdpp Require Import base numbers list strings pretty gmap fin_maps.
From Stdlib Require Import ZArith Lia QArith.

Local Open Scope Z_scope.

(** ** constants.ts *)

Definition TILE_SIZE : Z := 512.

Module Grid.
Record t := { zoom : Z; x : Z; y : Z }.
End Grid.
Abbreviation GridSize := Grid.t.

Definition GRID_SIZES : list GridSize :=
  [ {| Grid.zoom := 3; Grid.x := 8;  Grid.y := 4 |};
    {| Grid.zoom := 4; Grid.x := 16; Grid.y := 8 |} ].

Definition CONCURRENT_DOWNLOADS : nat := 8.

(** ** types.ts *)

Record Progress := { loaded : Z; total : Z }.

Record Resolution := {
  res_zoom : Z;
  res_width : Z;
  res_height : Z;
  res_label : string;
  res_tileCount : Z
}.

(** ** getAvailableResolutions *)

Definition labels : list string := ["High"; "Maximum"]%string.

(** [labels[index] || `Zoom ${grid.zoom}`]: an index outside [labels] gives
    [undefined], an empty label is falsy as well. *)
Definition label_for (index : nat) (grid : GridSize) : string :=
  match labels !! index with
  | Some l => if decide (l = ""%string) then ("Zoom " +:+ pretty (Grid.zoom grid))%string else l
  | None => ("Zoom " +:+ pretty (Grid.zoom grid))%string
  end.

Definition resolution_of (index : nat) (grid : GridSize) : Resolution :=
  let width := Grid.x grid * TILE_SIZE in
  let height := Grid.y grid * TILE_SIZE in
  {| res_zoom := Grid.zoom grid;
     res_width := width;
     res_height := height;
     res_label := label_for index grid;
     res_tileCount := Grid.x grid * Grid.y grid |}.

Definition getAvailableResolutions : list Resolution :=
  imap resolution_of GRID_SIZES.

(** ** Errors and the error monad

    The exceptions the pipeline can raise: the two [Error]s thrown by
    [stitchStreetViewImage], the rejection of [fetchTileWithRetry], and the
    [IndexSizeError] that [getImageData] raises on an empty rectangle. *)

Inductive Error :=
| InvalidZoom (zoom : Z)
| TileLoadFailed (url : string)
| NoCanvasContext
| IndexSizeError.

Inductive result (A : Type) :=
| Ok (a : A)
| Throw (e : Error).
Arguments Ok {A} a.
Arguments Throw {A} e.

Definition bind {A B} (r : result A) (k : A → result B) : result B :=
  match r with
  | Ok a => k a
  | Throw e => Throw e
  end.

Notation "x <- r ;; k" := (bind r (fun x => k))
  (at level 100, r at next level, right associativity).

(** ** Pixels, images and canvases *)

Record Pixel := { red : Z; green : Z; blue : Z; alpha : Z }.

Definition transparent : Pixel := {| red := 0; green := 0; blue := 0; alpha := 0 |}.
(** [fillStyle = 'black'] *)
Definition black : Pixel := {| red := 0; green := 0; blue := 0; alpha := 255 |}.

(** A decoded [HTMLImageElement]. *)
Record Image := { img_width : Z; img_height : Z; img_pix : Z → Z → Pixel }.

(** An [HTMLCanvasElement]: its bitmap, and whether [getContext('2d')]
    returns a context for it. *)
Record Canvas := { width : Z; height : Z; pix : Z → Z → Pixel; ctx2d : bool }.

Definition inside (w h px py : Z) : bool :=
  (0 <=? px) && (px <? w) && (0 <=? py) && (py <? h).

(** The pixel the 2D context reads at [(px, py)]: transparent black outside
    the bitmap. *)
Definition pixel_at (c : Canvas) (px py : Z) : Pixel :=
  if inside (width c) (height c) px py then pix c px py else transparent.

Definition createCanvas (w h : Z) (ctx : bool) : Canvas :=
  {| width := w; height := h; pix := λ _ _, transparent; ctx2d := ctx |}.

(** [ctx.fillRect(0, 0, w, h)] with an opaque fill colour. *)
Definition fillRect (c : Canvas) (w h : Z) (p : Pixel) : Canvas :=
  {| width := width c; height := height c;
     pix := λ px py, if inside w h px py then p else pix c px py;
     ctx2d := ctx2d c |}.

(** [ctx.drawImage(img, dx, dy)]: the image is copied at its own size (tiles
    are opaque, so source-over compositing is a copy). *)
Definition drawImage (c : Canvas) (img : Image) (dx dy : Z) : Canvas :=
  {| width := width c; height := height c;
     pix := λ px py,
       if inside (img_width img) (img_height img) (px - dx) (py - dy)
       then img_pix img (px - dx) (py - dy) else pix c px py;
     ctx2d := ctx2d c |}.

(** [ctx.drawImage(src, sx, sy, w, h, 0, 0, w, h)] on a fresh canvas [c]:
    the source rectangle is copied unscaled to the origin. *)
Definition drawRegion (c : Canvas) (src : Canvas) (sx sy w h : Z) : Canvas :=
  {| width := width c; height := height c;
     pix := λ px py,
       if inside w h px py then pixel_at src (sx + px) (sy + py) else pix c px py;
     ctx2d := ctx2d c |}.

Definition pixel_bytes (p : Pixel) : list Z := [red p; green p; blue p; alpha p].

(** The pixels of the rectangle, row by row. *)
Definition rect_pixels (c : Canvas) (sx sy sw sh : Z) : list Pixel :=
  flat_map (λ j, (λ i, pixel_at c (sx + i) (sy + j)) <$> seqZ 0 sw) (seqZ 0 sh).

(** [ctx.getImageData(sx, sy, sw, sh).data]: an RGBA byte array; an empty
    rectangle raises [IndexSizeError]. *)
Definition getImageData (c : Canvas) (sx sy sw sh : Z) : result (list Z) :=
  if (sw =? 0) || (sh =? 0) then Throw IndexSizeError
  else Ok (flat_map pixel_bytes (rect_pixels c sx sy sw sh)).

(** [data[i]]: [undefined] outside the array. *)
Definition data_at (data : list Z) (i : Z) : option Z :=
  if i <? 0 then None else data !! Z.to_nat i.

(** [v > thresh], false when [v] is [undefined]. *)
Definition gt (v : option Z) (thresh : Z) : bool :=
  match v with
  | Some b => thresh <? b
  | None => false
  end.

(** [data[i] > thresh || data[i + 1] > thresh || data[i + 2] > thresh] *)
Definition bright (data : list Z) (thresh i : Z) : bool :=
  gt (data_at data i) thresh || gt (data_at data (i + 1)) thresh
  || gt (data_at data (i + 2)) thresh.

(** The values of [i] in [for (let i = 0; i < n; i += step)]. *)
Definition indices (n step : Z) : list Z :=
  (λ k, k * step) <$> seqZ 0 ((n + step - 1) `div` step).

(** [(a / b) < 0.02] on non-negative integers: [0 / 0] is [NaN] and
    [a / 0] is [Infinity], both not below [0.02]; otherwise the rounded
    quotient is below the rounded constant exactly when [50 a < b]. *)
Definition ratio_below_2pct (a b : Z) : bool :=
  if b =? 0 then false else 50 * a <? b.

(** [a / (len / 4) > 0.05] on integers with [0 < a] and [0 <= len]:
    exactly when [80 a > len] ([a / 0] is [Infinity]). *)
Definition ratio_above_5pct (a len : Z) : bool := len <? 80 * a.

(** ** isTileBlack *)

Definition count_step (data : list Z) (thresh : Z) (st : Z * Z) (i : Z) : Z * Z :=
  let '(nonBlackCount, checkedPixels) := st in
  (if bright data thresh i then nonBlackCount + 1 else nonBlackCount,
   checkedPixels + 1).

(** [ctx_ok]: whether the scratch canvas obtains a 2D context. *)
Definition isTileBlack (ctx_ok : bool) (img : Image) : result bool :=
  let canvas := createCanvas (img_width img) (img_height img) ctx_ok in
  if negb (ctx2d canvas) then Ok false
  else
    let canvas := drawImage canvas img 0 0 in
    data <- getImageData canvas 0 0 (width canvas) (height canvas) ;;
    let thresh := 25 in
    let '(nonBlackCount, checkedPixels) :=
      fold_left (count_step data thresh) (indices (Z.of_nat (length data)) (4 * 16)) (0, 0) in
    Ok (ratio_below_2pct nonBlackCount checkedPixels).

(** ** cropBlackEdges *)

(** The sampling loop shared by [isRowBlack] and [isColBlack]; [len] is the
    canvas width for a row and the canvas height for a column. The loop
    returns early once the bright samples exceed 5% of [len / 4]. *)
Fixpoint line_scan (data : list Z) (thresh len : Z) (idxs : list Z)
    (nonBlack checked : Z) : bool :=
  match idxs with
  | [] => ratio_below_2pct nonBlack checked
  | i :: rest =>
      let checked := checked + 1 in
      if bright data thresh i then
        let nonBlack := nonBlack + 1 in
        if ratio_above_5pct nonBlack len then false
        else line_scan data thresh len rest nonBlack checked
      else line_scan data thresh len rest nonBlack checked
  end.

Definition isRowBlack (canvas : Canvas) (thresh : Z) (y : Z) : result bool :=
  data <- getImageData canvas 0 y (width canvas) 1 ;;
  Ok (line_scan data thresh (width canvas)
        (indices (Z.of_nat (length data)) (4 * 4)) 0 0).

Definition isColBlack (canvas : Canvas) (thresh : Z) (x : Z) : result bool :=
  data <- getImageData canvas x 0 1 (height canvas) ;;
  Ok (line_scan data thresh (height canvas)
        (indices (Z.of_nat (length data)) (4 * 4)) 0 0).

(** [while (lo <= hi && test(lo)) lo++] *)
Fixpoint scan_up (test : Z → result bool) (fuel : nat) (lo hi : Z) : result Z :=
  match fuel with
  | O => Ok lo
  | S fuel =>
      if lo <=? hi then
        b <- test lo ;;
        if b then scan_up test fuel (lo + 1) hi else Ok lo
      else Ok lo
  end.

(** [while (hi >= lo && test(hi)) hi--] *)
Fixpoint scan_down (test : Z → result bool) (fuel : nat) (hi lo : Z) : result Z :=
  match fuel with
  | O => Ok hi
  | S fuel =>
      if lo <=? hi then
        b <- test hi ;;
        if b then scan_down test fuel (hi - 1) lo else Ok hi
      else Ok hi
  end.

(** [cctx_ok]: whether the canvas created for the cropped copy obtains a 2D
    context. Each loop runs at most once per row (column), which bounds the
    fuel. *)
Definition cropBlackEdges (cctx_ok : bool) (canvas : Canvas) : result Canvas :=
  if negb (ctx2d canvas) then Ok canvas
  else
    let width := width canvas in
    let height := height canvas in
    let thresh := 25 in
    top <- scan_up (isRowBlack canvas thresh) (Z.to_nat height) 0 (height - 1) ;;
    bottom <- scan_down (isRowBlack canvas thresh) (Z.to_nat height) (height - 1) top ;;
    left <- scan_up (isColBlack canvas thresh) (Z.to_nat width) 0 (width - 1) ;;
    right <- scan_down (isColBlack canvas thresh) (Z.to_nat width) (width - 1) left ;;
    if (bottom <? top) || (right <? left) then Ok canvas
    else if (top =? 0) && (bottom =? height - 1) && (left =? 0) && (right =? width - 1)
    then Ok canvas
    else
      let cropWidth := right - left + 1 in
      let cropHeight := bottom - top + 1 in
      let cropped := createCanvas cropWidth cropHeight cctx_ok in
      if ctx2d cropped
      then Ok (drawRegion cropped canvas left top cropWidth cropHeight)
      else Ok canvas.

(** ** removeHorizontalWrap *)

(** The numbers of the similarity search: a quotient of integers, [Infinity]
    (the initial [minDiff]) or [NaN] (arithmetic on [undefined]). *)
Inductive JsNum :=
| Num (q : Q)
| PosInf
| NaN.

(** [a < b] *)
Definition js_lt (a b : JsNum) : bool :=
  match a, b with
  | Num p, Num q => negb (Qle_bool q p)
  | Num _, PosInf => true
  | _, _ => false
  end.

(** [Math.abs(a[i] - b[j])]; [None] is [NaN]. *)
Definition abs_diff (a : list Z) (i : Z) (b : list Z) (j : Z) : option Z :=
  match data_at a i, data_at b j with
  | Some u, Some v => Some (Z.abs (u - v))
  | _, _ => None
  end.

(** [totalDiff += d] *)
Definition add_diff (totalDiff d : option Z) : option Z :=
  match totalDiff, d with
  | Some t, Some v => Some (t + v)
  | _, _ => None
  end.

Definition W : Z := 16.

(** The body of the two inner loops for one sample [(y, wx)]. *)
Definition diff_step (sourceData searchArea : list Z) (searchWidth dx : Z)
    (st : option Z * Z) (ywx : Z * Z) : option Z * Z :=
  let '(totalDiff, pixelsChecked) := st in
  let '(y, wx) := ywx in
  let srcIdx := (y * W + wx) * 4 in
  let searchIdx := (y * searchWidth + (dx + wx)) * 4 in
  let totalDiff := add_diff totalDiff (abs_diff sourceData srcIdx searchArea searchIdx) in
  let totalDiff :=
    add_diff totalDiff (abs_diff sourceData (srcIdx + 1) searchArea (searchIdx + 1)) in
  let totalDiff :=
    add_diff totalDiff (abs_diff sourceData (srcIdx + 2) searchArea (searchIdx + 2)) in
  (totalDiff, pixelsChecked + 1).

(** [totalDiff / (pixelsChecked * 3)] *)
Definition average (totalDiff : option Z) (pixelsChecked : Z) : JsNum :=
  match totalDiff with
  | None => NaN
  | Some t =>
      if pixelsChecked =? 0 then (if t =? 0 then NaN else PosInf)
      else Num (inject_Z t / inject_Z (pixelsChecked * 3))%Q
  end.

Definition avgDiff_at (sourceData searchArea : list Z) (searchWidth scanHeight dx : Z)
    : JsNum :=
  let samples :=
    flat_map (λ y, (λ wx, (y, wx)) <$> indices W 4) (indices scanHeight 8) in
  let '(totalDiff, pixelsChecked) :=
    fold_left (diff_step sourceData searchArea searchWidth dx) samples (Some 0, 0) in
  average totalDiff pixelsChecked.

(** The loop over [dx], with its [break] on a strict match. *)
Fixpoint wrap_search (sourceData searchArea : list Z) (searchWidth scanHeight startX : Z)
    (cands : list Z) (bestMatchX : Z) (minDiff : JsNum) : Z * JsNum :=
  match cands with
  | [] => (bestMatchX, minDiff)
  | dx :: rest =>
      let avgDiff := avgDiff_at sourceData searchArea searchWidth scanHeight dx in
      let '(bestMatchX, minDiff) :=
        if js_lt avgDiff minDiff then (startX + dx, avgDiff) else (bestMatchX, minDiff) in
      if js_lt avgDiff (Num 8)
      then (startX + dx, minDiff)
      else wrap_search sourceData searchArea searchWidth scanHeight startX
             rest bestMatchX minDiff
  end.

(** [Math.floor(height * 0.3)], [Math.floor(height * 0.4)] and
    [Math.floor(width * 0.25)] on a non-negative integer are the integer
    quotients below: the products are within a rounding error of
    [3 h / 10], [2 h / 5] and [w / 4], too small to cross an integer. *)
Definition floor_30pct (h : Z) : Z := (3 * h) `div` 10.
Definition floor_40pct (h : Z) : Z := (2 * h) `div` 5.
Definition floor_25pct (w : Z) : Z := w `div` 4.

(** [cctx_ok]: whether the canvas created for the cropped copy obtains a 2D
    context. *)
Definition removeHorizontalWrap (cctx_ok : bool) (canvas : Canvas) : result Canvas :=
  if negb (ctx2d canvas) then Ok canvas
  else
    let width := width canvas in
    let height := height canvas in
    let startY := floor_30pct height in
    let scanHeight := floor_40pct height in
    if (scanHeight <=? 0) || (width <? 512) then Ok canvas
    else
      sourceData <- getImageData canvas 0 startY W scanHeight ;;
      let startX := floor_25pct width in
      let searchWidth := width - startX in
      if searchWidth <=? W then Ok canvas
      else
        searchArea <- getImageData canvas startX startY searchWidth scanHeight ;;
        let '(bestMatchX, minDiff) :=
          wrap_search sourceData searchArea searchWidth scanHeight startX
            (indices (searchWidth - W) 2) (-1) PosInf in
        if negb (bestMatchX =? -1) && js_lt minDiff (Num 15) then
          let cropped := createCanvas bestMatchX height cctx_ok in
          if ctx2d cropped
          then Ok (drawRegion cropped canvas 0 0 bestMatchX height)
          else Ok canvas
        else Ok canvas.

(** ** The environment of a stitch job

    What the browser decides: the outcome of every load of a tile URL
    ([Some img] for a [load] event, [None] for an [error] event), and
    whether each canvas the job creates obtains a 2D context. *)

Module Coord.
Record t := { x : Z; y : Z }.
End Coord.
Abbreviation Coord := Coord.t.

Record Env := {
  load : string → nat → option Image;
  tile_ctx : Coord → bool;
  stitch_ctx : bool;
  crop_ctx : bool;
  wrap_ctx : bool
}.

(** ** fetchTileWithRetry *)

(** [attempts] counts the [error] events so far; every load of the image is
    followed by a [load] or an [error] event. [fuel] bounds the retries:
    [attempts < retries] holds at most [retries] times. *)
Fixpoint load_loop (outcome : nat → option Image) (url : string) (retries : nat)
    (fuel : nat) (attempts : nat) : result Image :=
  match outcome attempts with
  | Some img => Ok img
  | None =>
      let attempts := S attempts in
      match fuel with
      | S fuel =>
          if (attempts <? retries)%nat
          then load_loop outcome url retries fuel attempts
          else Throw (TileLoadFailed url)
      | O => Throw (TileLoadFailed url)
      end
  end.

Definition fetchTileWithRetry (env : Env) (url : string) (retries : nat) : result Image :=
  load_loop (load env url) url retries retries 0.

(** ** stitchStreetViewImage *)

Inductive Event :=
| EvFetch (url : string)
| EvProgress (p : Progress).

(** A worker of the pool: about to look at the queue, suspended at
    [await fetchTileWithRetry(tileUrl)] inside [processTile], or returned. *)
Inductive Worker :=
| Idle
| Awaiting (coord : Coord)
| Finished.

Record Job := {
  queue : list Coord;
  workers : list Worker;
  images : gmap string (option Image);
  loadedTiles : Z;
  events : list Event
}.

Definition tileUrl (panoId : string) (coord : Coord) (zoom : Z) : string :=
  ("https://streetviewpixels-pa.googleapis.com/v1/tile?cb_client=maps_sv.tactile&panoid="
   +:+ panoId +:+ "&x=" +:+ pretty (Coord.x coord) +:+ "&y=" +:+ pretty (Coord.y coord)
   +:+ "&zoom=" +:+ pretty zoom +:+ "&nbt=1&fover=2")%string.

(** [`${coord.x},${coord.y}`] *)
Definition key (coord : Coord) : string :=
  (pretty (Coord.x coord) +:+ "," +:+ pretty (Coord.y coord))%string.

(** The two nested loops over [y] and [x]. *)
Definition grid_coords (grid : GridSize) : list Coord :=
  flat_map (λ y, (λ x, {| Coord.x := x; Coord.y := y |}) <$> seqZ 0 (Grid.x grid))
           (seqZ 0 (Grid.y grid)).

(** What [processTile] stores for a tile: the image, or [null] when the
    fetch is rejected, the classifier throws, or the tile is black. *)
Definition tile_entry (env : Env) (panoId : string) (zoom : Z) (coord : Coord)
    : option Image :=
  match fetchTileWithRetry env (tileUrl panoId coord zoom) 2 with
  | Ok img =>
      match isTileBlack (tile_ctx env coord) img with
      | Ok isBlack => if negb isBlack then Some img else None
      | Throw _ => None
      end
  | Throw _ => None
  end.

(** [processTile] from the moment its fetch settles: the [try], [catch] and
    [finally] blocks. *)
Definition settleTile (env : Env) (panoId : string) (zoom totalTiles : Z)
    (coord : Coord) (job : Job) : Job :=
  let loadedTiles := loadedTiles job + 1 in
  {| queue := queue job;
     workers := workers job;
     images := <[key coord := tile_entry env panoId zoom coord]> (images job);
     loadedTiles := loadedTiles;
     events := events job ++ [EvProgress {| loaded := loadedTiles; total := totalTiles |}] |}.

Definition set_worker (i : nat) (w : Worker) (job : Job) : Job :=
  {| queue := queue job;
     workers := <[i := w]> (workers job);
     images := images job;
     loadedTiles := loadedTiles job;
     events := events job |}.

(** The next atomic action of worker [i]: testing the queue and either
    returning or shifting a coordinate and starting its fetch, or resuming
    [processTile] when the fetch has settled. *)
Definition worker_step (env : Env) (panoId : string) (zoom totalTiles : Z)
    (i : nat) (job : Job) : option Job :=
  match workers job !! i with
  | Some Idle =>
      match queue job with
      | [] => Some (set_worker i Finished job)
      | coord :: rest =>
          Some {| queue := rest;
                  workers := <[i := Awaiting coord]> (workers job);
                  images := images job;
                  loadedTiles := loadedTiles job;
                  events := events job ++ [EvFetch (tileUrl panoId coord zoom)] |}
      end
  | Some (Awaiting coord) =>
      Some (set_worker i Idle (settleTile env panoId zoom totalTiles coord job))
  | Some Finished | None => None
  end.

Definition running (w : Worker) : bool :=
  match w with
  | Finished => false
  | _ => true
  end.

(** The worker that runs next: the one the schedule names if it has not
    returned, otherwise the first that has not. *)
Definition next_worker (hint : nat) (ws : list Worker) : option nat :=
  match ws !! hint with
  | Some w =>
      if running w then Some hint
      else fst <$> list_find (λ w, running w = true) ws
  | None => fst <$> list_find (λ w, running w = true) ws
  end.

(** [await Promise.all(workers)]: the workers are interleaved in the order
    [sched] until all have returned. *)
Fixpoint run_workers (env : Env) (panoId : string) (zoom totalTiles : Z)
    (fuel : nat) (sched : list nat) (job : Job) : Job :=
  match fuel with
  | O => job
  | S fuel =>
      match next_worker (hd O sched) (workers job) with
      | None => job
      | Some i =>
          match worker_step env panoId zoom totalTiles i job with
          | Some job' => run_workers env panoId zoom totalTiles fuel (tl sched) job'
          | None => job
          end
      end
  end.

(** The steps a worker still takes before it returns, the queue apart. *)
Definition worker_steps (w : Worker) : nat :=
  match w with
  | Idle => 1
  | Awaiting _ => 2
  | Finished => 0
  end.

(** Every queued tile costs two steps, and every worker one more to return. *)
Definition steps_left (job : Job) : nat :=
  2 * length (queue job)
  + sum_list_with worker_steps (workers job).

(** The job from its start to the join of the workers. *)
Definition downloadTiles (env : Env) (sched : list nat) (panoId : string) (zoom : Z)
    (grid : GridSize) : Job :=
  let tileCoords := grid_coords grid in
  let totalTiles := Z.of_nat (length tileCoords) in
  let job :=
    {| queue := tileCoords;
       workers := replicate CONCURRENT_DOWNLOADS Idle;
       images := ∅;
       loadedTiles := 0;
       events := [EvProgress {| loaded := 0; total := totalTiles |}] |} in
  run_workers env panoId zoom totalTiles (steps_left job) sched job.

Definition setSize (c : Canvas) (w h : Z) : Canvas := createCanvas w h (ctx2d c).

(** The compositor: lines 349 to 370. *)
Definition composite (env : Env) (grid : GridSize) (images : gmap string (option Image))
    : result Canvas :=
  let canvasWidth := Grid.x grid * TILE_SIZE in
  let canvasHeight := Grid.y grid * TILE_SIZE in
  let canvas := createCanvas 300 150 (stitch_ctx env) in
  if negb (ctx2d canvas) then Throw NoCanvasContext
  else
    let canvas := setSize canvas canvasWidth canvasHeight in
    let canvas := fillRect canvas canvasWidth canvasHeight black in
    Ok (fold_left
          (λ canvas coord,
             match images !! key coord with
             | Some (Some img) =>
                 drawImage canvas img (Coord.x coord * TILE_SIZE) (Coord.y coord * TILE_SIZE)
             | _ => canvas
             end)
          (grid_coords grid) canvas).

(** The result is the canvas that [toDataURL('image/jpeg', 0.95)] encodes;
    the first component lists the fetches started and the calls of
    [onProgress], in order. *)
Definition stitchStreetViewImage (env : Env) (sched : list nat) (panoId : string)
    (zoom : Z) : list Event * result Canvas :=
  match List.find (λ g, Grid.zoom g =? zoom) GRID_SIZES with
  | None => ([], Throw (InvalidZoom zoom))
  | Some grid =>
      let job := downloadTiles env sched panoId zoom grid in
      (events job,
       canvas <- composite env grid (images job) ;;
       croppedCanvas <- cropBlackEdges (crop_ctx env) canvas ;;
       removeHorizontalWrap (wrap_ctx env) croppedCanvas)
  end.

(** * Specification vocabulary *)

Definition bright_pixel (thresh : Z) (p : Pixel) : bool :=
  (thresh <? red p) || (thresh <? green p) || (thresh <? blue p).

(** The pixels of an image in row-major order. *)
Definition row_major (img : Image) : list Pixel :=
  flat_map (λ j, (λ i, img_pix img i j) <$> seqZ 0 (img_width img))
           (seqZ 0 (img_height img)).

(** Every [step]-th element of a list, starting with the first. *)
Definition every_nth {A} (step : Z) (l : list A) : list A :=
  omap (λ i, l !! Z.to_nat i) (indices (Z.of_nat (length l)) step).

Definition count_bright (thresh : Z) (ps : list Pixel) : Z :=
  Z.of_nat (length (List.filter (bright_pixel thresh) ps)).

(** [out] shows the rectangle of [c] whose top left corner is [(left, top)]. *)
Definition subregion (out c : Canvas) (left top : Z) : Prop :=
  0 ≤ left ∧ 0 ≤ top ∧ 0 < width out ∧ 0 < height out
  ∧ left + width out ≤ width c ∧ top + height out ≤ height c
  ∧ ∀ px py, 0 ≤ px < width out → 0 ≤ py < height out →
      pixel_at out px py = pixel_at c (left + px) (top + py).

(** No pixel the context can read is brighter than [thresh]. *)
Definition dark_canvas (thresh : Z) (c : Canvas) : Prop :=
  ∀ px py, bright_pixel thresh (pixel_at c px py) = false.

(** The calls of [onProgress] among the events. *)
Definition progress_events (evs : list Event) : list Progress :=
  omap (λ e, match e with EvProgress p => Some p | EvFetch _ => None end) evs.

(** [{loaded: 0, total}], [{loaded: 1, total}], ..., [{loaded: n, total}] *)
Definition progress_upto (n total : Z) : list Progress :=
  (λ k, {| loaded := k; total := total |}) <$> seqZ 0 (n + 1).

(** The tiles whose fetch is in flight. *)
Definition awaiting (ws : list Worker) : list Coord :=
  omap (λ w, match w with Awaiting coord => Some coord | _ => None end) ws.

(** One action of some worker. *)
Definition job_step (env : Env) (panoId : string) (zoom totalTiles : Z)
    (job job' : Job) : Prop :=
  ∃ i, worker_step env panoId zoom totalTiles i job = Some job'.

(** The invariant of a job on the tiles [tiles]: the tiles are split into
    those settled, those in flight and those queued; [loadedTiles] counts
    the settled ones, whose entries are stored; progress was reported once
    at the start and once per settled tile; and a worker has returned only
    if the queue is empty. *)
Record job_inv (env : Env) (panoId : string) (zoom : Z) (tiles : list Coord)
    (job : Job) : Prop := {
  inv_tiles :
    ∃ settled,
      settled ++ awaiting (workers job) ++ queue job ≡ₚ tiles
      ∧ loadedTiles job = Z.of_nat (length settled)
      ∧ ∀ coord, coord ∈ settled →
          images job !! key coord = Some (tile_entry env panoId zoom coord);
  inv_progress :
    progress_events (events job)
    = progress_upto (loadedTiles job) (Z.of_nat (length tiles));
  inv_finished : Finished ∈ workers job → queue job = [];
  inv_workers : workers job ≠ []
}.

Global Instance GridSize_eq_dec : EqDecision GridSize.
Proof. solve_decision. Defined.

(** ** Sample inputs *)

Definition white : Pixel := {| red := 255; green := 255; blue := 255; alpha := 255 |}.

(** A black 3 x 2 image. *)
Definition black_image : Image :=
  {| img_width := 3; img_height := 2; img_pix := λ _ _, black |}.

(** A 16 x 1 image, white except for its first pixel. *)
Definition first_pixel_black : Image :=
  {| img_width := 16; img_height := 1;
     img_pix := λ px _, if px =? 0 then black else white |}.

(** A 16 x 1 image, black except for its first pixel. *)
Definition first_pixel_white : Image :=
  {| img_width := 16; img_height := 1;
     img_pix := λ px _, if px =? 0 then white else black |}.

(** A 3 x 2 canvas, white except for its top left and bottom right pixels. *)
Definition staggered : Canvas :=
  {| width := 3; height := 2; ctx2d := true;
     pix := λ px py,
       if ((px =? 0) && (py =? 0)) || ((px =? 2) && (py =? 1)) then black else white |}.

(** What [cropBlackEdges] makes of [staggered], and of that in turn. *)
Definition staggered_cropped : Canvas :=
  drawRegion (createCanvas 2 1 true) staggered 1 1 2 1.

Definition staggered_cropped_twice : Canvas :=
  drawRegion (createCanvas 1 1 true) staggered_cropped 0 0 1 1.

(** A grey 512 x 3 canvas. *)
Definition grey_strip : Canvas :=
  {| width := 512; height := 3; ctx2d := true;
     pix := λ _ _, {| red := 128; green := 128; blue := 128; alpha := 255 |} |}.

Definition zoom3 : GridSize := {| Grid.zoom := 3; Grid.x := 8; Grid.y := 4 |}.

(** An environment in which every load fails and every canvas obtains a
    context. *)
Definition offline : Env :=
  {| load := λ _ _, None;
     tile_ctx := λ _, true;
     stitch_ctx := true;
     crop_ctx := true;
     wrap_ctx := true |}.

(** An environment in which every load yields a black image, and only the
    canvas of the compositor obtains a context. *)
Definition no_scratch_context : Env :=
  {| load := λ _ _, Some black_image;
     tile_ctx := λ _, false;
     stitch_ctx := true;
     crop_ctx := false;
     wrap_ctx := false |}.

(** * Further vocabulary *)

(** The fetches started among the events, in order. *)
Definition fetch_events (evs : list Event) : list string :=
  omap (λ e, match e with EvFetch url => Some url | EvProgress _ => None end) evs.

(** The job as [stitchStreetViewImage] starts the workers. *)
Definition initial_job (tiles : list Coord) : Job :=
  {| queue := tiles;
     workers := replicate CONCURRENT_DOWNLOADS Idle;
     images := ∅;
     loadedTiles := 0;
     events := [EvProgress {| loaded := 0; total := Z.of_nat (length tiles) |}] |}.

(** The states a job on [tiles] passes through, under any interleaving. *)
Definition reachable (env : Env) (panoId : string) (zoom : Z) (tiles : list Coord)
    (job : Job) : Prop :=
  rtc (job_step env panoId zoom (Z.of_nat (length tiles))) (initial_job tiles) job.

(** What the job keeps besides [job_inv]: the pool has its size, every tile
    not queued any more has had its fetch started, in the order of the
    queue, and only keys of tiles are stored. *)
Record pool_inv (panoId : string) (zoom : Z) (tiles : list Coord) (job : Job)
    : Prop := {
  pool_size : length (workers job) = CONCURRENT_DOWNLOADS;
  pool_fetches :
    fetch_events (events job) ++ ((λ coord, tileUrl panoId coord zoom) <$> queue job)
    = (λ coord, tileUrl panoId coord zoom) <$> tiles;
  pool_keys : ∀ k, is_Some (images job !! k) → k ∈ key <$> tiles
}.

(** A job on the zoom 3 grid after five actions of its workers. *)
Definition job_in_progress : Job :=
  run_workers offline "pano" 3 32 5 [0; 1; 0; 2; 3]%nat (initial_job (grid_coords zoom3)).

Global Instance Coord_eq_dec : EqDecision Coord.
Proof. solve_decision. Defined.

(** A tile set with one image, for the tile at column 1 of row 0, and the
    composite of the zoom 3 grid drawn from it. *)
Definition one_tile : gmap string (option Image) :=
  {[ "1,0"%string := Some first_pixel_white ]}.

Definition one_tile_composite : Canvas :=
  match composite offline zoom3 one_tile with
  | Ok canvas => canvas
  | Throw _ => createCanvas 0 0 false
  end.

(** An environment in which every load yields [first_pixel_white], and the
    composite of the zoom 3 job in it. *)
Definition bright_tiles : Env :=
  {| load := λ _ _, Some first_pixel_white;
     tile_ctx := λ _, true;
     stitch_ctx := true;
     crop_ctx := true;
     wrap_ctx := true |}.

Definition bright_tiles_composite : Canvas :=
  match composite bright_tiles zoom3 (images (downloadTiles bright_tiles [] "pano" 3 zoom3)) with
  | Ok canvas => canvas
  | Throw _ => createCanvas 0 0 false
  end.

(** A 6 x 6 canvas, black with a white square from (1, 1) to (4, 4). *)
Definition framed : Canvas :=
  {| width := 6; height := 6; ctx2d := true;
     pix := λ px py,
       if (1 <=? px) && (px <=? 4) && (1 <=? py) && (py <=? 4) then white else black |}.

(** A white tile, and an environment in which the tiles of row 0 fail to
    load and every other tile is white. *)
Definition white_tile : Image :=
  {| img_width := 512; img_height := 512; img_pix := λ _ _, white |}.

Definition top_row_missing : Env :=
  {| load := λ url _,
       match String.index 0 "&y=0&" url with
       | Some _ => None
       | None => Some white_tile
       end;
     tile_ctx := λ _, true;
     stitch_ctx := true;
     crop_ctx := true;
     wrap_ctx := true |}.

Definition top_row_missing_composite : Canvas :=
  match composite top_row_missing zoom3
          (images (downloadTiles top_row_missing [] "pano" 3 zoom3)) with
  | Ok canvas => canvas
  | Throw _ => createCanvas 0 0 false
  end.

(** * URL parsing *)

From Stdlib Require Import Ascii.

(** [extractUrlData] applies four regular expressions to the URL.  Each is a
    sequence of literals and greedy runs of one character class, and every
    run is followed by a character outside its class or by the end of the
    pattern, so an attempt at one position is a plain left-to-right scan:
    giving characters of a run back never makes a later part match.
    [String.prototype.match] tries the positions from left to right and
    returns the first match.  A string is a sequence of code units. *)

Definition in_range (lo hi c : ascii) : bool :=
  ((nat_of_ascii lo <=? nat_of_ascii c) && (nat_of_ascii c <=? nat_of_ascii hi))%nat.

(** [[a-zA-Z0-9_-]] *)
Definition is_id_char (c : ascii) : bool :=
  in_range "a" "z" c || in_range "A" "Z" c || in_range "0" "9" c
  || Ascii.eqb c "_" || Ascii.eqb c "-".

(** [\d] *)
Definition is_digit (c : ascii) : bool := in_range "0" "9" c.

(** The longest prefix of [s] made of characters of the class, and what
    follows it. *)
Fixpoint span (p : ascii → bool) (s : string) : string * string :=
  match s with
  | EmptyString => (EmptyString, EmptyString)
  | String c rest =>
      if p c then let '(run, tail) := span p rest in (String c run, tail)
      else (EmptyString, s)
  end.

(** What follows the literal [lit] in [s], when [s] starts with it. *)
Fixpoint strip (lit s : string) : option string :=
  match lit, s with
  | EmptyString, _ => Some s
  | String a lit', String b s' => if Ascii.eqb a b then strip lit' s' else None
  | String _ _, EmptyString => None
  end.

(** The first position of [s], from the left, at which [at_pos] matches. *)
Fixpoint first_match {A} (at_pos : string → option A) (s : string) : option A :=
  match at_pos s with
  | Some m => Some m
  | None =>
      match s with
      | EmptyString => None
      | String _ rest => first_match at_pos rest
      end
  end.

(** [/pano=([a-zA-Z0-9_-]+)/] at one position: the captured group. *)
Definition pano_param (s : string) : option string :=
  match strip "pano=" s with
  | Some rest =>
      match span is_id_char rest with
      | (String c run, _) => Some (String c run)
      | (EmptyString, _) => None
      end
  | None => None
  end.

(** [/!1s([a-zA-Z0-9_-]+)(?:!|&)/] at one position: the captured group. *)
Definition place_param (s : string) : option string :=
  match strip "!1s" s with
  | Some rest =>
      match span is_id_char rest with
      | (String c run, String d _) =>
          if Ascii.eqb d "!" || Ascii.eqb d "&" then Some (String c run) else None
      | _ => None
      end
  | None => None
  end.

(** [-?\d+\.\d+] at the start of [s]: the matched text and what follows. *)
Definition number (s : string) : option (string * string) :=
  let '(sign, s1) :=
    match s with
    | String c s' => if Ascii.eqb c "-" then ("-"%string, s') else (EmptyString, s)
    | EmptyString => (EmptyString, s)
    end in
  match span is_digit s1 with
  | (String c int, s2) =>
      match strip "." s2 with
      | Some s3 =>
          match span is_digit s3 with
          | (String d frac, s4) =>
              Some (sign +:+ String c int +:+ "." +:+ String d frac, s4)
          | (EmptyString, _) => None
          end
      | None => None
      end
  | (EmptyString, _) => None
  end.

(** [/<lit>(-?\d+\.\d+),(-?\d+\.\d+)/] at one position, for [lit] one of
    [@] and [ll=]: the two captured groups. *)
Definition coords_param (lit s : string) : option (string * string) :=
  match strip lit s with
  | Some s1 =>
      match number s1 with
      | Some (lat, s2) =>
          match strip "," s2 with
          | Some s3 =>
              match number s3 with
              | Some (lng, _) => Some (lat, lng)
              | None => None
              end
          | None => None
          end
      | None => None
      end
  | None => None
  end.

Module LatLng.
Record t (Float : Type) := { lat : Float; lng : Float }.
Arguments lat {Float} _.
Arguments lng {Float} _.
End LatLng.

Module ExtractedData.
Record t (Float : Type) := { panoId : option string; coords : option (LatLng.t Float) }.
Arguments panoId {Float} _.
Arguments coords {Float} _.
End ExtractedData.

Section extractUrlData.
Context {Float : Type} (parseFloat : string → Float).

Definition parse_coords (m : option (string * string)) : option (LatLng.t Float) :=
  match m with
  | Some (lat, lng) => Some {| LatLng.lat := parseFloat lat; LatLng.lng := parseFloat lng |}
  | None => None
  end.

Definition extractUrlData (url : string) : ExtractedData.t Float :=
  let panoId :=
    match first_match pano_param url with
    | Some id => Some id
    | None => first_match place_param url
    end in
  let coords := parse_coords (first_match (coords_param "@") url) in
  let coords :=
    match coords with
    | Some c => Some c
    | None => parse_coords (first_match (coords_param "ll=") url)
    end in
  {| ExtractedData.panoId := panoId; ExtractedData.coords := coords |}.

End extractUrlData.

(** The characters of [s] are all of the class [p]. *)
Fixpoint string_forall (p : ascii → bool) (s : string) : bool :=
  match s with
  | EmptyString => true
  | String c rest => p c && string_forall p rest
  end.

(** [s] does not start with a character of the class [p]. *)
Definition stops (p : ascii → bool) (s : string) : Prop :=
  match s with
  | EmptyString => True
  | String c _ => p c = false
  end.

(** The texts that [-?\d+\.\d+] matches. *)
Definition decimal (s : string) : Prop :=
  ∃ sign int frac,
    s = sign +:+ int +:+ "." +:+ frac
    ∧ (sign = EmptyString ∨ sign = "-"%string)
    ∧ int ≠ EmptyString ∧ frac ≠ EmptyString
    ∧ string_forall is_digit int = true ∧ string_forall is_digit frac = true.

(** A share link of a panorama. *)
Definition share_link : string :=
  "https://www.google.com/maps/@48.8583701,2.2922926,3a,75y,90t/data=!3m6!1e1!3m4!1sAF1QipN-x_9k!2e10".

(** A link of the Maps URLs API. *)
Definition api_link : string :=
  "https://www.google.com/maps/@?api=1&map_action=pano&pano=tu510ie_z4ptBZYo2BGEJg&ll=48.857832,-2.295226".

(** * The application *)

(** [App] keeps its state in hooks, and [handleSubmit] and
    [handleStitchRequest] read and write it.  The [error] state holds the
    message of the error caught: the errors are told apart by constructor
    here.  The image URL is represented by the canvas it encodes.  The state
    is the one after the handler has returned; scrolling is left out. *)

Inductive AppError :=
| NoPanoramaId
| NoResolutions
| PanoramaIdUnavailable
| Raised (e : Error).

Module App.
Record t (Float : Type) := {
  isLoading : bool;
  error : option AppError;
  panoId : option string;
  availableResolutions : list Resolution;
  viewerImageUrl : option Canvas;
  viewerProgress : option Progress;
  mapCoords : option (LatLng.t Float) }.
Arguments isLoading {Float} _.
Arguments error {Float} _.
Arguments panoId {Float} _.
Arguments availableResolutions {Float} _.
Arguments viewerImageUrl {Float} _.
Arguments viewerProgress {Float} _.
Arguments mapCoords {Float} _.
End App.

Section App.
Context {Float : Type} (parseFloat : string → Float).

Definition setIsLoading (v : bool) (st : App.t Float) : App.t Float :=
  {| App.isLoading := v; App.error := App.error st; App.panoId := App.panoId st;
     App.availableResolutions := App.availableResolutions st;
     App.viewerImageUrl := App.viewerImageUrl st;
     App.viewerProgress := App.viewerProgress st; App.mapCoords := App.mapCoords st |}.

Definition setError (v : option AppError) (st : App.t Float) : App.t Float :=
  {| App.isLoading := App.isLoading st; App.error := v; App.panoId := App.panoId st;
     App.availableResolutions := App.availableResolutions st;
     App.viewerImageUrl := App.viewerImageUrl st;
     App.viewerProgress := App.viewerProgress st; App.mapCoords := App.mapCoords st |}.

Definition setPanoId (v : option string) (st : App.t Float) : App.t Float :=
  {| App.isLoading := App.isLoading st; App.error := App.error st; App.panoId := v;
     App.availableResolutions := App.availableResolutions st;
     App.viewerImageUrl := App.viewerImageUrl st;
     App.viewerProgress := App.viewerProgress st; App.mapCoords := App.mapCoords st |}.

Definition setAvailableResolutions (v : list Resolution) (st : App.t Float) : App.t Float :=
  {| App.isLoading := App.isLoading st; App.error := App.error st;
     App.panoId := App.panoId st; App.availableResolutions := v;
     App.viewerImageUrl := App.viewerImageUrl st;
     App.viewerProgress := App.viewerProgress st; App.mapCoords := App.mapCoords st |}.

Definition setViewerImageUrl (v : option Canvas) (st : App.t Float) : App.t Float :=
  {| App.isLoading := App.isLoading st; App.error := App.error st;
     App.panoId := App.panoId st;
     App.availableResolutions := App.availableResolutions st;
     App.viewerImageUrl := v;
     App.viewerProgress := App.viewerProgress st; App.mapCoords := App.mapCoords st |}.

Definition setViewerProgress (v : option Progress) (st : App.t Float) : App.t Float :=
  {| App.isLoading := App.isLoading st; App.error := App.error st;
     App.panoId := App.panoId st;
     App.availableResolutions := App.availableResolutions st;
     App.viewerImageUrl := App.viewerImageUrl st;
     App.viewerProgress := v; App.mapCoords := App.mapCoords st |}.

Definition setMapCoords (v : option (LatLng.t Float)) (st : App.t Float) : App.t Float :=
  {| App.isLoading := App.isLoading st; App.error := App.error st;
     App.panoId := App.panoId st;
     App.availableResolutions := App.availableResolutions st;
     App.viewerImageUrl := App.viewerImageUrl st;
     App.viewerProgress := App.viewerProgress st; App.mapCoords := v |}.

Definition resetState (st : App.t Float) : App.t Float :=
  setViewerProgress None
    (setViewerImageUrl None
       (setAvailableResolutions [] (setPanoId None (setError None (setIsLoading false st))))).

(** [handleViewerProgress], called by the job with each report. *)
Definition handleViewerProgress (st : App.t Float) (p : Progress) : App.t Float :=
  setViewerProgress (Some p) st.

(** The string is truthy. *)
Definition truthy (s : option string) : option string :=
  match s with
  | Some (String c rest) => Some (String c rest)
  | _ => None
  end.

(** The events of the job started, if any, and the state afterwards. *)
Definition handleSubmit (env : Env) (sched : list nat) (st : App.t Float)
    (submittedUrl : string) : list Event * App.t Float :=
  let st := setIsLoading true (resetState st) in
  let data := extractUrlData parseFloat submittedUrl in
  match truthy (ExtractedData.panoId data) with
  | None => ([], setIsLoading false (setError (Some NoPanoramaId) st))
  | Some extractedPanoId =>
      let st := setMapCoords (ExtractedData.coords data) (setPanoId (Some extractedPanoId) st) in
      let resolutions := getAvailableResolutions in
      let st := setAvailableResolutions resolutions st in
      match resolutions with
      | [] => ([], setIsLoading false (setError (Some NoResolutions) st))
      | first :: _ =>
          let defaultRes :=
            match List.find (λ r, res_zoom r =? 3) resolutions with
            | Some r => r
            | None => first
            end in
          let '(events, imageUrl) :=
            stitchStreetViewImage env sched extractedPanoId (res_zoom defaultRes) in
          let st := fold_left handleViewerProgress (progress_events events) st in
          (events,
           setIsLoading false
             match imageUrl with
             | Ok url => setViewerImageUrl (Some url) st
             | Throw e => setError (Some (Raised e)) st
             end)
      end
  end.

Definition handleStitchRequest (env : Env) (sched : list nat) (st : App.t Float)
    (zoom : Z) : list Event * (Canvas + AppError) :=
  match truthy (App.panoId st) with
  | None => ([], inr PanoramaIdUnavailable)
  | Some panoId =>
      let '(events, imageUrl) := stitchStreetViewImage env sched panoId zoom in
      (events,
       match imageUrl with
       | Ok url => inl url
       | Throw e => inr (Raised e)
       end)
  end.

End App.

(** The state of [App] before the first submission. *)
Definition initial_state : App.t string :=
  {| App.isLoading := false; App.error := None; App.panoId := None;
     App.availableResolutions := []; App.viewerImageUrl := None;
     App.viewerProgress := None; App.mapCoords := None |}.

(** A link of a place, without a panorama. *)
Definition place_link : string :=
  "https://www.google.com/maps/@48.8583701,2.2922926,17z".

(** * The earlier revision of the service *)

(** The earlier revision of [stitchStreetViewImage] hashes the middle row
    of every tile it keeps and drops the columns from the first one that
    repeats column 0. *)

Module Legacy.

(** [ToInt32] *)
Definition wrap32 (n : Z) : Z := (n + 2147483648) `mod` 4294967296 - 2147483648.

(** One round of the loop of [getTileHash].  An [undefined] operand makes
    the sum [NaN], and [NaN & NaN] is 0. *)
Definition hash_step (data : list Z) (hash i : Z) : Z :=
  match data_at data i, data_at data (i + 1), data_at data (i + 2) with
  | Some r, Some g, Some b =>
      let hash := wrap32 (Z.shiftl (wrap32 hash) 5) - hash + r + g + b in
      Z.land (wrap32 hash) (wrap32 hash)
  | _, _, _ => 0
  end.

(** [ctx_ok]: whether the scratch canvas obtains a 2D context. *)
Definition getTileHash (ctx_ok : bool) (img : Image) : result string :=
  let hCanvas := createCanvas (img_width img) 1 ctx_ok in
  if negb (ctx2d hCanvas) then Ok EmptyString
  else
    let hCanvas := drawImage hCanvas img 0 (- (img_height img `div` 2)) in
    data <- getImageData hCanvas 0 0 (img_width img) 1 ;;
    Ok (pretty (fold_left (hash_step data) (indices (Z.of_nat (length data)) 4) 0)).

(** [hashes[`${x},${y}`]], when it is truthy. *)
Definition hash_at (hashes : gmap string string) (x y : Z) : option string :=
  truthy (hashes !! key {| Coord.x := x; Coord.y := y |}).

(** The loop over [y] for one [repeatX], from the values of [isMatch] (true)
    and [hasValidTile] at its head to their values when it is left. *)
Fixpoint column_match (hashes : gmap string string) (repeatX : Z) (ys : list Z)
    (hasValidTile : bool) : bool * bool :=
  match ys with
  | [] => (true, hasValidTile)
  | y :: ys =>
      match hash_at hashes repeatX y, hash_at hashes 0 y with
      | Some hashRepeat, Some hashOriginal =>
          if String.eqb hashRepeat hashOriginal then column_match hashes repeatX ys true
          else (false, true)
      | None, None => column_match hashes repeatX ys hasValidTile
      | _, _ => (false, hasValidTile)
      end
  end.

(** The loop over [repeatX]. *)
Fixpoint find_repeat (hashes : gmap string string) (grid : GridSize) (xs : list Z) : Z :=
  match xs with
  | [] => Grid.x grid
  | repeatX :: xs =>
      let '(isMatch, hasValidTile) :=
        column_match hashes repeatX (seqZ 0 (Grid.y grid)) false in
      if isMatch && hasValidTile then repeatX else find_repeat hashes grid xs
  end.

Definition actualCols (hashes : gmap string string) (grid : GridSize) : Z :=
  find_repeat hashes grid (seqZ 1 (Grid.x grid - 1)).

(** Column [k] repeats column 0: in every row the two tiles have equal
    hashes or both have none, and some row has hashes. *)
Definition repeats (hashes : gmap string string) (grid : GridSize) (k : Z) : Prop :=
  (∀ y, 0 ≤ y < Grid.y grid → hash_at hashes k y = hash_at hashes 0 y)
  ∧ ∃ y, 0 ≤ y < Grid.y grid ∧ is_Some (hash_at hashes 0 y).

(** The sum of the colour channels of the pixels of the middle row. *)
Definition middle_row (img : Image) : list Z :=
  (λ px, let p := img_pix img px (img_height img `div` 2) in red p + green p + blue p)
  <$> seqZ 0 (img_width img).

(** The polynomial in 31 with the coefficients [sums], highest first. *)
Definition poly31 (sums : list Z) : Z := fold_left (λ acc s, 31 * acc + s) sums 0.

(** Hashes of a 3 x 1 grid whose columns 0 and 2 are equal. *)
Definition period_two : gmap string string :=
  {[ "0,0"%string := "17"%string; "1,0"%string := "-4"%string; "2,0"%string := "17"%string ]}.

(** Two images of one bright pixel, in different colours. *)
Definition red_dot : Image :=
  {| img_width := 1; img_height := 1;
     img_pix := λ _ _, {| red := 200; green := 0; blue := 0; alpha := 255 |} |}.
Definition blue_dot : Image :=
  {| img_width := 1; img_height := 1;
     img_pix := λ _ _, {| red := 0; green := 0; blue := 200; alpha := 255 |} |}.

End Legacy.

(** * Properties *)

(** ** The resolution catalog *)

Example resolutions_computed :
  getAvailableResolutions =
  [ {| res_zoom := 3; res_width := 4096; res_height := 2048;
       res_label := "High"; res_tileCount := 32 |};
    {| res_zoom := 4; res_width := 8192; res_height := 4096;
       res_label := "Maximum"; res_tileCount := 128 |} ].
Proof. reflexivity. Qed.

(** ** Loops over an array *)

Lemma indices_fmap n step :
  indices n step = (λ k, k * step) <$> seqZ 0 ((n + step - 1) `div` step).
Proof. reflexivity. Qed.

(** [indices n step] lists the multiples of [step] below [n]. *)
Lemma elem_of_indices n step i :
  0 < step → i ∈ indices n step ↔ 0 ≤ i < n ∧ i `mod` step = 0.
Proof.
  intros Hstep. unfold indices. rewrite list_elem_of_fmap. split.
  - intros (k & -> & Hk). apply elem_of_seqZ in Hk.
    split; [| by apply Z.mod_mul; lia].
    assert (k * step ≤ n + step - 1 - step) as Hle; [| lia].
    assert (k + 1 ≤ (n + step - 1) `div` step) as Hk1 by lia.
    pose proof (Z.mul_div_le (n + step - 1) step Hstep). nia.
  - intros [Hi Hmod]. exists (i `div` step). split.
    + pose proof (Z.div_mod i step). lia.
    + apply elem_of_seqZ. split; [apply Z.div_pos; lia |].
      rewrite Z.add_0_l. apply Z.div_lt_upper_bound; [lia |].
      pose proof (Z.div_mod (n + step - 1) step).
      pose proof (Z.mod_pos_bound (n + step - 1) step Hstep).
      pose proof (Z.div_mod i step). nia.
Qed.

Lemma indices_nonempty n step : 0 < step → 0 < n → indices n step ≠ [].
Proof.
  intros Hstep Hn Hnil.
  assert (0 ∈ indices n step) as Hin.
  { apply elem_of_indices; [done |]. split; [lia |]. by apply Z.mod_0_l; lia. }
  rewrite Hnil in Hin. by apply not_elem_of_nil in Hin.
Qed.

Lemma flat_map_ext_elem {A B} (f g : A → list B) (l : list A) :
  (∀ a, a ∈ l → f a = g a) → flat_map f l = flat_map g l.
Proof.
  induction l as [| a l IH]; intros Hfg; simpl; [done |].
  rewrite Hfg by left. rewrite IH; [done |]. intros b Hb. apply Hfg. by right.
Qed.

(** A byte array holds four bytes per pixel. *)
Lemma lookup_pixel_bytes (ps : list Pixel) (n c : nat) :
  (c < 4)%nat →
  flat_map pixel_bytes ps !! (4 * n + c)%nat = ps !! n ≫= λ p, pixel_bytes p !! c.
Proof.
  intros Hc. revert n. induction ps as [| p ps IH]; intros n.
  - done.
  - change (flat_map pixel_bytes (p :: ps))
      with (pixel_bytes p ++ flat_map pixel_bytes ps).
    destruct n as [| n].
    + rewrite lookup_app_l by (simpl; lia). done.
    + rewrite lookup_app_r by (simpl; lia).
      replace (4 * S n + c - length (pixel_bytes p))%nat with (4 * n + c)%nat
        by (simpl; lia).
      apply IH.
Qed.

Lemma length_pixel_bytes (ps : list Pixel) :
  length (flat_map pixel_bytes ps) = (4 * length ps)%nat.
Proof. induction ps as [| p ps IH]; simpl; lia. Qed.

(** Reading the sample at byte offset [4 i] tests pixel [i]. *)
Lemma bright_pixel_at (ps : list Pixel) thresh i :
  0 ≤ i →
  bright (flat_map pixel_bytes ps) thresh (4 * i) =
  match ps !! Z.to_nat i with
  | Some p => bright_pixel thresh p
  | None => false
  end.
Proof.
  intros Hi. unfold bright, data_at.
  repeat match goal with |- context [?a <? 0] =>
    destruct (Z.ltb_spec a 0); [lia |] end.
  replace (Z.to_nat (4 * i)) with (4 * Z.to_nat i + 0)%nat by lia.
  replace (Z.to_nat (4 * i + 1)) with (4 * Z.to_nat i + 1)%nat by lia.
  replace (Z.to_nat (4 * i + 2)) with (4 * Z.to_nat i + 2)%nat by lia.
  rewrite !lookup_pixel_bytes by lia.
  destruct (ps !! Z.to_nat i) as [p |]; done.
Qed.

(** The counting loop of [isTileBlack]. *)
Lemma fold_count_step data thresh l a b :
  fold_left (count_step data thresh) l (a, b) =
  (a + Z.of_nat (length (List.filter (bright data thresh) l)), b + Z.of_nat (length l)).
Proof.
  revert a b. induction l as [| i l IH]; intros a b; simpl.
  - f_equal; lia.
  - rewrite IH. destruct (bright data thresh i); simpl; f_equal; lia.
Qed.

(** ** The tile classifier *)

Lemma length_row_major img :
  0 ≤ img_width img → 0 ≤ img_height img →
  Z.of_nat (length (row_major img)) = img_width img * img_height img.
Proof.
  intros Hw Hh. unfold row_major.
  rewrite <- (Z2Nat.id (img_height img)) at 2 by done.
  rewrite <- (length_seqZ 0 (img_height img)).
  induction (seqZ 0 (img_height img)) as [| j l IH]; simpl; [lia |].
  rewrite length_app, length_fmap, length_seqZ. lia.
Qed.

(** The scratch canvas of [isTileBlack] holds the image. *)
Lemma tile_canvas_pixels img ctx :
  rect_pixels (drawImage (createCanvas (img_width img) (img_height img) ctx) img 0 0)
    0 0 (img_width img) (img_height img) = row_major img.
Proof.
  unfold rect_pixels, row_major.
  apply flat_map_ext_elem. intros j Hj. apply elem_of_seqZ in Hj.
  apply list_fmap_ext. intros k i Hi. apply list_elem_of_lookup_2, elem_of_seqZ in Hi.
  unfold pixel_at, drawImage, createCanvas, inside; simpl.
  rewrite !Z.add_0_l, !Z.sub_0_r.
  repeat match goal with |- context [?a <=? ?b] =>
    destruct (Z.leb_spec a b); [| lia] end.
  repeat match goal with |- context [?a <? ?b] =>
    destruct (Z.ltb_spec a b); [| lia] end.
  done.
Qed.

Lemma indices_bytes n : 0 ≤ n → indices (4 * n) (4 * 16) = (λ i, 4 * i) <$> indices n 16.
Proof.
  intros Hn. unfold indices. rewrite <- list_fmap_compose.
  replace ((4 * n + 4 * 16 - 1) `div` (4 * 16)) with ((n + 16 - 1) `div` 16).
  - apply list_fmap_ext. intros; simpl; lia.
  - pose proof (Z.div_mod (4 * n + 4 * 16 - 1) (4 * 16)).
    pose proof (Z.mod_pos_bound (4 * n + 4 * 16 - 1) (4 * 16)).
    pose proof (Z.div_mod (n + 16 - 1) 16).
    pose proof (Z.mod_pos_bound (n + 16 - 1) 16). lia.
Qed.

(** Counting the bright samples in the byte array counts the bright pixels
    among every 16th pixel. *)
Lemma filter_bright_samples (ps : list Pixel) thresh (l : list Z) :
  Forall (λ i, 0 ≤ i < Z.of_nat (length ps)) l →
  length (List.filter (bright (flat_map pixel_bytes ps) thresh) ((λ i, 4 * i) <$> l))
  = length (List.filter (bright_pixel thresh) (omap (λ i, ps !! Z.to_nat i) l))
  ∧ length (omap (λ i, ps !! Z.to_nat i) l) = length l.
Proof.
  induction 1 as [| i l Hi _ [IH1 IH2]]; [done |].
  simpl in Hi. destruct (lookup_lt_is_Some_2 ps (Z.to_nat i)) as [p Hp]; [lia |].
  cbn [fmap list_fmap omap list_omap List.filter]. rewrite bright_pixel_at by lia.
  rewrite Hp. simpl. destruct (bright_pixel thresh p); simpl; lia.
Qed.

(** What [isTileBlack] computes on an image with at least one pixel, when
    its scratch canvas has a context. *)
Lemma isTileBlack_sampled img :
  0 < img_width img → 0 < img_height img →
  let sampled := every_nth 16 (row_major img) in
  isTileBlack true img =
  Ok (ratio_below_2pct (count_bright 25 sampled) (Z.of_nat (length sampled))).
Proof.
  intros Hw Hh sampled. unfold isTileBlack, getImageData. simpl.
  destruct (Z.eqb_spec (img_width img) 0); [lia |].
  destruct (Z.eqb_spec (img_height img) 0); [lia |]. simpl.
  rewrite tile_canvas_pixels, fold_count_step, length_pixel_bytes.
  rewrite Nat2Z.inj_mul, indices_bytes by lia.
  destruct (filter_bright_samples (row_major img) 25
              (indices (Z.of_nat (length (row_major img))) 16)) as [H1 H2].
  { apply Forall_forall. intros i Hi. apply elem_of_indices in Hi; lia. }
  rewrite H1, length_fmap. unfold sampled, count_bright, every_nth.
  rewrite H2. done.
Qed.

Lemma every_nth_nonempty {A} (l : list A) step :
  0 < step → l ≠ [] → every_nth step l ≠ [].
Proof.
  intros Hstep Hl. unfold every_nth.
  assert (0 ∈ indices (Z.of_nat (length l)) step) as Hin.
  { apply elem_of_indices; [done |]. destruct l; [done |]. simpl. split; [lia |].
    apply Z.mod_0_l. lia. }
  apply list_elem_of_split in Hin as (l1 & l2 & ->).
  destruct l as [| a l]; [done |]. intros Hnil.
  assert (a ∈ omap (λ i, (a :: l) !! Z.to_nat i) (l1 ++ 0 :: l2)) as Ha.
  { apply list_elem_of_omap. exists 0. split; [| done]. apply elem_of_app. right. left. }
  rewrite Hnil in Ha. by apply not_elem_of_nil in Ha.
Qed.

Lemma elem_of_every_nth {A} (l : list A) step a : a ∈ every_nth step l → a ∈ l.
Proof.
  unfold every_nth. intros (i & _ & Hi)%list_elem_of_omap.
  by apply list_elem_of_lookup_2 in Hi.
Qed.

Lemma elem_of_row_major img p :
  p ∈ row_major img →
  ∃ px py, 0 ≤ px < img_width img ∧ 0 ≤ py < img_height img ∧ p = img_pix img px py.
Proof.
  unfold row_major. intros Hp. apply list_elem_of_In, in_flat_map in Hp as (j & Hj & Hp).
  apply list_elem_of_In, elem_of_seqZ in Hj.
  apply list_elem_of_In, list_elem_of_fmap in Hp as (i & -> & Hi).
  apply elem_of_seqZ in Hi. exists i, j. split_and!; done || lia.
Qed.

Lemma count_bright_none thresh (ps : list Pixel) :
  Forall (λ p, bright_pixel thresh p = false) ps → count_bright thresh ps = 0.
Proof.
  unfold count_bright. induction 1 as [| p l Hp _ IH]; [done |].
  simpl in *. by rewrite Hp.
Qed.

(** C6: an image with at least one pixel whose pixels all have red, green
    and blue 0 is classified blank: [isTileBlack] returns [true] (when its
    scratch canvas has a 2D context). *)
Theorem isTileBlack_all_black img :
  0 < img_width img → 0 < img_height img →
  (∀ px py, 0 ≤ px < img_width img → 0 ≤ py < img_height img →
     red (img_pix img px py) = 0 ∧ green (img_pix img px py) = 0
     ∧ blue (img_pix img px py) = 0) →
  isTileBlack true img = Ok true.
Proof.
  intros Hw Hh Hblack. rewrite isTileBlack_sampled by done. f_equal.
  assert (row_major img ≠ []) as Hne.
  { intros Hnil. pose proof (length_row_major img) as Hlen.
    rewrite Hnil in Hlen. simpl in Hlen. nia. }
  apply (every_nth_nonempty _ 16) in Hne; [| lia].
  assert (count_bright 25 (every_nth 16 (row_major img)) = 0) as ->.
  { apply count_bright_none, Forall_forall.
    intros p Hp%elem_of_every_nth%elem_of_row_major.
    destruct Hp as (px & py & Hpx & Hpy & ->).
    destruct (Hblack px py) as (Hr & Hg & Hb); [done.. |].
    unfold bright_pixel. by rewrite Hr, Hg, Hb. }
  unfold ratio_below_2pct.
  destruct (every_nth 16 (row_major img)); [done |]. simpl length.
  destruct (Z.eqb_spec (Z.of_nat (S (length l))) 0); [lia |].
  apply Z.ltb_lt. lia.
Qed.

Lemma isTileBlack_all_black_witness : isTileBlack true black_image = Ok true.
Proof.
  apply isTileBlack_all_black; simpl; [lia | lia | done].
Defined.

(** C5, as stated, fails: 15 of the 16 pixels of [first_pixel_black] are
    white, yet the only pixel sampled is black and the image is classified
    blank. *)
Lemma isTileBlack_misses_unsampled_pixels :
  Z.of_nat (length (row_major first_pixel_black))
    < 50 * count_bright 25 (row_major first_pixel_black)
  ∧ isTileBlack true first_pixel_black = Ok true.
Proof. split; [by vm_compute | reflexivity]. Qed.

(** C5, amended: an image in which more than 2% of the sampled pixels (every
    16th pixel in row-major order) have red, green or blue above 25 is
    classified non-blank. *)
Theorem isTileBlack_bright_samples img :
  0 < img_width img → 0 < img_height img →
  Z.of_nat (length (every_nth 16 (row_major img)))
    < 50 * count_bright 25 (every_nth 16 (row_major img)) →
  isTileBlack true img = Ok false.
Proof.
  intros Hw Hh Hbright. rewrite isTileBlack_sampled by done. f_equal.
  unfold ratio_below_2pct. destruct (_ =? 0); [done |].
  apply Z.ltb_ge. lia.
Qed.

Lemma isTileBlack_bright_samples_witness : isTileBlack true first_pixel_white = Ok false.
Proof.
  apply isTileBlack_bright_samples; [simpl; lia | simpl; lia | by vm_compute].
Defined.

(** ** The border cropper *)

Lemma isRowBlack_ok c thresh y : width c ≠ 0 → ∃ b, isRowBlack c thresh y = Ok b.
Proof.
  intros Hw. unfold isRowBlack, getImageData.
  destruct (Z.eqb_spec (width c) 0); [done |]. simpl. eauto.
Qed.

Lemma isColBlack_ok c thresh x : height c ≠ 0 → ∃ b, isColBlack c thresh x = Ok b.
Proof.
  intros Hh. unfold isColBlack, getImageData.
  destruct (Z.eqb_spec (height c) 0); [done |]. simpl. eauto.
Qed.

(** The two [while] loops return, within the bounds they scan. *)
Lemma scan_up_bounds test fuel lo hi :
  (∀ v, ∃ b, test v = Ok b) →
  ∃ r, scan_up test fuel lo hi = Ok r ∧ lo ≤ r ∧ (r = lo ∨ r ≤ hi + 1).
Proof.
  intros Htest. revert lo. induction fuel as [| fuel IH]; intros lo; simpl.
  - exists lo. split; [done | lia].
  - destruct (Z.leb_spec lo hi); [| exists lo; split; [done | lia]].
    destruct (Htest lo) as [[] ->]; simpl; [| exists lo; split; [done | lia]].
    destruct (IH (lo + 1)) as (r & -> & ?). exists r. split; [done | lia].
Qed.

Lemma scan_down_bounds test fuel hi lo :
  (∀ v, ∃ b, test v = Ok b) →
  ∃ r, scan_down test fuel hi lo = Ok r ∧ r ≤ hi ∧ (r = hi ∨ lo - 1 ≤ r).
Proof.
  intros Htest. revert hi. induction fuel as [| fuel IH]; intros hi; simpl.
  - exists hi. split; [done | lia].
  - destruct (Z.leb_spec lo hi); [| exists hi; split; [done | lia]].
    destruct (Htest hi) as [[] ->]; simpl; [| exists hi; split; [done | lia]].
    destruct (IH (hi - 1)) as (r & -> & ?). exists r. split; [done | lia].
Qed.

(** The fuel is enough: a loop stops only when its condition fails. *)
Lemma scan_up_exit test fuel lo hi r :
  (Z.to_nat (hi + 1 - lo) ≤ fuel)%nat →
  scan_up test fuel lo hi = Ok r → hi < r ∨ test r = Ok false.
Proof.
  revert lo. induction fuel as [| fuel IH]; intros lo Hfuel; simpl.
  - intros [= <-]. lia.
  - destruct (Z.leb_spec lo hi); [| intros [= <-]; lia].
    destruct (test lo) as [[] |] eqn:Ht; simpl; [| intros [= <-]; by right | done].
    apply IH. lia.
Qed.

Lemma scan_down_exit test fuel hi lo r :
  (Z.to_nat (hi + 1 - lo) ≤ fuel)%nat →
  scan_down test fuel hi lo = Ok r → r < lo ∨ test r = Ok false.
Proof.
  revert hi. induction fuel as [| fuel IH]; intros hi Hfuel; simpl.
  - intros [= <-]. lia.
  - destruct (Z.leb_spec lo hi); [| intros [= <-]; lia].
    destruct (test hi) as [[] |] eqn:Ht; simpl; [| intros [= <-]; by right | done].
    apply IH. lia.
Qed.

(** A loop over lines that all test background runs to the end. *)
Lemma scan_up_all test fuel lo hi :
  (∀ v, lo ≤ v ≤ hi → test v = Ok true) →
  (Z.to_nat (hi + 1 - lo) ≤ fuel)%nat → lo ≤ hi + 1 →
  scan_up test fuel lo hi = Ok (hi + 1).
Proof.
  revert lo. induction fuel as [| fuel IH]; intros lo Htest Hfuel Hlo; simpl.
  - f_equal. lia.
  - destruct (Z.leb_spec lo hi); [| f_equal; lia].
    rewrite Htest by lia. simpl. apply IH; [intros; apply Htest |..]; lia.
Qed.

(** A loop stops at once on a line that does not test background. *)
Lemma scan_up_stop test fuel lo hi :
  test lo = Ok false → scan_up test fuel lo hi = Ok lo.
Proof. intros Ht. destruct fuel; simpl; [done |]. rewrite Ht. by destruct (lo <=? hi). Qed.

Lemma scan_down_stop test fuel hi lo :
  test hi = Ok false → scan_down test fuel hi lo = Ok hi.
Proof. intros Ht. destruct fuel; simpl; [done |]. rewrite Ht. by destruct (lo <=? hi). Qed.

Lemma scan_down_empty test fuel hi lo : hi < lo → scan_down test fuel hi lo = Ok hi.
Proof. intros Hlt. destruct fuel; simpl; [done |]. by destruct (Z.leb_spec lo hi); [lia |]. Qed.

Lemma subregion_drawRegion c left top w h ctx :
  0 ≤ left → 0 ≤ top → 0 < w → 0 < h → left + w ≤ width c → top + h ≤ height c →
  subregion (drawRegion (createCanvas w h ctx) c left top w h) c left top.
Proof.
  intros. unfold subregion. simpl. split_and!; try lia.
  intros px py Hpx Hpy. unfold pixel_at at 1. simpl. unfold inside.
  repeat match goal with |- context [?a <=? ?b] =>
    destruct (Z.leb_spec a b); [| lia] end.
  repeat match goal with |- context [?a <? ?b] =>
    destruct (Z.ltb_spec a b); [| lia] end.
  done.
Qed.

(** [cropBlackEdges] returns: its input, or a strictly smaller rectangle
    of it. *)
Lemma cropBlackEdges_cases cctx c :
  0 < width c → 0 < height c →
  ∃ out, cropBlackEdges cctx c = Ok out
    ∧ (out = c
       ∨ ∃ left top, subregion out c left top
           ∧ (width out < width c ∨ height out < height c)).
Proof.
  intros Hw Hh. unfold cropBlackEdges. destruct (ctx2d c); simpl; [| by eauto].
  destruct (scan_up_bounds (isRowBlack c 25) (Z.to_nat (height c)) 0 (height c - 1))
    as (top & -> & Htop); [intros; apply isRowBlack_ok; lia |]. simpl.
  destruct (scan_down_bounds (isRowBlack c 25) (Z.to_nat (height c)) (height c - 1) top)
    as (bottom & -> & Hbottom); [intros; apply isRowBlack_ok; lia |]. simpl.
  destruct (scan_up_bounds (isColBlack c 25) (Z.to_nat (width c)) 0 (width c - 1))
    as (left & -> & Hleft); [intros; apply isColBlack_ok; lia |]. simpl.
  destruct (scan_down_bounds (isColBlack c 25) (Z.to_nat (width c)) (width c - 1) left)
    as (right & -> & Hright); [intros; apply isColBlack_ok; lia |]. simpl.
  destruct (Z.ltb_spec bottom top); simpl; [by eauto |].
  destruct (Z.ltb_spec right left); simpl; [by eauto |].
  destruct ((top =? 0) && (bottom =? height c - 1) && (left =? 0)
            && (right =? width c - 1)) eqn:Hfull; [by eauto |].
  destruct cctx; [| by eauto].
  eexists. split; [done |]. right. exists left, top. split.
  - apply subregion_drawRegion; lia.
  - simpl. apply andb_false_iff in Hfull as [Hfull | Hfull];
      [apply andb_false_iff in Hfull as [Hfull | Hfull];
       [apply andb_false_iff in Hfull as [Hfull | Hfull] |] |];
      apply Z.eqb_neq in Hfull; lia.
Qed.

(** The loop of [isRowBlack] and [isColBlack] on samples that are all dark. *)
Lemma line_scan_dark data thresh len idxs nonBlack checked :
  Forall (λ i, bright data thresh i = false) idxs →
  line_scan data thresh len idxs nonBlack checked =
  ratio_below_2pct nonBlack (checked + Z.of_nat (length idxs)).
Proof.
  intros Hall. revert checked.
  induction Hall as [| i idxs Hi _ IH]; intros checked; simpl.
  - f_equal. lia.
  - simpl in Hi. rewrite Hi, IH. f_equal. lia.
Qed.

Lemma elem_of_rect_pixels c sx sy sw sh p :
  p ∈ rect_pixels c sx sy sw sh → ∃ px py, p = pixel_at c px py.
Proof.
  unfold rect_pixels. intros Hp.
  apply list_elem_of_In, in_flat_map in Hp as (j & _ & Hp).
  apply list_elem_of_In, list_elem_of_fmap in Hp as (i & -> & _). eauto.
Qed.

Lemma length_rect_pixels c sx sy sw sh :
  0 ≤ sw → 0 ≤ sh → Z.of_nat (length (rect_pixels c sx sy sw sh)) = sw * sh.
Proof.
  intros Hw Hh. unfold rect_pixels.
  rewrite <- (Z2Nat.id sh) at 2 by done. rewrite <- (length_seqZ 0 sh).
  induction (seqZ 0 sh) as [| j l IH]; simpl; [lia |].
  rewrite length_app, length_fmap, length_seqZ. lia.
Qed.

(** On a dark canvas the sampling loop sees no bright sample. *)
Lemma line_scan_dark_canvas c thresh sx sy sw sh len :
  dark_canvas thresh c → 0 < sw → 0 < sh →
  let data := flat_map pixel_bytes (rect_pixels c sx sy sw sh) in
  line_scan data thresh len (indices (Z.of_nat (length data)) (4 * 4)) 0 0 = true.
Proof.
  intros Hdark Hw Hh data. rewrite line_scan_dark.
  - unfold ratio_below_2pct.
    assert (indices (Z.of_nat (length data)) (4 * 4) ≠ []) as Hne.
    { apply indices_nonempty; [lia |]. unfold data.
      rewrite length_pixel_bytes, Nat2Z.inj_mul, length_rect_pixels by lia. nia. }
    destruct (indices (Z.of_nat (length data)) (4 * 4)); [done |]. simpl length.
    destruct (Z.eqb_spec (0 + Z.of_nat (S (length l))) 0); [lia |].
    apply Z.ltb_lt. lia.
  - apply Forall_forall. intros i Hi. apply elem_of_indices in Hi as [Hi Hmod]; [| lia].
    assert (i = 4 * (i `div` 4)) as ->.
    { clear -Hmod. change (4 * 4) with 16 in Hmod. Z.div_mod_to_equations. lia. }
    unfold data. rewrite bright_pixel_at by (apply Z.div_pos; lia).
    destruct (_ !! _) as [p |] eqn:Hp; [| done].
    apply list_elem_of_lookup_2, elem_of_rect_pixels in Hp as (px & py & ->).
    apply Hdark.
Qed.

Lemma isRowBlack_dark c thresh y :
  dark_canvas thresh c → 0 < width c → isRowBlack c thresh y = Ok true.
Proof.
  intros Hdark Hw. unfold isRowBlack, getImageData.
  destruct (Z.eqb_spec (width c) 0); [lia |]. simpl.
  by rewrite line_scan_dark_canvas by (done || lia).
Qed.

Lemma isColBlack_dark c thresh x :
  dark_canvas thresh c → 0 < height c → isColBlack c thresh x = Ok true.
Proof.
  intros Hdark Hh. unfold isColBlack, getImageData.
  destruct (Z.eqb_spec (height c) 0); [lia |]. simpl.
  by rewrite line_scan_dark_canvas by (done || lia).
Qed.

(** An all-background canvas collapses the scan and is returned as it is. *)
Lemma cropBlackEdges_dark cctx c :
  dark_canvas 25 c → 0 < width c → 0 < height c → cropBlackEdges cctx c = Ok c.
Proof.
  intros Hdark Hw Hh. unfold cropBlackEdges. destruct (ctx2d c); simpl; [| done].
  rewrite (scan_up_all _ _ 0 (height c - 1))
    by (intros; by apply isRowBlack_dark) || lia. simpl.
  rewrite scan_down_empty by lia. simpl.
  rewrite (scan_up_all _ _ 0 (width c - 1))
    by (intros; by apply isColBlack_dark) || lia. simpl.
  rewrite scan_down_empty by lia. simpl.
  destruct (Z.ltb_spec (height c - 1) (height c - 1 + 1)); [done | lia].
Qed.

(** A canvas whose four border lines do not test background is returned as
    it is. *)
Lemma cropBlackEdges_no_trim cctx c :
  0 < width c → 0 < height c →
  isRowBlack c 25 0 = Ok false → isRowBlack c 25 (height c - 1) = Ok false →
  isColBlack c 25 0 = Ok false → isColBlack c 25 (width c - 1) = Ok false →
  cropBlackEdges cctx c = Ok c.
Proof.
  intros Hw Hh Htop Hbottom Hleft Hright. unfold cropBlackEdges.
  destruct (ctx2d c); simpl; [| done].
  rewrite scan_up_stop by done. simpl. rewrite scan_down_stop by done. simpl.
  rewrite scan_up_stop by done. simpl. rewrite scan_down_stop by done. simpl.
  destruct (Z.ltb_spec (height c - 1) 0); [lia |].
  destruct (Z.ltb_spec (width c - 1) 0); [lia |]. simpl.
  by rewrite !Z.eqb_refl.
Qed.

(** ** The wrap-seam remover *)

(** The search returns the initial [bestMatchX] or the position of one of
    the candidates. *)
Lemma wrap_search_best sourceData searchArea searchWidth scanHeight startX cands b m :
  let r := wrap_search sourceData searchArea searchWidth scanHeight startX cands b m in
  r.1 = b ∨ ∃ dx, dx ∈ cands ∧ r.1 = startX + dx.
Proof.
  revert b m. induction cands as [| dx rest IH]; intros b m; simpl; [by left |].
  destruct (js_lt (avgDiff_at _ _ _ _ dx) m);
    (destruct (js_lt (avgDiff_at _ _ _ _ dx) (Num 8)); simpl;
     [right; exists dx; split; [left | done] |]).
  - right. destruct (IH (startX + dx) (avgDiff_at sourceData searchArea searchWidth
                                         scanHeight dx)) as [-> | (dx' & ? & ->)].
    + exists dx. split; [left | done].
    + exists dx'. split; [by right | done].
  - destruct (IH b m) as [-> | (dx' & ? & ->)]; [by left |].
    right. exists dx'. split; [by right | done].
Qed.

(** [removeHorizontalWrap] returns: its input, or the columns left of some
    position, at full height. *)
Lemma removeHorizontalWrap_cases cctx c :
  ∃ out, removeHorizontalWrap cctx c = Ok out
    ∧ (out = c
       ∨ height out = height c ∧ width out < width c ∧ subregion out c 0 0).
Proof.
  unfold removeHorizontalWrap. destruct (ctx2d c); simpl; [| by eauto].
  destruct (Z.leb_spec (floor_40pct (height c)) 0) as [| Hscan]; simpl; [by eauto |].
  destruct (Z.ltb_spec (width c) 512) as [| Hwidth]; simpl; [by eauto |].
  unfold getImageData. change (W =? 0) with false.
  destruct (Z.eqb_spec (floor_40pct (height c)) 0); [lia |]. simpl.
  destruct (Z.leb_spec (width c - floor_25pct (width c)) W) as [| Hsearch];
    [by eauto |].
  destruct (Z.eqb_spec (width c - floor_25pct (width c)) 0);
    [unfold W in Hsearch; lia |]. simpl.
  match goal with |- context [wrap_search ?a ?b ?c ?d ?e ?f ?g ?h] =>
    pose proof (wrap_search_best a b c d e f g h) as Hbest;
    destruct (wrap_search a b c d e f g h) as [bestMatchX minDiff] end.
  simpl in Hbest.
  destruct (Z.eqb_spec bestMatchX (-1)) as [| Hfound]; simpl; [by eauto |].
  destruct (js_lt minDiff (Num 15)); [| by eauto].
  destruct cctx; simpl; [| by eauto].
  destruct Hbest as [| (dx & Hdx & ->)]; [done |].
  apply elem_of_indices in Hdx as [Hdx _]; [| lia].
  assert (0 < height c) as Hh.
  { unfold floor_40pct in Hscan. destruct (Z.lt_ge_cases 0 (height c)); [done |].
    assert ((2 * height c) `div` 5 ≤ 0); [| lia].
    apply Z.div_le_upper_bound; lia. }
  assert (128 ≤ floor_25pct (width c)) as Hstart.
  { unfold floor_25pct. apply Z.div_le_lower_bound; lia. }
  unfold W in *.
  eexists. split; [done |]. right. simpl. split_and!; [done | lia |].
  apply subregion_drawRegion; lia.
Qed.

(** C10: [cropBlackEdges] and [removeHorizontalWrap] return their input or a
    rectangle of it: the output is no wider and no higher than the input and
    shows the input's pixels unaltered; [removeHorizontalWrap] keeps the
    full height and the columns left of some position. *)
Theorem crops_return_subregions cctx c :
  0 < width c → 0 < height c →
  (∃ out, cropBlackEdges cctx c = Ok out
     ∧ width out ≤ width c ∧ height out ≤ height c
     ∧ (out = c ∨ ∃ left top, subregion out c left top))
  ∧ (∃ out, removeHorizontalWrap cctx c = Ok out
       ∧ width out ≤ width c ∧ height out = height c
       ∧ (out = c ∨ subregion out c 0 0)).
Proof.
  intros Hw Hh. split.
  - destruct (cropBlackEdges_cases cctx c Hw Hh) as (out & Hout & [-> | Hsub]).
    + exists c. split_and!; [done | lia | lia | by left].
    + destruct Hsub as (left & top & Hsub & _). exists out.
      pose proof Hsub as (? & ? & ? & ? & ? & ? & _).
      split_and!; [done | lia | lia |]. right. eauto.
  - destruct (removeHorizontalWrap_cases cctx c) as (out & Hout & [-> | Hsub]).
    + exists c. split_and!; [done | lia | done | by left].
    + destruct Hsub as (? & ? & Hsub). exists out.
      split_and!; [done | lia | done | by right].
Qed.

Lemma crops_return_subregions_witness :
  (∃ out, cropBlackEdges true staggered = Ok out
     ∧ width out ≤ width staggered ∧ height out ≤ height staggered
     ∧ (out = staggered ∨ ∃ left top, subregion out staggered left top))
  ∧ (∃ out, removeHorizontalWrap true staggered = Ok out
       ∧ width out ≤ width staggered ∧ height out = height staggered
       ∧ (out = staggered ∨ subregion out staggered 0 0)).
Proof. apply crops_return_subregions; simpl; lia. Defined.

(** On a uniform canvas the first candidate already matches: the canvas is
    cut at a quarter of its width. *)
Example removeHorizontalWrap_grey_strip :
  removeHorizontalWrap true grey_strip
  = Ok (drawRegion (createCanvas 128 3 true) grey_strip 0 0 128 3).
Proof. vm_compute. reflexivity. Qed.

(** ** Idempotence of the border cropper *)

Example cropBlackEdges_staggered : cropBlackEdges true staggered = Ok staggered_cropped.
Proof. reflexivity. Qed.

Example cropBlackEdges_staggered_cropped :
  cropBlackEdges true staggered_cropped = Ok staggered_cropped_twice.
Proof. reflexivity. Qed.

(** C4, as stated, fails: [cropBlackEdges] turns the 3 x 2 canvas
    [staggered] into a 2 x 1 canvas, and that canvas into a 1 x 1 canvas. *)
Lemma cropBlackEdges_not_idempotent :
  ∃ out, cropBlackEdges true staggered = Ok out
    ∧ width out = 2
    ∧ ∃ out', cropBlackEdges true out = Ok out' ∧ width out' = 1 ∧ out' ≠ out.
Proof.
  exists staggered_cropped. split; [reflexivity |]. split; [reflexivity |].
  exists staggered_cropped_twice. split; [reflexivity |]. split; [reflexivity |].
  intros Heq. apply (f_equal width) in Heq. discriminate Heq.
Qed.

(** Without a context for the cropped copy, [staggered] is returned as it
    is. *)
Example cropBlackEdges_staggered_no_context : cropBlackEdges false staggered = Ok staggered.
Proof. reflexivity. Qed.

(** The cropper is idempotent on the canvases whose bright pixels form a
    rectangle; this is proved with the lemmas on the scans of the cropper,
    further below. *)

(** ** The compositor *)

(** The canvas before any tile is drawn. *)
Lemma composite_no_tiles env grid (images : gmap string (option Image)) :
  stitch_ctx env = true →
  (∀ coord img, coord ∈ grid_coords grid → images !! key coord ≠ Some (Some img)) →
  composite env grid images =
  Ok (fillRect (setSize (createCanvas 300 150 true)
                  (Grid.x grid * TILE_SIZE) (Grid.y grid * TILE_SIZE))
        (Grid.x grid * TILE_SIZE) (Grid.y grid * TILE_SIZE) black).
Proof.
  intros Hctx Habsent. unfold composite. rewrite Hctx. simpl. f_equal.
  induction (grid_coords grid) as [| coord l IH]; simpl; [done |].
  destruct (images !! key coord) as [[img |] |] eqn:Hk.
  - by destruct (Habsent coord img); [left |].
  - apply IH. intros ? ? ?. apply Habsent. by right.
  - apply IH. intros ? ? ?. apply Habsent. by right.
Qed.

Lemma composite_ok env grid (images : gmap string (option Image)) :
  stitch_ctx env = true →
  ∃ canvas, composite env grid images = Ok canvas
    ∧ width canvas = Grid.x grid * TILE_SIZE
    ∧ height canvas = Grid.y grid * TILE_SIZE.
Proof.
  intros Hctx. unfold composite. rewrite Hctx. simpl.
  eexists. split; [done |].
  induction (grid_coords grid) as [| coord l IH] using rev_ind; simpl; [done |].
  rewrite fold_left_app. simpl. by destruct (images !! key coord) as [[] |].
Qed.

Lemma composite_no_context env grid (images : gmap string (option Image)) :
  stitch_ctx env = false → composite env grid images = Throw NoCanvasContext.
Proof. intros Hctx. unfold composite. by rewrite Hctx. Qed.

(** C8: for a grid with at least one column and one row, compositing a
    tile set without any image yields a canvas of [columns * 512] by
    [rows * 512] pixels that are all black, and [cropBlackEdges] returns
    that canvas itself, without throwing. *)
Theorem composite_all_absent env grid (images : gmap string (option Image)) cctx :
  0 < Grid.x grid → 0 < Grid.y grid →
  stitch_ctx env = true →
  (∀ coord img, coord ∈ grid_coords grid → images !! key coord ≠ Some (Some img)) →
  ∃ canvas, composite env grid images = Ok canvas
    ∧ width canvas = Grid.x grid * 512
    ∧ height canvas = Grid.y grid * 512
    ∧ (∀ px py, 0 ≤ px < width canvas → 0 ≤ py < height canvas →
         pixel_at canvas px py = black)
    ∧ cropBlackEdges cctx canvas = Ok canvas.
Proof.
  intros Hx Hy Hctx Habsent. rewrite composite_no_tiles by done.
  eexists. split; [done |]. unfold TILE_SIZE. simpl.
  assert (∀ px py,
    pixel_at (fillRect (setSize (createCanvas 300 150 true)
                          (Grid.x grid * 512) (Grid.y grid * 512))
                (Grid.x grid * 512) (Grid.y grid * 512) black) px py
    = if inside (Grid.x grid * 512) (Grid.y grid * 512) px py
      then black else transparent) as Hpix.
  { intros px py. unfold pixel_at. simpl. by destruct (inside _ _ px py). }
  split_and!; [done | done | |].
  - intros px py Hpx Hpy. rewrite Hpix. unfold inside.
    repeat match goal with |- context [?a <=? ?b] =>
      destruct (Z.leb_spec a b); [| lia] end.
    repeat match goal with |- context [?a <? ?b] =>
      destruct (Z.ltb_spec a b); [| lia] end.
    done.
  - apply cropBlackEdges_dark; simpl; [| lia | lia].
    intros px py. rewrite Hpix. by destruct (inside _ _ px py).
Qed.

Lemma composite_all_absent_witness :
  ∃ canvas, composite offline zoom3 ∅ = Ok canvas
    ∧ width canvas = 8 * 512
    ∧ height canvas = 4 * 512
    ∧ (∀ px py, 0 ≤ px < width canvas → 0 ≤ py < height canvas →
         pixel_at canvas px py = black)
    ∧ cropBlackEdges true canvas = Ok canvas.
Proof.
  apply (composite_all_absent offline zoom3 ∅ true);
    [simpl; lia | simpl; lia | reflexivity | intros; by rewrite lookup_empty].
Defined.

(** ** The resolution catalog, continued *)

(** C9: the catalog lists exactly zoom 3 with 8 x 4 tiles (4096 x 2048
    pixels) and zoom 4 with 16 x 8 tiles (8192 x 4096 pixels), the tile size
    is 512, and every entry has [tileCount = columns * rows]. *)
Theorem catalog_entries :
  TILE_SIZE = 512
  ∧ GRID_SIZES = [ {| Grid.zoom := 3; Grid.x := 8; Grid.y := 4 |};
                   {| Grid.zoom := 4; Grid.x := 16; Grid.y := 8 |} ]
  ∧ getAvailableResolutions =
    [ {| res_zoom := 3; res_width := 4096; res_height := 2048;
         res_label := "High"; res_tileCount := 32 |};
      {| res_zoom := 4; res_width := 8192; res_height := 4096;
         res_label := "Maximum"; res_tileCount := 128 |} ]
  ∧ Forall2 (λ grid r,
       res_zoom r = Grid.zoom grid
       ∧ res_width r = Grid.x grid * 512
       ∧ res_height r = Grid.y grid * 512
       ∧ res_tileCount r = Grid.x grid * Grid.y grid)
      GRID_SIZES getAvailableResolutions.
Proof.
  split_and!; [reflexivity.. |].
  repeat constructor.
Qed.

(** ** The stitch job *)

Lemma find_grid grid :
  grid ∈ GRID_SIZES →
  List.find (λ g, Grid.zoom g =? Grid.zoom grid) GRID_SIZES = Some grid.
Proof.
  unfold GRID_SIZES. intros Hin.
  apply elem_of_cons in Hin as [-> | Hin]; [done |].
  apply elem_of_cons in Hin as [-> | Hin]; [done |].
  by apply not_elem_of_nil in Hin.
Qed.

Lemma find_no_grid zoom :
  zoom ∉ Grid.zoom <$> GRID_SIZES →
  List.find (λ g, Grid.zoom g =? zoom) GRID_SIZES = None.
Proof.
  induction GRID_SIZES as [| g l IH]; [done |].
  rewrite fmap_cons, not_elem_of_cons. intros [Hne Hnotin]. simpl.
  destruct (Z.eqb_spec (Grid.zoom g) zoom) as [Heq |]; [done |]. by apply IH.
Qed.

(** C3: for a zoom level that is not in the catalog, the job throws the
    invalid zoom error at once: no fetch is started, [onProgress] is not
    called and there is no output. *)
Theorem stitch_invalid_zoom env sched panoId zoom :
  zoom ∉ Grid.zoom <$> GRID_SIZES →
  stitchStreetViewImage env sched panoId zoom = ([], Throw (InvalidZoom zoom)).
Proof.
  intros Hzoom. unfold stitchStreetViewImage. by rewrite find_no_grid.
Qed.

Lemma stitch_invalid_zoom_witness :
  stitchStreetViewImage offline [] "pano" 99 = ([], Throw (InvalidZoom 99)).
Proof.
  apply stitch_invalid_zoom. apply (bool_decide_unpack _). reflexivity.
Defined.

(** *** Updating one worker *)

Lemma workers_split (ws : list Worker) i w w' :
  ws !! i = Some w →
  ws = take i ws ++ w :: drop (S i) ws
  ∧ <[i := w']> ws = take i ws ++ w' :: drop (S i) ws.
Proof.
  intros Hi. split.
  - by rewrite take_drop_middle.
  - apply insert_take_drop. by eapply lookup_lt_Some.
Qed.

Lemma awaiting_app ws1 ws2 : awaiting (ws1 ++ ws2) = awaiting ws1 ++ awaiting ws2.
Proof. apply omap_app. Qed.

Lemma steps_left_app ws1 ws2 :
  sum_list_with worker_steps (ws1 ++ ws2)
  = (sum_list_with worker_steps ws1 + sum_list_with worker_steps ws2)%nat.
Proof. apply sum_list_with_app. Qed.

Lemma progress_events_app evs1 evs2 :
  progress_events (evs1 ++ evs2) = progress_events evs1 ++ progress_events evs2.
Proof. apply omap_app. Qed.

Lemma progress_upto_succ n total :
  0 ≤ n →
  progress_upto (n + 1) total = progress_upto n total ++ [{| loaded := n + 1; total := total |}].
Proof.
  intros Hn. unfold progress_upto.
  rewrite (seqZ_app 0 (n + 1) 1) by lia. rewrite fmap_app. done.
Qed.

Lemma steps_left_zero ws :
  sum_list_with worker_steps ws = 0%nat → Forall (λ w, w = Finished) ws.
Proof.
  induction ws as [| w ws IH]; simpl; [by constructor |].
  intros Hsum. constructor; [by destruct w | apply IH; lia].
Qed.

(** *** The schedule *)

Lemma next_worker_Some hint ws i :
  next_worker hint ws = Some i → ∃ w, ws !! i = Some w ∧ running w = true.
Proof.
  unfold next_worker.
  assert (fst <$> list_find (λ w, running w = true) ws = Some i →
          ∃ w, ws !! i = Some w ∧ running w = true) as Hfind.
  { destruct (list_find _ ws) as [[j w] |] eqn:Hf; [| done]. simpl. intros [= <-].
    apply list_find_Some in Hf as (? & ? & _). eauto. }
  destruct (ws !! hint) as [w |] eqn:Hw; [| done].
  destruct (running w) eqn:Hrun; [| done]. intros [= <-]. eauto.
Qed.

Lemma next_worker_None hint ws :
  next_worker hint ws = None → Forall (λ w, w = Finished) ws.
Proof.
  unfold next_worker.
  assert (fst <$> list_find (λ w, running w = true) ws = None →
          Forall (λ w, w = Finished) ws) as Hfind.
  { destruct (list_find _ ws) as [[j w] |] eqn:Hf; [done |]. intros _.
    apply list_find_None in Hf. eapply Forall_impl; [done |].
    intros w Hw. simpl in Hw. by destruct w. }
  destruct (ws !! hint) as [w |] eqn:Hw; [| done].
  by destruct (running w).
Qed.

(** A worker that has not returned can always act. *)
Lemma worker_step_running env panoId zoom totalTiles i job w :
  workers job !! i = Some w → running w = true →
  ∃ job', worker_step env panoId zoom totalTiles i job = Some job'.
Proof.
  intros Hw Hrun. unfold worker_step. rewrite Hw.
  destruct w; [destruct (queue job) | |]; by eauto.
Qed.

(** Every action uses up one of the steps left. *)
Lemma worker_step_steps_left env panoId zoom totalTiles i job job' :
  worker_step env panoId zoom totalTiles i job = Some job' →
  steps_left job = S (steps_left job').
Proof.
  unfold worker_step. destruct (workers job !! i) as [w |] eqn:Hw; [| done].
  destruct (workers_split (workers job) i w Finished Hw) as [Hws HF].
  destruct (workers_split (workers job) i w Idle Hw) as [_ HI].
  destruct w as [| coord |]; [destruct (queue job) as [| coord rest] eqn:Hq | |];
    intros [= <-]; unfold steps_left; simpl; rewrite ?Hq.
  - rewrite HF. rewrite Hws at 1. rewrite !steps_left_app. simpl. lia.
  - destruct (workers_split (workers job) i Idle (Awaiting coord) Hw) as [_ ->].
    rewrite Hws at 1. rewrite !steps_left_app. simpl. lia.
  - rewrite HI. rewrite Hws at 1. rewrite !steps_left_app. simpl. lia.
Qed.

(** *** The invariant *)

Lemma finished_insert (ws : list Worker) i w w' :
  ws !! i = Some w → w' ≠ Finished → Finished ∈ <[i := w']> ws → Finished ∈ ws.
Proof.
  intros Hi Hw'. destruct (workers_split ws i w w' Hi) as [Hws ->].
  intros Hin. rewrite Hws. rewrite !elem_of_app, !elem_of_cons in Hin |- *.
  destruct Hin as [? | [? | ?]]; [by left | congruence | by right; right].
Qed.

Lemma insert_nonempty (ws : list Worker) i w : ws ≠ [] → <[i := w]> ws ≠ [].
Proof.
  intros Hne Hnil. apply (f_equal length) in Hnil. rewrite length_insert in Hnil.
  by destruct ws.
Qed.

Lemma job_inv_init env panoId zoom tiles :
  job_inv env panoId zoom tiles
    {| queue := tiles;
       workers := replicate CONCURRENT_DOWNLOADS Idle;
       images := ∅;
       loadedTiles := 0;
       events := [EvProgress {| loaded := 0; total := Z.of_nat (length tiles) |}] |}.
Proof.
  split; cbn -[replicate].
  - exists []. split_and!; [done | done |]. intros coord Hin.
    by apply not_elem_of_nil in Hin.
  - done.
  - intros Hin. apply elem_of_replicate in Hin as [? _]. done.
  - done.
Qed.

(** Every action of a worker preserves the invariant. *)
Lemma job_inv_step env panoId zoom tiles job job' :
  NoDup (key <$> tiles) →
  job_inv env panoId zoom tiles job →
  job_step env panoId zoom (Z.of_nat (length tiles)) job job' →
  job_inv env panoId zoom tiles job'.
Proof.
  intros Hkeys [(settled & Hperm & Hloaded & Himg) Hprog Hfin Hne] [i Hstep].
  unfold worker_step in Hstep.
  destruct (workers job !! i) as [w |] eqn:Hw; [| done].
  destruct w as [| coord |]; [destruct (queue job) as [| coord rest] eqn:Hq | |];
    [injection Hstep as <-.. | done].
  - (* the queue is empty: the worker returns *)
    destruct (workers_split (workers job) i Idle Finished Hw) as [Hws HF].
    split; simpl.
    + exists settled. split_and!; [| done | done].
      rewrite HF, Hq. rewrite Hws in Hperm.
      by rewrite awaiting_app in Hperm |- *.
    + done.
    + done.
    + by apply insert_nonempty.
  - (* the worker shifts a coordinate and starts its fetch *)
    destruct (workers_split (workers job) i Idle (Awaiting coord) Hw) as [Hws HA].
    split; simpl.
    + exists settled. split_and!; [| done | done].
      rewrite HA. rewrite Hws in Hperm.
      rewrite awaiting_app in Hperm |- *. simpl in Hperm |- *.
      rewrite <- Hperm. apply Permutation_app_head.
      rewrite <- !(assoc_L (++)). apply Permutation_app_head.
      simpl. by rewrite <- Permutation_middle.
    + rewrite progress_events_app. simpl. by rewrite app_nil_r.
    + intros HFin. apply finished_insert with (w := Idle) in HFin; [| done..].
      by specialize (Hfin HFin).
    + by apply insert_nonempty.
  - (* the fetch settles: the tile is stored and progress reported *)
    destruct (workers_split (workers job) i (Awaiting coord) Idle Hw) as [Hws HI].
    rewrite Hws, awaiting_app in Hperm. simpl in Hperm.
    split; simpl.
    + exists (coord :: settled). split_and!.
      * rewrite HI, awaiting_app. simpl. rewrite <- Hperm.
        rewrite <- !(assoc_L (++)). simpl.
        rewrite <- (Permutation_middle (awaiting (take i (workers job)))).
        by rewrite <- (Permutation_middle settled).
      * rewrite Hloaded. simpl length. lia.
      * intros coord' [-> | Hin]%elem_of_cons; [by rewrite lookup_insert_eq |].
        rewrite lookup_insert_ne; [by apply Himg |].
        intros Hkey. rewrite <- Hperm in Hkeys.
        rewrite fmap_app in Hkeys. apply NoDup_app in Hkeys as (_ & Hdisj & _).
        apply (Hdisj (key coord')); [by apply list_elem_of_fmap_2 |].
        rewrite <- Hkey. apply list_elem_of_fmap_2.
        rewrite !elem_of_app, elem_of_cons. naive_solver.
    + rewrite progress_events_app, Hprog. simpl.
      rewrite progress_upto_succ by lia. done.
    + intros HFin. apply finished_insert with (w := Awaiting coord) in HFin; [| done..].
      by apply Hfin.
    + by apply insert_nonempty.
Qed.

Lemma job_inv_steps env panoId zoom tiles job job' :
  NoDup (key <$> tiles) →
  job_inv env panoId zoom tiles job →
  rtc (job_step env panoId zoom (Z.of_nat (length tiles))) job job' →
  job_inv env panoId zoom tiles job'.
Proof.
  intros Hkeys Hinv Hsteps. induction Hsteps as [| j1 j2 j3 Hstep _ IH]; [done |].
  apply IH. by eapply job_inv_step.
Qed.

(** *** Running the workers *)

(** [run_workers] performs actions of workers. *)
Lemma run_workers_steps env panoId zoom totalTiles fuel sched job :
  rtc (job_step env panoId zoom totalTiles) job
      (run_workers env panoId zoom totalTiles fuel sched job).
Proof.
  revert sched job. induction fuel as [| fuel IH]; intros sched job; simpl; [done |].
  destruct (next_worker (hd 0%nat sched) (workers job)) as [i |]; [| done].
  destruct (worker_step env panoId zoom totalTiles i job) as [job' |] eqn:Hstep;
    [| done].
  eapply rtc_l; [by exists i | apply IH].
Qed.

(** With the steps left as fuel, [run_workers] stops only when every worker
    has returned. *)
Lemma run_workers_finished env panoId zoom totalTiles fuel sched job :
  (steps_left job ≤ fuel)%nat →
  Forall (λ w, w = Finished)
    (workers (run_workers env panoId zoom totalTiles fuel sched job)).
Proof.
  revert sched job. induction fuel as [| fuel IH]; intros sched job Hfuel; simpl.
  - apply steps_left_zero. unfold steps_left in Hfuel. lia.
  - destruct (next_worker (hd 0%nat sched) (workers job)) as [i |] eqn:Hnext;
      [| by eapply next_worker_None].
    apply next_worker_Some in Hnext as (w & Hw & Hrun).
    destruct (worker_step_running env panoId zoom totalTiles i job w Hw Hrun)
      as [job' Hstep].
    rewrite Hstep. apply IH.
    apply worker_step_steps_left in Hstep. lia.
Qed.

Lemma next_worker_hint hint ws w :
  ws !! hint = Some w → running w = true → next_worker hint ws = Some hint.
Proof. intros Hw Hrun. unfold next_worker. by rewrite Hw, Hrun. Qed.

Lemma next_worker_finished hint ws :
  Forall (λ w, w = Finished) ws → next_worker hint ws = None.
Proof.
  intros Hall. unfold next_worker.
  assert (list_find (λ w, running w = true) ws = None) as ->.
  { apply list_find_None. eapply Forall_impl; [done |]. by intros w ->. }
  destruct (ws !! hint) as [w |] eqn:Hw; [| done].
  eapply Forall_lookup_1 in Hall; [| done]. by rewrite Hall.
Qed.

(** Every interleaving of the workers that ends with all of them returned
    is the run of some schedule. *)
Lemma run_workers_complete env panoId zoom totalTiles job job' :
  rtc (job_step env panoId zoom totalTiles) job job' →
  Forall (λ w, w = Finished) (workers job') →
  ∃ sched, run_workers env panoId zoom totalTiles (steps_left job) sched job = job'.
Proof.
  intros Hsteps Hall. induction Hsteps as [job | job1 job2 job3 [i Hstep] _ IH].
  - exists []. destruct (steps_left job); simpl; [done |].
    by rewrite next_worker_finished.
  - destruct (IH Hall) as [sched Hrun]. exists (i :: sched).
    rewrite (worker_step_steps_left _ _ _ _ _ _ _ Hstep). simpl.
    assert (∃ w, workers job1 !! i = Some w ∧ running w = true) as (w & Hw & Hrunning).
    { unfold worker_step in Hstep.
      destruct (workers job1 !! i) as [[] |]; [by eauto.. | done | done]. }
    by rewrite (next_worker_hint _ _ _ Hw Hrunning), Hstep.
Qed.

(** When every worker has returned, every tile is settled. *)
Lemma job_inv_finished env panoId zoom tiles job :
  job_inv env panoId zoom tiles job →
  Forall (λ w, w = Finished) (workers job) →
  loadedTiles job = Z.of_nat (length tiles)
  ∧ ∀ coord, coord ∈ tiles →
      images job !! key coord = Some (tile_entry env panoId zoom coord).
Proof.
  intros [(settled & Hperm & Hloaded & Himg) _ Hfin Hne] Hall.
  assert (awaiting (workers job) = []) as Hawait.
  { clear -Hall. induction Hall as [| w ws -> _ IH]; [done |]. done. }
  assert (queue job = []) as Hq.
  { apply Hfin. destruct (workers job) as [| w ws]; [done |].
    apply Forall_cons in Hall as [-> _]. left. }
  rewrite Hawait, Hq, !app_nil_r in Hperm. split.
  - by rewrite Hloaded, Hperm.
  - intros coord Hin. apply Himg. by rewrite Hperm.
Qed.

(** *** The two grids of the catalog *)

Lemma grid_keys_NoDup grid : grid ∈ GRID_SIZES → NoDup (key <$> grid_coords grid).
Proof.
  unfold GRID_SIZES. intros Hin.
  apply elem_of_cons in Hin as [-> | Hin];
    [apply (bool_decide_unpack _); by vm_compute |].
  apply elem_of_cons in Hin as [-> | Hin];
    [apply (bool_decide_unpack _); by vm_compute |].
  by apply not_elem_of_nil in Hin.
Qed.

Lemma length_grid_coords grid :
  0 ≤ Grid.x grid → 0 ≤ Grid.y grid →
  Z.of_nat (length (grid_coords grid)) = Grid.x grid * Grid.y grid.
Proof.
  intros Hx Hy. unfold grid_coords.
  rewrite <- (Z2Nat.id (Grid.y grid)) at 2 by done.
  rewrite <- (length_seqZ 0 (Grid.y grid)).
  induction (seqZ 0 (Grid.y grid)) as [| j l IH]; simpl; [lia |].
  rewrite length_app, length_fmap, length_seqZ. lia.
Qed.

Lemma grid_positive grid : grid ∈ GRID_SIZES → 0 < Grid.x grid ∧ 0 < Grid.y grid.
Proof.
  unfold GRID_SIZES. intros Hin.
  apply elem_of_cons in Hin as [-> | Hin]; [simpl; lia |].
  apply elem_of_cons in Hin as [-> | Hin]; [simpl; lia |].
  by apply not_elem_of_nil in Hin.
Qed.

(** *** The job at the join of the workers *)

Lemma downloadTiles_joined env sched panoId zoom grid :
  NoDup (key <$> grid_coords grid) →
  let job := downloadTiles env sched panoId zoom grid in
  let totalTiles := Z.of_nat (length (grid_coords grid)) in
  Forall (λ w, w = Finished) (workers job)
  ∧ loadedTiles job = totalTiles
  ∧ progress_events (events job) = progress_upto totalTiles totalTiles
  ∧ ∀ coord, coord ∈ grid_coords grid →
      images job !! key coord = Some (tile_entry env panoId zoom coord).
Proof.
  intros Hkeys job totalTiles.
  assert (Forall (λ w, w = Finished) (workers job)) as Hall.
  { by apply run_workers_finished. }
  assert (job_inv env panoId zoom (grid_coords grid) job) as Hinv.
  { eapply job_inv_steps; [done | apply job_inv_init | apply run_workers_steps]. }
  destruct (job_inv_finished _ _ _ _ _ Hinv Hall) as [Hloaded Himg].
  split_and!; [done | done | | done].
  rewrite (inv_progress _ _ _ _ _ Hinv). by rewrite Hloaded.
Qed.

(** *** The pipeline after the join *)

Lemma stitch_at_grid env sched panoId grid :
  grid ∈ GRID_SIZES →
  stitchStreetViewImage env sched panoId (Grid.zoom grid) =
  let job := downloadTiles env sched panoId (Grid.zoom grid) grid in
  (events job,
   canvas <- composite env grid (images job) ;;
   croppedCanvas <- cropBlackEdges (crop_ctx env) canvas ;;
   removeHorizontalWrap (wrap_ctx env) croppedCanvas).
Proof. intros Hin. unfold stitchStreetViewImage. by rewrite find_grid. Qed.

(** The job succeeds exactly when the compositor obtains its context. *)
Lemma stitch_result env sched panoId grid :
  grid ∈ GRID_SIZES →
  let result := (stitchStreetViewImage env sched panoId (Grid.zoom grid)).2 in
  (stitch_ctx env = true → ∃ canvas, result = Ok canvas)
  ∧ (stitch_ctx env = false → result = Throw NoCanvasContext).
Proof.
  intros Hin. rewrite stitch_at_grid by done. cbn zeta. cbn [snd].
  destruct (grid_positive grid Hin) as [Hx Hy]. split; intros Hctx.
  - destruct (composite_ok env grid
                (images (downloadTiles env sched panoId (Grid.zoom grid) grid)) Hctx)
      as (canvas & -> & Hw & Hh). cbn [bind].
    destruct (cropBlackEdges_cases (crop_ctx env) canvas) as (cropped & -> & _);
      [unfold TILE_SIZE in *; lia.. |]. cbn [bind].
    destruct (removeHorizontalWrap_cases (wrap_ctx env) cropped) as (out & -> & _).
    eauto.
  - by rewrite composite_no_context.
Qed.

Lemma cropBlackEdges_no_context c :
  0 < width c → 0 < height c → cropBlackEdges false c = Ok c.
Proof.
  intros Hw Hh. unfold cropBlackEdges. destruct (ctx2d c); simpl; [| done].
  destruct (scan_up_bounds (isRowBlack c 25) (Z.to_nat (height c)) 0 (height c - 1))
    as (top & -> & _); [intros; apply isRowBlack_ok; lia |]. simpl.
  destruct (scan_down_bounds (isRowBlack c 25) (Z.to_nat (height c)) (height c - 1) top)
    as (bottom & -> & _); [intros; apply isRowBlack_ok; lia |]. simpl.
  destruct (scan_up_bounds (isColBlack c 25) (Z.to_nat (width c)) 0 (width c - 1))
    as (left & -> & _); [intros; apply isColBlack_ok; lia |]. simpl.
  destruct (scan_down_bounds (isColBlack c 25) (Z.to_nat (width c)) (width c - 1) left)
    as (right & -> & _); [intros; apply isColBlack_ok; lia |]. simpl.
  by repeat destruct (_ : bool).
Qed.

Lemma removeHorizontalWrap_no_context c : removeHorizontalWrap false c = Ok c.
Proof.
  unfold removeHorizontalWrap. destruct (ctx2d c); simpl; [| done].
  destruct (Z.leb_spec (floor_40pct (height c)) 0) as [| Hscan]; simpl; [done |].
  destruct (Z.ltb_spec (width c) 512) as [| Hwidth]; simpl; [done |].
  unfold getImageData. change (W =? 0) with false.
  destruct (Z.eqb_spec (floor_40pct (height c)) 0); [lia |]. simpl.
  destruct (Z.leb_spec (width c - floor_25pct (width c)) W) as [| Hsearch]; [done |].
  destruct (Z.eqb_spec (width c - floor_25pct (width c)) 0);
    [unfold W in Hsearch; lia |]. simpl.
  destruct (wrap_search _ _ _ _ _ _ _ _) as [bestMatchX minDiff].
  by destruct (negb (bestMatchX =? -1) && js_lt minDiff (Num 15)).
Qed.

(** *** The progress reports *)

Lemma lookup_progress_upto n total i :
  (Z.of_nat i ≤ n) →
  progress_upto n total !! i = Some {| loaded := Z.of_nat i; total := total |}.
Proof.
  intros Hi. unfold progress_upto. rewrite list_lookup_fmap.
  rewrite lookup_seqZ_lt by lia. simpl. by rewrite Z.add_0_l.
Qed.

Lemma length_progress_upto n total :
  0 ≤ n → length (progress_upto n total) = S (Z.to_nat n).
Proof. intros Hn. unfold progress_upto. rewrite length_fmap, length_seqZ. lia. Qed.

Lemma lookup_progress_upto_inv n total i p :
  progress_upto n total !! i = Some p →
  p = {| loaded := Z.of_nat i; total := total |} ∧ Z.of_nat i ≤ n.
Proof.
  unfold progress_upto. rewrite list_lookup_fmap. intros Hp.
  destruct (seqZ 0 (n + 1) !! i) as [k |] eqn:Hk; [| done].
  apply lookup_seqZ in Hk as [-> Hi]. injection Hp as <-.
  split; [f_equal; lia | lia].
Qed.

(** The fuel of [load_loop] is enough: more fuel changes nothing. *)
Lemma load_loop_fuel outcome url retries fuel attempts :
  (retries ≤ fuel + attempts)%nat →
  load_loop outcome url retries (S fuel) attempts
  = load_loop outcome url retries fuel attempts.
Proof.
  revert attempts. induction fuel as [| fuel IH]; intros attempts Hfuel.
  - simpl. destruct (outcome attempts); [done |].
    destruct (Nat.ltb_spec (S attempts) retries); [lia | done].
  - cbn [load_loop]. destruct (outcome attempts); [done |].
    destruct (Nat.ltb_spec (S attempts) retries); [| done].
    apply IH. lia.
Qed.

(** With two attempts, a fetch is rejected exactly when both loads fail. *)
Lemma fetchTileWithRetry_rejected env url e :
  fetchTileWithRetry env url 2 = Throw e ↔
  load env url 0%nat = None ∧ load env url 1%nat = None ∧ e = TileLoadFailed url.
Proof.
  unfold fetchTileWithRetry. simpl.
  destruct (load env url 0%nat); [by split; [| intros (? & _)] |].
  destruct (load env url 1%nat); [by split; [| intros (_ & ? & _)] |].
  split; [by intros [= <-] | by intros (_ & _ & ->)].
Qed.

Lemma tile_entry_rejected env panoId zoom coord e :
  fetchTileWithRetry env (tileUrl panoId coord zoom) 2 = Throw e →
  tile_entry env panoId zoom coord = None.
Proof. intros Hfetch. unfold tile_entry. by rewrite Hfetch. Qed.

(** *** The claims about the job *)

(** C1: on a zoom level of the catalog, whatever the order in which the
    fetches settle, [onProgress] receives [{loaded: 0, total}] with
    [total = columns * rows] first and then one report per tile with
    [loaded] one higher each time, never above [total], the last being
    [{loaded: total, total}]; and a worker whose fetch has settled, with
    whatever outcome, reports progress in the same action. *)
Theorem stitch_progress env sched panoId grid :
  grid ∈ GRID_SIZES →
  let count := Grid.x grid * Grid.y grid in
  let reported :=
    progress_events (stitchStreetViewImage env sched panoId (Grid.zoom grid)).1 in
  reported = progress_upto count count
  ∧ head reported = Some {| loaded := 0; total := count |}
  ∧ length reported = S (Z.to_nat count)
  ∧ (∀ i p, reported !! i = Some p → 0 ≤ loaded p ≤ count ∧ total p = count)
  ∧ (∀ i j p q, (i ≤ j)%nat → reported !! i = Some p → reported !! j = Some q →
       loaded p ≤ loaded q)
  ∧ last reported = Some {| loaded := count; total := count |}
  ∧ (∀ job i coord,
       workers job !! i = Some (Awaiting coord) →
       ∃ job', worker_step env panoId (Grid.zoom grid) count i job = Some job'
         ∧ events job' =
           events job ++ [EvProgress {| loaded := loadedTiles job + 1; total := count |}]).
Proof.
  intros Hin count reported.
  destruct (grid_positive grid Hin) as [Hx Hy].
  assert (0 ≤ count) as Hcount by (unfold count; nia).
  assert (reported = progress_upto count count) as Hreported.
  { unfold reported. rewrite stitch_at_grid by done. cbn zeta. cbn [fst].
    destruct (downloadTiles_joined env sched panoId (Grid.zoom grid) grid
                (grid_keys_NoDup grid Hin)) as (_ & _ & -> & _).
    by rewrite length_grid_coords by lia. }
  rewrite Hreported. split_and!.
  - done.
  - rewrite head_lookup. by rewrite lookup_progress_upto by lia.
  - by apply length_progress_upto.
  - intros i p [-> Hi]%lookup_progress_upto_inv. simpl. lia.
  - intros i j p q Hij [-> _]%lookup_progress_upto_inv [-> _]%lookup_progress_upto_inv.
    simpl. lia.
  - rewrite last_lookup, length_progress_upto by done. simpl.
    rewrite lookup_progress_upto by lia. do 2 f_equal. lia.
  - intros job i coord Hw. unfold worker_step. rewrite Hw. eauto.
Qed.

Lemma stitch_progress_witness :
  let count := 8 * 4 in
  let reported := progress_events (stitchStreetViewImage offline [] "pano" 3).1 in
  reported = progress_upto count count
  ∧ head reported = Some {| loaded := 0; total := count |}
  ∧ length reported = S (Z.to_nat count)
  ∧ (∀ i p, reported !! i = Some p → 0 ≤ loaded p ≤ count ∧ total p = count)
  ∧ (∀ i j p q, (i ≤ j)%nat → reported !! i = Some p → reported !! j = Some q →
       loaded p ≤ loaded q)
  ∧ last reported = Some {| loaded := count; total := count |}
  ∧ (∀ job i coord,
       workers job !! i = Some (Awaiting coord) →
       ∃ job', worker_step offline "pano" 3 count i job = Some job'
         ∧ events job' =
           events job ++ [EvProgress {| loaded := loadedTiles job + 1; total := count |}]).
Proof.
  apply (stitch_progress offline [] "pano" zoom3).
  apply (bool_decide_unpack _). reflexivity.
Defined.

(** C2: on a zoom level of the catalog, every tile whose fetch is rejected
    is stored as [null] under its coordinate; every worker returns and all
    tiles are counted; the job yields a canvas whenever the compositor
    obtains its context; and the job never throws the error of a fetch,
    whichever tiles fail. *)
Theorem stitch_absorbs_tile_failures env sched panoId grid :
  grid ∈ GRID_SIZES →
  let job := downloadTiles env sched panoId (Grid.zoom grid) grid in
  let result := (stitchStreetViewImage env sched panoId (Grid.zoom grid)).2 in
  (∀ coord e, coord ∈ grid_coords grid →
     fetchTileWithRetry env (tileUrl panoId coord (Grid.zoom grid)) 2 = Throw e →
     images job !! key coord = Some None)
  ∧ Forall (λ w, w = Finished) (workers job)
  ∧ loadedTiles job = Grid.x grid * Grid.y grid
  ∧ (stitch_ctx env = true → ∃ canvas, result = Ok canvas)
  ∧ (∀ url, result ≠ Throw (TileLoadFailed url)).
Proof.
  intros Hin job result.
  destruct (grid_positive grid Hin) as [Hx Hy].
  destruct (downloadTiles_joined env sched panoId (Grid.zoom grid) grid
              (grid_keys_NoDup grid Hin)) as (Hall & Hloaded & _ & Himg).
  destruct (stitch_result env sched panoId grid Hin) as [Hok Hthrow].
  split_and!.
  - intros coord e Hcoord Hfetch. unfold job. rewrite Himg by done.
    f_equal. by eapply tile_entry_rejected.
  - done.
  - unfold job. rewrite Hloaded. apply length_grid_coords; lia.
  - done.
  - intros url Hurl. unfold result in Hurl. destruct (stitch_ctx env).
    + destruct Hok as [canvas Hcanvas]; [done |]. congruence.
    + rewrite Hthrow in Hurl by done. discriminate Hurl.
Qed.

Lemma stitch_absorbs_tile_failures_witness :
  let job := downloadTiles offline [] "pano" 3 zoom3 in
  let result := (stitchStreetViewImage offline [] "pano" 3).2 in
  (∀ coord e, coord ∈ grid_coords zoom3 →
     fetchTileWithRetry offline (tileUrl "pano" coord 3) 2 = Throw e →
     images job !! key coord = Some None)
  ∧ Forall (λ w, w = Finished) (workers job)
  ∧ loadedTiles job = 8 * 4
  ∧ (stitch_ctx offline = true → ∃ canvas, result = Ok canvas)
  ∧ (∀ url, result ≠ Throw (TileLoadFailed url)).
Proof.
  apply (stitch_absorbs_tile_failures offline [] "pano" zoom3).
  apply (bool_decide_unpack _). reflexivity.
Defined.

(** C7, as stated, fails: in [no_scratch_context] the classifier never
    obtains a context (it then reports every tile as not black) and neither
    do the canvases of the cropped copies, yet the job yields a canvas. *)
Lemma stitch_survives_missing_contexts :
  (∀ coord, tile_ctx no_scratch_context coord = false)
  ∧ (∀ coord, tile_entry no_scratch_context "pano" 3 coord = Some black_image)
  ∧ crop_ctx no_scratch_context = false
  ∧ wrap_ctx no_scratch_context = false
  ∧ ∃ canvas, (stitchStreetViewImage no_scratch_context [] "pano" 3).2 = Ok canvas.
Proof.
  split_and!; [done | done | done | done |].
  apply (stitch_result no_scratch_context [] "pano" zoom3); [| done].
  apply (bool_decide_unpack _). reflexivity.
Qed.

(** C7, amended: on a zoom level of the catalog the job throws the canvas
    context error exactly when the compositor cannot obtain its context;
    a classifier without a context reports the tile as not black, and the
    cropper and the wrap remover without a context, for the canvas they
    read or for the copy they would draw, return their input canvas. *)
Theorem stitch_context_failures env sched panoId grid :
  grid ∈ GRID_SIZES →
  let result := (stitchStreetViewImage env sched panoId (Grid.zoom grid)).2 in
  (stitch_ctx env = false → result = Throw NoCanvasContext)
  ∧ (stitch_ctx env = true → ∃ canvas, result = Ok canvas)
  ∧ (∀ img, isTileBlack false img = Ok false)
  ∧ (∀ cctx c, ctx2d c = false →
       cropBlackEdges cctx c = Ok c ∧ removeHorizontalWrap cctx c = Ok c)
  ∧ (∀ c, 0 < width c → 0 < height c → cropBlackEdges false c = Ok c)
  ∧ (∀ c, removeHorizontalWrap false c = Ok c).
Proof.
  intros Hin result.
  destruct (stitch_result env sched panoId grid Hin) as [Hok Hthrow].
  split_and!; [done | done | done | | |].
  - intros cctx c Hctx. unfold cropBlackEdges, removeHorizontalWrap.
    by rewrite Hctx.
  - apply cropBlackEdges_no_context.
  - apply removeHorizontalWrap_no_context.
Qed.

Lemma stitch_context_failures_witness :
  let result := (stitchStreetViewImage no_scratch_context [] "pano" 3).2 in
  (stitch_ctx no_scratch_context = false → result = Throw NoCanvasContext)
  ∧ (stitch_ctx no_scratch_context = true → ∃ canvas, result = Ok canvas)
  ∧ (∀ img, isTileBlack false img = Ok false)
  ∧ (∀ cctx c, ctx2d c = false →
       cropBlackEdges cctx c = Ok c ∧ removeHorizontalWrap cctx c = Ok c)
  ∧ (∀ c, 0 < width c → 0 < height c → cropBlackEdges false c = Ok c)
  ∧ (∀ c, removeHorizontalWrap false c = Ok c).
Proof.
  apply (stitch_context_failures no_scratch_context [] "pano" zoom3).
  apply (bool_decide_unpack _). reflexivity.
Defined.

(** * Further properties *)

(** ** The worker pool *)

Lemma fetch_events_app evs1 evs2 :
  fetch_events (evs1 ++ evs2) = fetch_events evs1 ++ fetch_events evs2.
Proof. apply omap_app. Qed.

Lemma downloadTiles_initial env sched panoId zoom grid :
  downloadTiles env sched panoId zoom grid
  = run_workers env panoId zoom (Z.of_nat (length (grid_coords grid)))
      (steps_left (initial_job (grid_coords grid))) sched
      (initial_job (grid_coords grid)).
Proof. reflexivity. Qed.

Lemma reachable_inv env panoId zoom tiles job :
  NoDup (key <$> tiles) →
  reachable env panoId zoom tiles job → job_inv env panoId zoom tiles job.
Proof.
  intros Hkeys Hreach. eapply job_inv_steps; [done | apply job_inv_init | done].
Qed.

Lemma pool_inv_init panoId zoom tiles : pool_inv panoId zoom tiles (initial_job tiles).
Proof.
  split; cbn -[replicate].
  - apply length_replicate.
  - done.
  - intros k [v Hk]. by rewrite lookup_empty in Hk.
Qed.

Lemma awaiting_elem (ws : list Worker) i coord :
  ws !! i = Some (Awaiting coord) → coord ∈ awaiting ws.
Proof.
  intros Hi. unfold awaiting. apply list_elem_of_omap.
  exists (Awaiting coord). split; [by eapply list_elem_of_lookup_2 | done].
Qed.

Lemma pool_inv_step env panoId zoom tiles job job' :
  job_inv env panoId zoom tiles job →
  pool_inv panoId zoom tiles job →
  job_step env panoId zoom (Z.of_nat (length tiles)) job job' →
  pool_inv panoId zoom tiles job'.
Proof.
  intros [(settled & Hperm & _) _ _ _] [Hsize Hfetch Hkeys] [i Hstep].
  unfold worker_step in Hstep.
  destruct (workers job !! i) as [w |] eqn:Hw; [| done].
  destruct w as [| coord |]; [destruct (queue job) as [| coord rest] eqn:Hq | |];
    [injection Hstep as <-.. | done].
  - split; simpl; [by rewrite length_insert | by rewrite Hq | done].
  - split; simpl; [by rewrite length_insert | | done].
    rewrite fetch_events_app. simpl. by rewrite <- (assoc_L (++)).
  - split; simpl; [by rewrite length_insert | | ].
    + rewrite fetch_events_app. simpl. by rewrite app_nil_r.
    + intros k [v Hk]. destruct (decide (k = key coord)) as [-> | Hne].
      * apply list_elem_of_fmap_2. rewrite <- Hperm.
        apply elem_of_app. right. apply elem_of_app. left.
        by eapply awaiting_elem.
      * rewrite lookup_insert_ne in Hk by done. apply Hkeys. by exists v.
Qed.

Lemma reachable_pool_inv env panoId zoom tiles job :
  NoDup (key <$> tiles) →
  reachable env panoId zoom tiles job → pool_inv panoId zoom tiles job.
Proof.
  intros Hkeys Hreach.
  assert (job_inv env panoId zoom tiles job ∧ pool_inv panoId zoom tiles job) as [_ ?];
    [| done].
  unfold reachable in Hreach. revert job Hreach. apply rtc_ind_r.
  - split; [apply job_inv_init | apply pool_inv_init].
  - intros mid job Hmid Hstep [Hinv Hpool].
    split; [by eapply job_inv_step | by eapply pool_inv_step].
Qed.

Lemma downloadTiles_reachable env sched panoId zoom grid :
  reachable env panoId zoom (grid_coords grid)
    (downloadTiles env sched panoId zoom grid).
Proof. rewrite downloadTiles_initial. apply run_workers_steps. Qed.

Lemma length_awaiting ws : (length (awaiting ws) ≤ length ws)%nat.
Proof.
  induction ws as [| w ws IH]; simpl; [done |].
  destruct w; simpl; lia.
Qed.

Lemma finished_queue_empty env panoId zoom tiles job :
  job_inv env panoId zoom tiles job →
  Forall (λ w, w = Finished) (workers job) → queue job = [].
Proof.
  intros [_ _ Hfin Hne] Hall. apply Hfin.
  destruct (workers job) as [| w ws]; [done |].
  apply Forall_cons in Hall as [-> _]. left.
Qed.

(** The images stored at the join do not depend on the schedule. *)
Lemma downloadTiles_images env sched panoId zoom grid k :
  NoDup (key <$> grid_coords grid) →
  images (downloadTiles env sched panoId zoom grid) !! k
  = if decide (k ∈ key <$> grid_coords grid)
    then (λ coord, tile_entry env panoId zoom coord)
           <$> list_find (λ coord, k = key coord) (grid_coords grid) ≫= Some ∘ snd
    else None.
Proof.
  intros Hkeys.
  pose proof (downloadTiles_reachable env sched panoId zoom grid) as Hreach.
  destruct (downloadTiles_joined env sched panoId zoom grid Hkeys) as (_ & _ & _ & Himg).
  destruct (reachable_pool_inv _ _ _ _ _ Hkeys Hreach) as [_ _ Hk].
  destruct (decide (k ∈ key <$> grid_coords grid)) as [Hin | Hnotin].
  - apply list_elem_of_fmap in Hin as (coord & -> & Hcoord).
    destruct (list_find (λ c, key coord = key c) (grid_coords grid))
      as [[i coord'] |] eqn:Hfind.
    + apply list_find_Some in Hfind as (Hi & Heq & _). simpl.
      apply list_elem_of_lookup_2 in Hi. rewrite Heq. by rewrite Himg.
    + apply list_find_None in Hfind. rewrite Forall_forall in Hfind.
      by destruct (Hfind coord Hcoord).
  - destruct (images _ !! k) eqn:Hlookup; [| done].
    destruct Hnotin. apply Hk. eauto.
Qed.

(** X1: whatever the order in which the fetches settle, the job starts
    exactly one fetch per tile of the grid, in row-major order. *)
Theorem stitch_fetches_each_tile_once env sched panoId grid :
  grid ∈ GRID_SIZES →
  fetch_events (stitchStreetViewImage env sched panoId (Grid.zoom grid)).1
  = (λ coord, tileUrl panoId coord (Grid.zoom grid)) <$> grid_coords grid
  ∧ NoDup (grid_coords grid).
Proof.
  intros Hin. pose proof (grid_keys_NoDup grid Hin) as Hkeys.
  split; [| by eapply NoDup_fmap_1].
  rewrite stitch_at_grid by done. cbn zeta. cbn [fst].
  pose proof (downloadTiles_reachable env sched panoId (Grid.zoom grid) grid) as Hreach.
  destruct (reachable_pool_inv _ _ _ _ _ Hkeys Hreach) as [_ Hfetch _].
  rewrite (finished_queue_empty env panoId (Grid.zoom grid) (grid_coords grid)) in Hfetch.
  - by rewrite app_nil_r in Hfetch.
  - by apply reachable_inv.
  - by apply (downloadTiles_joined env sched panoId (Grid.zoom grid) grid).
Qed.

Lemma stitch_fetches_each_tile_once_witness :
  fetch_events (stitchStreetViewImage offline [] "pano" 3).1
  = (λ coord, tileUrl "pano" coord 3) <$> grid_coords zoom3
  ∧ NoDup (grid_coords zoom3).
Proof.
  apply (stitch_fetches_each_tile_once offline [] "pano" zoom3).
  apply (bool_decide_unpack _). reflexivity.
Defined.

(** X2: in every state a job passes through, at most
    [CONCURRENT_DOWNLOADS] = 8 fetches are in flight. *)
Theorem pool_bounds_fetches_in_flight env panoId zoom tiles job :
  NoDup (key <$> tiles) →
  reachable env panoId zoom tiles job →
  (length (awaiting (workers job)) ≤ 8)%nat.
Proof.
  intros Hkeys Hreach.
  destruct (reachable_pool_inv _ _ _ _ _ Hkeys Hreach) as [Hsize _ _].
  pose proof (length_awaiting (workers job)) as Hle.
  rewrite Hsize in Hle. done.
Qed.

(** X3: in every state a job passes through, no coordinate is held by two
    workers, and none that a worker holds is still queued. *)
Theorem pool_claims_are_exclusive env panoId zoom tiles job :
  NoDup (key <$> tiles) →
  reachable env panoId zoom tiles job →
  NoDup (awaiting (workers job) ++ queue job).
Proof.
  intros Hkeys Hreach.
  destruct (reachable_inv _ _ _ _ _ Hkeys Hreach) as [(settled & Hperm & _) _ _ _].
  apply NoDup_fmap_1 in Hkeys. rewrite <- Hperm in Hkeys.
  by apply NoDup_app in Hkeys as (_ & _ & ?).
Qed.

(** X4: the outcome of a job does not depend on the order in which the
    fetches settle: the stored tiles, the result, the fetches started and
    the progress reports are the same under any two schedules. *)
Theorem stitch_schedule_independent env sched sched' panoId grid :
  grid ∈ GRID_SIZES →
  images (downloadTiles env sched panoId (Grid.zoom grid) grid)
  = images (downloadTiles env sched' panoId (Grid.zoom grid) grid)
  ∧ (stitchStreetViewImage env sched panoId (Grid.zoom grid)).2
    = (stitchStreetViewImage env sched' panoId (Grid.zoom grid)).2
  ∧ fetch_events (stitchStreetViewImage env sched panoId (Grid.zoom grid)).1
    = fetch_events (stitchStreetViewImage env sched' panoId (Grid.zoom grid)).1
  ∧ progress_events (stitchStreetViewImage env sched panoId (Grid.zoom grid)).1
    = progress_events (stitchStreetViewImage env sched' panoId (Grid.zoom grid)).1.
Proof.
  intros Hin. pose proof (grid_keys_NoDup grid Hin) as Hkeys.
  assert (images (downloadTiles env sched panoId (Grid.zoom grid) grid)
          = images (downloadTiles env sched' panoId (Grid.zoom grid) grid)) as Himg.
  { apply map_eq. intros k. by rewrite !downloadTiles_images. }
  split_and!; [done | | |].
  - rewrite !stitch_at_grid by done. cbn zeta. cbn [snd]. by rewrite Himg.
  - rewrite !stitch_at_grid by done. cbn zeta. cbn [fst].
    pose proof (downloadTiles_reachable env sched panoId (Grid.zoom grid) grid) as H1.
    pose proof (downloadTiles_reachable env sched' panoId (Grid.zoom grid) grid) as H2.
    destruct (reachable_pool_inv _ _ _ _ _ Hkeys H1) as [_ Hf1 _].
    destruct (reachable_pool_inv _ _ _ _ _ Hkeys H2) as [_ Hf2 _].
    rewrite (finished_queue_empty env panoId (Grid.zoom grid) (grid_coords grid))
      in Hf1, Hf2;
      [| by apply reachable_inv
       | by apply (downloadTiles_joined env sched' panoId (Grid.zoom grid) grid)
       | by apply reachable_inv
       | by apply (downloadTiles_joined env sched panoId (Grid.zoom grid) grid)].
    rewrite app_nil_r in Hf1, Hf2. by rewrite Hf1, Hf2.
  - rewrite !stitch_at_grid by done. cbn zeta. cbn [fst].
    destruct (downloadTiles_joined env sched panoId (Grid.zoom grid) grid Hkeys)
      as (_ & _ & -> & _).
    by destruct (downloadTiles_joined env sched' panoId (Grid.zoom grid) grid Hkeys)
      as (_ & _ & -> & _).
Qed.

Example job_in_progress_state :
  awaiting (workers job_in_progress)
  = [ {| Coord.x := 1; Coord.y := 0 |}; {| Coord.x := 2; Coord.y := 0 |};
      {| Coord.x := 3; Coord.y := 0 |} ]
  ∧ loadedTiles job_in_progress = 1
  ∧ length (queue job_in_progress) = 28%nat.
Proof. by vm_compute. Qed.

Lemma job_in_progress_reachable :
  NoDup (key <$> grid_coords zoom3)
  ∧ reachable offline "pano" 3 (grid_coords zoom3) job_in_progress.
Proof.
  split; [apply (bool_decide_unpack _); by vm_compute |].
  apply (run_workers_steps offline "pano" 3 32 5).
Qed.

Lemma pool_bounds_fetches_in_flight_witness :
  (length (awaiting (workers job_in_progress)) ≤ 8)%nat.
Proof.
  apply (pool_bounds_fetches_in_flight offline "pano" 3 (grid_coords zoom3));
    apply job_in_progress_reachable.
Defined.

Lemma pool_claims_are_exclusive_witness :
  NoDup (awaiting (workers job_in_progress) ++ queue job_in_progress).
Proof.
  apply (pool_claims_are_exclusive offline "pano" 3 (grid_coords zoom3));
    apply job_in_progress_reachable.
Defined.

Lemma stitch_schedule_independent_witness :
  images (downloadTiles offline [] "pano" 3 zoom3)
  = images (downloadTiles offline [3; 1; 4; 1; 5]%nat "pano" 3 zoom3)
  ∧ (stitchStreetViewImage offline [] "pano" 3).2
    = (stitchStreetViewImage offline [3; 1; 4; 1; 5]%nat "pano" 3).2
  ∧ fetch_events (stitchStreetViewImage offline [] "pano" 3).1
    = fetch_events (stitchStreetViewImage offline [3; 1; 4; 1; 5]%nat "pano" 3).1
  ∧ progress_events (stitchStreetViewImage offline [] "pano" 3).1
    = progress_events (stitchStreetViewImage offline [3; 1; 4; 1; 5]%nat "pano" 3).1.
Proof.
  apply (stitch_schedule_independent offline [] [3; 1; 4; 1; 5]%nat "pano" zoom3).
  apply (bool_decide_unpack _). reflexivity.
Defined.

(** ** The tile fetcher *)

Lemma load_loop_spec outcome url retries fuel attempts :
  (retries ≤ fuel + attempts)%nat →
  match load_loop outcome url retries fuel attempts with
  | Ok img =>
      ∃ k, (attempts ≤ k < Nat.max (S attempts) retries)%nat
        ∧ outcome k = Some img
        ∧ ∀ j, (attempts ≤ j < k)%nat → outcome j = None
  | Throw e =>
      e = TileLoadFailed url
      ∧ ∀ k, (attempts ≤ k < Nat.max (S attempts) retries)%nat → outcome k = None
  end.
Proof.
  revert attempts. induction fuel as [| fuel IH]; intros attempts Hfuel;
    cbn [load_loop]; destruct (outcome attempts) as [img |] eqn:Hout.
  - exists attempts. split_and!; [lia | lia | done | intros; lia].
  - split; [done |]. intros k Hk. by replace k with attempts by lia.
  - exists attempts. split_and!; [lia | lia | done | intros; lia].
  - destruct (Nat.ltb_spec (S attempts) retries) as [Hlt | Hge].
    + specialize (IH (S attempts) ltac:(lia)).
      destruct (load_loop outcome url retries fuel (S attempts)) as [img | e].
      * destruct IH as (k & Hk & Himg & Hnone). exists k.
        split_and!; [lia | lia | done |]. intros j Hj.
        destruct (decide (j = attempts)) as [-> | ?]; [done | apply Hnone; lia].
      * destruct IH as [-> Hnone]. split; [done |]. intros k Hk.
        destruct (decide (k = attempts)) as [-> | ?]; [done | apply Hnone; lia].
    + split; [done |]. intros k Hk. by replace k with attempts by lia.
Qed.

(** X5: [fetchTileWithRetry] loads the image at most [max(1, retries)]
    times; it resolves with the image of the first load that succeeds, and
    is rejected, with the error naming the URL, exactly when all of these
    loads fail. *)
Theorem fetchTileWithRetry_first_success env url retries :
  match fetchTileWithRetry env url retries with
  | Ok img =>
      ∃ k, (k < Nat.max 1 retries)%nat
        ∧ load env url k = Some img
        ∧ ∀ j, (j < k)%nat → load env url j = None
  | Throw e =>
      e = TileLoadFailed url
      ∧ ∀ k, (k < Nat.max 1 retries)%nat → load env url k = None
  end.
Proof.
  unfold fetchTileWithRetry.
  pose proof (load_loop_spec (load env url) url retries retries 0 ltac:(lia)) as Hspec.
  destruct (load_loop (load env url) url retries retries 0) as [img | e].
  - destruct Hspec as (k & Hk & Himg & Hnone). exists k.
    split_and!; [lia | done | intros; apply Hnone; lia].
  - destruct Hspec as [-> Hnone]. split; [done |]. intros; apply Hnone; lia.
Qed.

(** ** The tile classifier, continued *)

(** X6: on an image with at least one pixel, [isTileBlack] returns [true]
    exactly when fewer than 2% of the sampled pixels (every 16th in
    row-major order) have red, green or blue above 25: up to that share of
    bright samples is tolerated as noise. *)
Theorem isTileBlack_iff img :
  0 < img_width img → 0 < img_height img →
  (∃ b, isTileBlack true img = Ok b)
  ∧ (isTileBlack true img = Ok true ↔
     50 * count_bright 25 (every_nth 16 (row_major img))
     < Z.of_nat (length (every_nth 16 (row_major img)))).
Proof.
  intros Hw Hh. rewrite isTileBlack_sampled by done. split; [by eauto |].
  assert (row_major img ≠ []) as Hne.
  { intros Hnil. pose proof (length_row_major img) as Hlen.
    rewrite Hnil in Hlen. simpl in Hlen. nia. }
  apply (every_nth_nonempty _ 16) in Hne; [| lia].
  unfold ratio_below_2pct.
  destruct (Z.eqb_spec (Z.of_nat (length (every_nth 16 (row_major img)))) 0) as [H0 |].
  { destruct (every_nth 16 (row_major img)); [done | simpl in H0; lia]. }
  split; [intros [= Hlt]; by apply Z.ltb_lt | intros Hlt; f_equal; by apply Z.ltb_lt].
Qed.

Lemma isTileBlack_iff_witness :
  (∃ b, isTileBlack true first_pixel_white = Ok b)
  ∧ (isTileBlack true first_pixel_white = Ok true ↔
     50 * count_bright 25 (every_nth 16 (row_major first_pixel_white))
     < Z.of_nat (length (every_nth 16 (row_major first_pixel_white)))).
Proof. apply isTileBlack_iff; simpl; lia. Defined.

(** ** Reading rectangles *)

Lemma lookup_flat_map_rows {A B} (f : A → list B) (rows : list A) (len n i : nat) :
  (∀ a, a ∈ rows → length (f a) = len) → (i < len)%nat →
  flat_map f rows !! (n * len + i)%nat = rows !! n ≫= λ a, f a !! i.
Proof.
  intros Hlen Hi. revert n. induction rows as [| a rows IH]; intros n; [done |].
  change (flat_map f (a :: rows)) with (f a ++ flat_map f rows).
  assert (length (f a) = len) as Ha by (apply Hlen; left).
  destruct n as [| n].
  - rewrite lookup_app_l by lia. done.
  - rewrite lookup_app_r by lia.
    replace (S n * len + i - length (f a))%nat with (n * len + i)%nat by lia.
    apply IH. intros b Hb. apply Hlen. by right.
Qed.

(** The pixel at column [i] of row [j] of a rectangle. *)
Lemma lookup_rect_pixels c sx sy sw sh i j :
  0 ≤ i < sw → 0 ≤ j < sh →
  rect_pixels c sx sy sw sh !! Z.to_nat (j * sw + i) = Some (pixel_at c (sx + i) (sy + j)).
Proof.
  intros Hi Hj. unfold rect_pixels.
  replace (Z.to_nat (j * sw + i)) with (Z.to_nat j * Z.to_nat sw + Z.to_nat i)%nat by nia.
  rewrite (lookup_flat_map_rows _ _ (Z.to_nat sw)).
  - rewrite lookup_seqZ_lt by lia. simpl.
    rewrite list_lookup_fmap, lookup_seqZ_lt by lia. simpl.
    do 2 f_equal; lia.
  - intros a _. by rewrite length_fmap, length_seqZ.
  - lia.
Qed.

(** The byte of channel [ch] of that pixel in the data of the rectangle. *)
Lemma data_at_rect c sx sy sw sh i j ch :
  0 ≤ i < sw → 0 ≤ j < sh → 0 ≤ ch < 4 →
  data_at (flat_map pixel_bytes (rect_pixels c sx sy sw sh)) ((j * sw + i) * 4 + ch)
  = pixel_bytes (pixel_at c (sx + i) (sy + j)) !! Z.to_nat ch.
Proof.
  intros Hi Hj Hch. unfold data_at.
  destruct (Z.ltb_spec ((j * sw + i) * 4 + ch) 0); [nia |].
  replace (Z.to_nat ((j * sw + i) * 4 + ch))
    with (4 * Z.to_nat (j * sw + i) + Z.to_nat ch)%nat by nia.
  rewrite lookup_pixel_bytes by lia.
  by rewrite lookup_rect_pixels by done.
Qed.

Lemma indices_cons n step :
  0 < step → 0 < n → ∃ rest, indices n step = 0 :: rest.
Proof.
  intros Hstep Hn. unfold indices.
  assert (0 < (n + step - 1) `div` step) as Hpos.
  { apply Z.div_str_pos. lia. }
  rewrite seqZ_cons by done. simpl. eauto.
Qed.

(** ** The wrap-seam remover, continued *)

(** X7: a canvas narrower than one tile (512 pixels) or at most 2 pixels
    high is returned as it is. *)
Theorem removeHorizontalWrap_skips_small cctx c :
  width c < 512 ∨ height c ≤ 2 → removeHorizontalWrap cctx c = Ok c.
Proof.
  intros Hsmall. unfold removeHorizontalWrap. destruct (ctx2d c); simpl; [| done].
  destruct (Z.leb_spec (floor_40pct (height c)) 0) as [| Hscan]; simpl; [done |].
  destruct (Z.ltb_spec (width c) 512) as [| Hwidth]; simpl; [done |].
  destruct Hsmall as [? | Hh]; [lia |]. unfold floor_40pct in Hscan.
  assert ((2 * height c) `div` 5 ≤ 0); [| lia].
  apply Z.lt_succ_r. apply Z.div_lt_upper_bound; lia.
Qed.

Lemma removeHorizontalWrap_skips_small_witness :
  removeHorizontalWrap true staggered = Ok staggered.
Proof. apply removeHorizontalWrap_skips_small. left. simpl. lia. Defined.

(** Where [removeHorizontalWrap] cuts. *)
Lemma removeHorizontalWrap_cut cctx c :
  ∃ out, removeHorizontalWrap cctx c = Ok out
    ∧ (out = c
       ∨ ∃ dx, 0 ≤ dx < width c - floor_25pct (width c) - 16 ∧ dx `mod` 2 = 0
           ∧ 512 ≤ width c
           ∧ out = drawRegion (createCanvas (floor_25pct (width c) + dx) (height c) true)
                     c 0 0 (floor_25pct (width c) + dx) (height c)).
Proof.
  unfold removeHorizontalWrap. destruct (ctx2d c); simpl; [| by eauto].
  destruct (Z.leb_spec (floor_40pct (height c)) 0) as [| Hscan]; simpl; [by eauto |].
  destruct (Z.ltb_spec (width c) 512) as [| Hwidth]; simpl; [by eauto |].
  unfold getImageData. change (W =? 0) with false.
  destruct (Z.eqb_spec (floor_40pct (height c)) 0); [lia |]. simpl.
  destruct (Z.leb_spec (width c - floor_25pct (width c)) W) as [| Hsearch];
    [by eauto |].
  destruct (Z.eqb_spec (width c - floor_25pct (width c)) 0);
    [unfold W in Hsearch; lia |]. simpl.
  match goal with |- context [wrap_search ?a ?b ?c ?d ?e ?f ?g ?h] =>
    pose proof (wrap_search_best a b c d e f g h) as Hbest;
    destruct (wrap_search a b c d e f g h) as [bestMatchX minDiff] end.
  simpl in Hbest.
  destruct (Z.eqb_spec bestMatchX (-1)) as [| Hfound]; simpl; [by eauto |].
  destruct (js_lt minDiff (Num 15)); [| by eauto].
  destruct cctx; simpl; [| by eauto].
  destruct Hbest as [| (dx & Hdx & ->)]; [done |].
  apply elem_of_indices in Hdx as [Hdx Hmod]; [| lia]. unfold W in *.
  eexists. split; [done |]. right. exists dx. split_and!; [lia | lia | done | done | done].
Qed.

(** X8: when [removeHorizontalWrap] cuts the canvas, it keeps the full
    height and at least the left quarter of the width, removes more than 16
    columns, and cuts at an even distance from the quarter. *)
Theorem removeHorizontalWrap_cut_bounds cctx c out :
  removeHorizontalWrap cctx c = Ok out → out ≠ c →
  height out = height c
  ∧ 512 ≤ width c
  ∧ width c `div` 4 ≤ width out < width c - 16
  ∧ (width out - width c `div` 4) `mod` 2 = 0.
Proof.
  intros Hout Hne.
  destruct (removeHorizontalWrap_cut cctx c) as (out' & Hout' & Hcases).
  rewrite Hout in Hout'. injection Hout' as <-.
  destruct Hcases as [-> | (dx & Hdx & Hmod & Hw & ->)]; [done |].
  unfold floor_25pct in *. simpl. split_and!; [done | done | lia | lia |].
  by replace (width c `div` 4 + dx - width c `div` 4) with dx by lia.
Qed.

Lemma removeHorizontalWrap_cut_bounds_witness :
  let out := drawRegion (createCanvas 128 3 true) grey_strip 0 0 128 3 in
  height out = height grey_strip
  ∧ 512 ≤ width grey_strip
  ∧ width grey_strip `div` 4 ≤ width out < width grey_strip - 16
  ∧ (width out - width grey_strip `div` 4) `mod` 2 = 0.
Proof.
  apply (removeHorizontalWrap_cut_bounds true grey_strip); [by vm_compute |].
  intros Heq. apply (f_equal width) in Heq. discriminate Heq.
Defined.

Lemma js_lt_zero q k : (q == 0)%Q → (0 < k)%Q → js_lt (Num q) (Num k) = true.
Proof.
  intros Hq Hk. unfold js_lt. apply negb_true_iff.
  destruct (Qle_bool k q) eqn:Hle; [| done].
  apply Qle_bool_iff in Hle. rewrite Hq in Hle.
  by apply Qlt_not_le in Hk.
Qed.

Lemma average_zero n :
  0 < n → ∃ q, average (Some 0) n = Num q ∧ (q == 0)%Q.
Proof.
  intros Hn. unfold average. destruct (Z.eqb_spec n 0); [lia |].
  eexists. split; [done |]. unfold Qdiv. apply Qmult_0_l.
Qed.

(** A fold of [diff_step] over samples without any difference. *)
Lemma fold_diff_step_zero sourceData searchArea searchWidth dx samples n :
  Forall (λ ywx, ∀ ch, 0 ≤ ch < 3 →
            abs_diff sourceData ((ywx.1 * W + ywx.2) * 4 + ch)
                     searchArea ((ywx.1 * searchWidth + (dx + ywx.2)) * 4 + ch)
            = Some 0) samples →
  fold_left (diff_step sourceData searchArea searchWidth dx) samples (Some 0, n)
  = (Some 0, n + Z.of_nat (length samples)).
Proof.
  intros Hall. revert n. induction Hall as [| [y wx] samples Hs _ IH]; intros n.
  - simpl. f_equal. lia.
  - cbn [fold_left diff_step]. simpl in Hs.
    pose proof (Hs 0 ltac:(lia)) as H0. rewrite !Z.add_0_r in H0.
    rewrite H0, (Hs 1), (Hs 2) by lia. simpl. rewrite IH. f_equal.
    simpl length. lia.
Qed.

(** A canvas whose rows are each of one colour. *)
Lemma pixel_at_uniform_row c (f : Z → Pixel) px py :
  (∀ px py, 0 ≤ px < width c → 0 ≤ py < height c → pix c px py = f py) →
  0 ≤ px < width c → 0 ≤ py < height c → pixel_at c px py = f py.
Proof.
  intros Hrows Hpx Hpy. unfold pixel_at, inside.
  repeat match goal with |- context [?a <=? ?b] =>
    destruct (Z.leb_spec a b); [| lia] end.
  repeat match goal with |- context [?a <? ?b] =>
    destruct (Z.ltb_spec a b); [| lia] end.
  by apply Hrows.
Qed.

Lemma avgDiff_uniform_rows c (f : Z → Pixel) startX startY searchWidth scanHeight dx :
  (∀ px py, 0 ≤ px < width c → 0 ≤ py < height c → pix c px py = f py) →
  0 ≤ startY → startY + scanHeight ≤ height c → 0 < scanHeight →
  0 ≤ startX → startX + searchWidth ≤ width c → 0 ≤ dx → dx + W ≤ searchWidth →
  ∃ q, avgDiff_at (flat_map pixel_bytes (rect_pixels c 0 startY W scanHeight))
         (flat_map pixel_bytes (rect_pixels c startX startY searchWidth scanHeight))
         searchWidth scanHeight dx = Num q
    ∧ (q == 0)%Q.
Proof.
  intros Hrows HsY HeY Hscan HsX HeX Hdx HdxW. unfold avgDiff_at.
  rewrite fold_diff_step_zero.
  - apply average_zero.
    destruct (indices_cons scanHeight 8) as [ys ->]; [lia.. |].
    destruct (indices_cons W 4) as [xs ->]; [unfold W; lia.. |].
    simpl. lia.
  - apply Forall_forall. intros [y wx] Hin ch Hch. simpl.
    apply list_elem_of_In, in_flat_map in Hin as (y' & Hy & Hin).
    apply list_elem_of_In, list_elem_of_fmap in Hin as (wx' & [= -> ->] & Hwx).
    apply list_elem_of_In, elem_of_indices in Hy as [Hy _]; [| lia].
    apply elem_of_indices in Hwx as [Hwx _]; [| lia]. unfold W in *.
    unfold abs_diff. rewrite !data_at_rect by lia.
    rewrite !(pixel_at_uniform_row c f) by (done || lia).
    destruct (pixel_bytes (f (startY + y')) !! Z.to_nat ch) as [v |] eqn:Hv.
    + f_equal. lia.
    + apply lookup_ge_None in Hv. simpl in Hv. lia.
Qed.

Lemma floor_bounds h :
  0 ≤ h → 0 ≤ floor_30pct h ∧ floor_30pct h + floor_40pct h ≤ h
  ∧ (3 ≤ h → 0 < floor_40pct h).
Proof.
  intros Hh. unfold floor_30pct, floor_40pct.
  pose proof (Z.div_mod (3 * h) 10). pose proof (Z.mod_pos_bound (3 * h) 10).
  pose proof (Z.div_mod (2 * h) 5). pose proof (Z.mod_pos_bound (2 * h) 5).
  lia.
Qed.

(** X9: a canvas of at least 512 x 3 pixels whose rows are each of one
    colour (a uniform canvas in particular) is cut at a quarter of its
    width: the strip at the first candidate position repeats the left edge
    exactly. *)
Theorem removeHorizontalWrap_uniform_rows c (f : Z → Pixel) :
  ctx2d c = true → 512 ≤ width c → 3 ≤ height c →
  (∀ px py, 0 ≤ px < width c → 0 ≤ py < height c → pix c px py = f py) →
  removeHorizontalWrap true c
  = Ok (drawRegion (createCanvas (width c `div` 4) (height c) true)
          c 0 0 (width c `div` 4) (height c)).
Proof.
  intros Hctx Hw Hh Hrows. unfold removeHorizontalWrap. rewrite Hctx. simpl.
  destruct (floor_bounds (height c)) as (HsY & HeY & Hscan); [lia |].
  specialize (Hscan Hh).
  assert (0 ≤ floor_25pct (width c) ∧ 4 * floor_25pct (width c) ≤ width c) as [HsX HeX].
  { unfold floor_25pct. pose proof (Z.div_mod (width c) 4).
    pose proof (Z.mod_pos_bound (width c) 4). lia. }
  destruct (Z.leb_spec (floor_40pct (height c)) 0); [lia |].
  destruct (Z.ltb_spec (width c) 512); [lia |]. simpl.
  unfold getImageData. change (W =? 0) with false.
  destruct (Z.eqb_spec (floor_40pct (height c)) 0); [lia |]. simpl.
  destruct (Z.leb_spec (width c - floor_25pct (width c)) W);
    [unfold W in *; lia |].
  destruct (Z.eqb_spec (width c - floor_25pct (width c)) 0);
    [unfold W in *; lia |]. simpl.
  destruct (indices_cons (width c - floor_25pct (width c) - W) 2) as [rest ->];
    [lia | unfold W in *; lia |].
  cbn [wrap_search].
  destruct (avgDiff_uniform_rows c f (floor_25pct (width c)) (floor_30pct (height c))
              (width c - floor_25pct (width c)) (floor_40pct (height c)) 0)
    as (q & -> & Hq); [done | lia.. | unfold W in *; lia |].
  change (js_lt (Num q) PosInf) with true. cbn iota.
  rewrite js_lt_zero by done. rewrite Z.add_0_r.
  destruct (Z.eqb_spec (floor_25pct (width c)) (-1)); [lia |].
  rewrite (js_lt_zero q 15) by done. done.
Qed.

Lemma removeHorizontalWrap_uniform_rows_witness :
  removeHorizontalWrap true grey_strip
  = Ok (drawRegion (createCanvas (width grey_strip `div` 4) (height grey_strip) true)
          grey_strip 0 0 (width grey_strip `div` 4) (height grey_strip)).
Proof.
  apply (removeHorizontalWrap_uniform_rows grey_strip
           (λ _, {| red := 128; green := 128; blue := 128; alpha := 255 |}));
    [reflexivity | simpl; lia | simpl; lia | done].
Defined.

(** ** The job without usable tiles *)

(** X10: on a zoom level of the catalog, when no tile yields an image
    (every fetch is rejected, or every tile is black) and the canvases
    obtain their contexts, the job does not fail: it returns a black image
    of full height and a quarter of the width of the grid. *)
Theorem stitch_without_tiles env sched panoId grid :
  grid ∈ GRID_SIZES →
  stitch_ctx env = true → wrap_ctx env = true →
  (∀ coord, coord ∈ grid_coords grid →
     tile_entry env panoId (Grid.zoom grid) coord = None) →
  ∃ out, (stitchStreetViewImage env sched panoId (Grid.zoom grid)).2 = Ok out
    ∧ width out = Grid.x grid * 128
    ∧ height out = Grid.y grid * 512
    ∧ ∀ px py, 0 ≤ px < width out → 0 ≤ py < height out → pixel_at out px py = black.
Proof.
  intros Hin Hctx Hwrap Hnone.
  destruct (grid_positive grid Hin) as [Hx Hy].
  rewrite stitch_at_grid by done. cbn zeta. cbn [snd].
  destruct (downloadTiles_joined env sched panoId (Grid.zoom grid) grid
              (grid_keys_NoDup grid Hin)) as (_ & _ & _ & Himg).
  rewrite composite_no_tiles; [| done |]; last first.
  { intros coord img Hcoord. rewrite Himg by done. by rewrite Hnone. }
  cbn [bind]. unfold TILE_SIZE.
  set (canvas := fillRect _ _ _ _).
  assert (∀ px py, 0 ≤ px < width canvas → 0 ≤ py < height canvas →
            pix canvas px py = black) as Hblack.
  { intros px py Hpx Hpy. simpl in *. unfold inside.
    repeat match goal with |- context [?a <=? ?b] =>
      destruct (Z.leb_spec a b); [| lia] end.
    repeat match goal with |- context [?a <? ?b] =>
      destruct (Z.ltb_spec a b); [| lia] end.
    done. }
  rewrite cropBlackEdges_dark; [| | simpl; lia..]; last first.
  { intros px py. unfold pixel_at.
    destruct (inside (width canvas) (height canvas) px py) eqn:Hinside; [| done].
    unfold inside in Hinside. rewrite !andb_true_iff in Hinside.
    destruct Hinside as [[[?%Z.leb_le ?%Z.ltb_lt] ?%Z.leb_le] ?%Z.ltb_lt].
    by rewrite Hblack. }
  cbn [bind]. rewrite Hwrap.
  rewrite (removeHorizontalWrap_uniform_rows canvas (λ _, black));
    [| done | simpl; lia | simpl; lia | done].
  assert (width canvas `div` 4 = Grid.x grid * 128) as ->.
  { simpl. replace (Grid.x grid * 512) with (Grid.x grid * 128 * 4) by lia.
    by rewrite Z.div_mul. }
  change (height canvas) with (Grid.y grid * 512).
  eexists. split; [done |]. split_and!; [done | done |].
  intros px py Hpx Hpy. simpl in Hpx, Hpy.
  destruct (subregion_drawRegion canvas 0 0 (Grid.x grid * 128) (Grid.y grid * 512) true)
    as (_ & _ & _ & _ & _ & _ & Hsub); [simpl; lia.. |].
  rewrite Hsub by (simpl; lia).
  rewrite (pixel_at_uniform_row canvas (λ _, black)); [done | done | simpl; lia..].
Qed.

Lemma stitch_without_tiles_witness :
  ∃ out, (stitchStreetViewImage offline [] "pano" 3).2 = Ok out
    ∧ width out = 8 * 128
    ∧ height out = 4 * 512
    ∧ ∀ px py, 0 ≤ px < width out → 0 ≤ py < height out → pixel_at out px py = black.
Proof.
  apply (stitch_without_tiles offline [] "pano" zoom3);
    [apply (bool_decide_unpack _); reflexivity | reflexivity | reflexivity
    | intros; reflexivity].
Defined.

(** ** The compositor, continued *)

Lemma elem_of_grid_coords grid coord :
  coord ∈ grid_coords grid ↔
  0 ≤ Coord.x coord < Grid.x grid ∧ 0 ≤ Coord.y coord < Grid.y grid.
Proof.
  unfold grid_coords. rewrite list_elem_of_In, in_flat_map. split.
  - intros (y & Hy & Hx). apply list_elem_of_In, elem_of_seqZ in Hy.
    apply list_elem_of_In, list_elem_of_fmap in Hx as (x & -> & Hx).
    apply elem_of_seqZ in Hx. simpl. lia.
  - intros [Hx Hy]. exists (Coord.y coord). split.
    + apply list_elem_of_In, elem_of_seqZ. lia.
    + apply list_elem_of_In, list_elem_of_fmap. exists (Coord.x coord).
      split; [by destruct coord |]. apply elem_of_seqZ. lia.
Qed.

(** Drawing the tiles of [l] leaves the size of the canvas, and decides the
    pixel at offset [(i, j)] of the square of [coord] by the tile of
    [coord] alone, when no tile is larger than its square. *)
Lemma draw_tiles_pixel (images : gmap string (option Image)) coord i j l canvas :
  0 ≤ i < 512 → 0 ≤ j < 512 →
  (∀ coord' img, coord' ∈ l → images !! key coord' = Some (Some img) →
     img_width img ≤ 512 ∧ img_height img ≤ 512) →
  let drawn :=
    fold_left
      (λ canvas coord,
         match images !! key coord with
         | Some (Some img) =>
             drawImage canvas img (Coord.x coord * TILE_SIZE) (Coord.y coord * TILE_SIZE)
         | _ => canvas
         end) l canvas in
  let px := Coord.x coord * 512 + i in
  let py := Coord.y coord * 512 + j in
  width drawn = width canvas ∧ height drawn = height canvas
  ∧ pix drawn px py =
    if decide (coord ∈ l) then
      match images !! key coord with
      | Some (Some img) =>
          if inside (img_width img) (img_height img) i j
          then img_pix img i j else pix canvas px py
      | _ => pix canvas px py
      end
    else pix canvas px py.
Proof.
  intros Hi Hj. revert canvas. induction l as [| coord' l IH]; intros canvas Hsize;
    cbn zeta; [done |].
  cbn [fold_left].
  set (canvas' := match images !! key coord' with
                  | Some (Some img) => drawImage canvas img _ _
                  | _ => canvas end).
  destruct (IH canvas') as (Hw & Hh & Hpix).
  { intros c' img Hc'. apply Hsize. by right. }
  cbn zeta in Hw, Hh, Hpix. rewrite Hw, Hh, Hpix.
  assert (width canvas' = width canvas ∧ height canvas' = height canvas) as [-> ->].
  { unfold canvas'. by destruct (images !! key coord') as [[img |] |]. }
  split_and!; [done | done |].
  destruct (decide (coord' = coord)) as [-> | Hne].
  - (* the tile of [coord] itself *)
    rewrite (decide_True (P := coord ∈ coord :: l)) by left.
    assert (pix canvas' (Coord.x coord * 512 + i) (Coord.y coord * 512 + j)
            = match images !! key coord with
              | Some (Some img) =>
                  if inside (img_width img) (img_height img) i j
                  then img_pix img i j
                  else pix canvas (Coord.x coord * 512 + i) (Coord.y coord * 512 + j)
              | _ => pix canvas (Coord.x coord * 512 + i) (Coord.y coord * 512 + j)
              end) as Hhere.
    { unfold canvas', TILE_SIZE. destruct (images !! key coord) as [[img |] |]; [| done..].
      simpl.
      replace (Coord.x coord * 512 + i - Coord.x coord * 512) with i by lia.
      by replace (Coord.y coord * 512 + j - Coord.y coord * 512) with j by lia. }
    rewrite Hhere.
    destruct (decide (coord ∈ l)); [| done].
    destruct (images !! key coord) as [[img |] |]; [| done..].
    by destruct (inside (img_width img) (img_height img) i j).
  - (* another tile: its image does not reach the square of [coord] *)
    assert (pix canvas' (Coord.x coord * 512 + i) (Coord.y coord * 512 + j)
            = pix canvas (Coord.x coord * 512 + i) (Coord.y coord * 512 + j)) as ->.
    { unfold canvas', TILE_SIZE.
      destruct (images !! key coord') as [[img |] |] eqn:Himg; [| done..].
      destruct (Hsize coord' img) as [Himgw Himgh]; [by left | done |].
      simpl. unfold inside.
      destruct (decide (Coord.x coord' = Coord.x coord)) as [Hx | Hx].
      - assert (Coord.y coord' ≠ Coord.y coord) as Hy.
        { intros Hy. destruct coord, coord'. simpl in *. congruence. }
        destruct (Z.leb_spec 0 (Coord.y coord * 512 + j - Coord.y coord' * 512));
          [| by rewrite !andb_false_r].
        destruct (Z.ltb_spec (Coord.y coord * 512 + j - Coord.y coord' * 512)
                    (img_height img)); [lia | by rewrite !andb_false_r].
      - destruct (Z.leb_spec 0 (Coord.x coord * 512 + i - Coord.x coord' * 512));
          [| done].
        destruct (Z.ltb_spec (Coord.x coord * 512 + i - Coord.x coord' * 512)
                    (img_width img)); [lia | done]. }
    destruct (decide (coord ∈ l)) as [Hl | Hl].
    + by rewrite (decide_True (P := coord ∈ coord' :: l)) by by right.
    + rewrite (decide_False (P := coord ∈ coord' :: l)); [done |].
      intros [? | ?]%elem_of_cons; congruence.
Qed.

Lemma composite_value env grid (images : gmap string (option Image)) :
  stitch_ctx env = true →
  composite env grid images
  = Ok match composite env grid images with
       | Ok canvas => canvas
       | Throw _ => createCanvas 0 0 false
       end.
Proof.
  intros Hctx. by destruct (composite_ok env grid images Hctx) as (canvas & -> & _).
Qed.

(** What the composite shows in the square of a tile. *)
Lemma composite_pixel env grid (images : gmap string (option Image))
    canvas coord i j :
  composite env grid images = Ok canvas →
  coord ∈ grid_coords grid →
  (∀ coord' img, coord' ∈ grid_coords grid → images !! key coord' = Some (Some img) →
     img_width img ≤ 512 ∧ img_height img ≤ 512) →
  0 ≤ i < 512 → 0 ≤ j < 512 →
  pixel_at canvas (Coord.x coord * 512 + i) (Coord.y coord * 512 + j) =
  match images !! key coord with
  | Some (Some img) =>
      if inside (img_width img) (img_height img) i j then img_pix img i j else black
  | _ => black
  end.
Proof.
  intros Hcomposite Hcoord Hsize Hi Hj. unfold composite in Hcomposite.
  destruct (stitch_ctx env); simpl in Hcomposite; [| done].
  injection Hcomposite as <-.
  destruct (draw_tiles_pixel images coord i j (grid_coords grid)
              (fillRect (setSize (createCanvas 300 150 true)
                           (Grid.x grid * TILE_SIZE) (Grid.y grid * TILE_SIZE))
                 (Grid.x grid * TILE_SIZE) (Grid.y grid * TILE_SIZE) black)
              Hi Hj Hsize) as (Hw & Hh & Hpix).
  cbn zeta in Hw, Hh, Hpix.
  apply elem_of_grid_coords in Hcoord as Hrange.
  unfold pixel_at. rewrite Hw, Hh, Hpix. unfold TILE_SIZE. simpl.
  assert (inside (Grid.x grid * 512) (Grid.y grid * 512)
            (Coord.x coord * 512 + i) (Coord.y coord * 512 + j) = true) as ->.
  { unfold inside.
    repeat match goal with |- context [?a <=? ?b] =>
      destruct (Z.leb_spec a b); [| lia] end.
    repeat match goal with |- context [?a <? ?b] =>
      destruct (Z.ltb_spec a b); [| lia] end.
    done. }
  by rewrite decide_True by done.
Qed.

(** X11: the composite shows, in the 512 x 512 square of every tile of the
    grid, the image stored for that tile, drawn from the top left corner of
    the square, and black where there is no image or the image does not
    reach (no stored image being larger than a square). *)
Theorem composite_draws_tiles env grid (images : gmap string (option Image))
    canvas coord i j :
  composite env grid images = Ok canvas →
  coord ∈ grid_coords grid →
  (∀ coord' img, coord' ∈ grid_coords grid → images !! key coord' = Some (Some img) →
     img_width img ≤ 512 ∧ img_height img ≤ 512) →
  0 ≤ i < 512 → 0 ≤ j < 512 →
  pixel_at canvas (Coord.x coord * 512 + i) (Coord.y coord * 512 + j) =
  match images !! key coord with
  | Some (Some img) =>
      if inside (img_width img) (img_height img) i j then img_pix img i j else black
  | _ => black
  end.
Proof. apply composite_pixel. Qed.

Lemma composite_draws_tiles_witness :
  pixel_at one_tile_composite (1 * 512 + 0) (0 * 512 + 0) = white.
Proof.
  apply (composite_draws_tiles offline zoom3 one_tile one_tile_composite
           {| Coord.x := 1; Coord.y := 0 |} 0 0).
  - apply composite_value. reflexivity.
  - apply (bool_decide_unpack _). reflexivity.
  - intros coord' img _ Himg. unfold one_tile in Himg.
    apply lookup_singleton_Some in Himg as [_ [= <-]].
    simpl. lia.
  - lia.
  - lia.
Defined.

(** What the composite of the downloaded tiles shows in the square of a tile. *)
Lemma stitch_places_tiles_pixel env sched panoId grid canvas coord i j :
  grid ∈ GRID_SIZES →
  composite env grid (images (downloadTiles env sched panoId (Grid.zoom grid) grid))
  = Ok canvas →
  coord ∈ grid_coords grid →
  (∀ coord' img, coord' ∈ grid_coords grid →
     tile_entry env panoId (Grid.zoom grid) coord' = Some img →
     img_width img ≤ 512 ∧ img_height img ≤ 512) →
  0 ≤ i < 512 → 0 ≤ j < 512 →
  pixel_at canvas (Coord.x coord * 512 + i) (Coord.y coord * 512 + j) =
  match tile_entry env panoId (Grid.zoom grid) coord with
  | Some img =>
      if inside (img_width img) (img_height img) i j then img_pix img i j else black
  | None => black
  end.
Proof.
  intros Hin Hcomposite Hcoord Hsize Hi Hj.
  destruct (downloadTiles_joined env sched panoId (Grid.zoom grid) grid
              (grid_keys_NoDup grid Hin)) as (_ & _ & _ & Himg).
  rewrite (composite_pixel env grid _ canvas coord i j Hcomposite Hcoord); [| | done..].
  - rewrite Himg by done. by destruct (tile_entry env panoId (Grid.zoom grid) coord).
  - intros coord' img Hcoord' Hlookup. rewrite Himg in Hlookup by done.
    injection Hlookup as Hentry. by apply (Hsize coord').
Qed.

(** X12: on a zoom level of the catalog, whatever the order in which the
    fetches settle, the composite of the downloaded tiles shows in the
    square of every tile the image fetched for that tile if it is not
    classified black, and black otherwise (no such image being larger than a
    square). *)
Theorem stitch_places_tiles env sched panoId grid canvas coord i j :
  grid ∈ GRID_SIZES →
  composite env grid (images (downloadTiles env sched panoId (Grid.zoom grid) grid))
  = Ok canvas →
  coord ∈ grid_coords grid →
  (∀ coord' img, coord' ∈ grid_coords grid →
     tile_entry env panoId (Grid.zoom grid) coord' = Some img →
     img_width img ≤ 512 ∧ img_height img ≤ 512) →
  0 ≤ i < 512 → 0 ≤ j < 512 →
  pixel_at canvas (Coord.x coord * 512 + i) (Coord.y coord * 512 + j) =
  match tile_entry env panoId (Grid.zoom grid) coord with
  | Some img =>
      if inside (img_width img) (img_height img) i j then img_pix img i j else black
  | None => black
  end.
Proof. apply stitch_places_tiles_pixel. Qed.

Lemma stitch_places_tiles_witness :
  pixel_at bright_tiles_composite (1 * 512 + 0) (0 * 512 + 0) =
  match tile_entry bright_tiles "pano" 3 {| Coord.x := 1; Coord.y := 0 |} with
  | Some img =>
      if inside (img_width img) (img_height img) 0 0 then img_pix img 0 0 else black
  | None => black
  end.
Proof.
  apply (stitch_places_tiles bright_tiles [] "pano" zoom3 bright_tiles_composite
           {| Coord.x := 1; Coord.y := 0 |} 0 0).
  - apply (bool_decide_unpack _). reflexivity.
  - apply composite_value. reflexivity.
  - apply (bool_decide_unpack _). reflexivity.
  - intros coord' img _ Hentry. vm_compute in Hentry. injection Hentry as <-.
    simpl. lia.
  - lia.
  - lia.
Defined.

Example bright_tiles_composite_pixels :
  pixel_at bright_tiles_composite 512 0 = white
  ∧ pixel_at bright_tiles_composite 513 0 = black
  ∧ pixel_at bright_tiles_composite 512 1 = black.
Proof. by vm_compute. Qed.

(** ** The border cropper, continued *)

(** Every line a loop has passed tests background. *)
Lemma scan_up_passed test fuel lo hi r :
  scan_up test fuel lo hi = Ok r → ∀ v, lo ≤ v < r → test v = Ok true.
Proof.
  revert lo. induction fuel as [| fuel IH]; intros lo; simpl.
  - intros [= <-] v Hv. lia.
  - destruct (Z.leb_spec lo hi); [| intros [= <-] v Hv; lia].
    destruct (test lo) as [[] |] eqn:Ht; simpl; [| intros [= <-] v Hv; lia | done].
    intros Hscan v Hv. destruct (decide (v = lo)) as [-> | ?]; [done |].
    apply (IH _ Hscan). lia.
Qed.

Lemma scan_down_passed test fuel hi lo r :
  scan_down test fuel hi lo = Ok r → ∀ v, r < v ≤ hi → test v = Ok true.
Proof.
  revert hi. induction fuel as [| fuel IH]; intros hi; simpl.
  - intros [= <-] v Hv. lia.
  - destruct (Z.leb_spec lo hi); [| intros [= <-] v Hv; lia].
    destruct (test hi) as [[] |] eqn:Ht; simpl; [| intros [= <-] v Hv; lia | done].
    intros Hscan v Hv. destruct (decide (v = hi)) as [-> | ?]; [done |].
    apply (IH _ Hscan). lia.
Qed.

(** A loop runs up to the first line that does not test background. *)
Lemma scan_up_to test fuel lo hi r :
  (∀ v, lo ≤ v < r → test v = Ok true) → test r = Ok false →
  lo ≤ r ≤ hi → (Z.to_nat (r - lo) < fuel)%nat →
  scan_up test fuel lo hi = Ok r.
Proof.
  revert lo. induction fuel as [| fuel IH]; intros lo Hpass Hstop Hlo Hfuel; [lia |].
  destruct (decide (lo = r)) as [-> | Hne]; [by apply scan_up_stop |].
  simpl. rewrite Hpass by lia. simpl.
  destruct (Z.leb_spec lo hi); [| lia].
  apply IH; [intros; apply Hpass | |..]; (done || lia).
Qed.

Lemma scan_down_to test fuel hi lo r :
  (∀ v, r < v ≤ hi → test v = Ok true) → test r = Ok false →
  lo ≤ r ≤ hi → (Z.to_nat (hi - r) < fuel)%nat →
  scan_down test fuel hi lo = Ok r.
Proof.
  revert hi. induction fuel as [| fuel IH]; intros hi Hpass Hstop Hr Hfuel; [lia |].
  destruct (decide (hi = r)) as [-> | Hne]; [by apply scan_down_stop |].
  simpl. rewrite Hpass by lia. simpl.
  destruct (Z.leb_spec lo hi); [| lia].
  apply IH; [intros; apply Hpass | |..]; (done || lia).
Qed.

(** Where [cropBlackEdges] cuts, and how its loops ended. *)
Lemma cropBlackEdges_scans cctx c :
  0 < width c → 0 < height c → ctx2d c = true →
  ∃ top bottom left right,
    scan_up (isRowBlack c 25) (Z.to_nat (height c)) 0 (height c - 1) = Ok top
    ∧ scan_down (isRowBlack c 25) (Z.to_nat (height c)) (height c - 1) top = Ok bottom
    ∧ scan_up (isColBlack c 25) (Z.to_nat (width c)) 0 (width c - 1) = Ok left
    ∧ scan_down (isColBlack c 25) (Z.to_nat (width c)) (width c - 1) left = Ok right
    ∧ 0 ≤ top ∧ bottom ≤ height c - 1 ∧ 0 ≤ left ∧ right ≤ width c - 1
    ∧ cropBlackEdges cctx c =
      Ok (if (bottom <? top) || (right <? left) then c
          else if (top =? 0) && (bottom =? height c - 1) && (left =? 0)
                  && (right =? width c - 1) then c
          else if cctx
               then drawRegion (createCanvas (right - left + 1) (bottom - top + 1) true)
                      c left top (right - left + 1) (bottom - top + 1)
               else c).
Proof.
  intros Hw Hh Hctx. unfold cropBlackEdges. rewrite Hctx. simpl.
  destruct (scan_up_bounds (isRowBlack c 25) (Z.to_nat (height c)) 0 (height c - 1))
    as (top & Htop & ?); [intros; apply isRowBlack_ok; lia |].
  destruct (scan_down_bounds (isRowBlack c 25) (Z.to_nat (height c)) (height c - 1) top)
    as (bottom & Hbottom & ?); [intros; apply isRowBlack_ok; lia |].
  destruct (scan_up_bounds (isColBlack c 25) (Z.to_nat (width c)) 0 (width c - 1))
    as (left & Hleft & ?); [intros; apply isColBlack_ok; lia |].
  destruct (scan_down_bounds (isColBlack c 25) (Z.to_nat (width c)) (width c - 1) left)
    as (right & Hright & ?); [intros; apply isColBlack_ok; lia |].
  exists top, bottom, left, right. rewrite Htop. simpl. rewrite Hbottom. simpl.
  rewrite Hleft. simpl. rewrite Hright. simpl.
  split_and!; [done | done | done | done | lia | lia | lia | lia |].
  destruct ((bottom <? top) || (right <? left)); [done |].
  destruct ((top =? 0) && (bottom =? height c - 1) && (left =? 0)
            && (right =? width c - 1)); [done |].
  by destruct cctx.
Qed.

(** X13: when [cropBlackEdges] cuts the canvas, every row and column it
    removes tests as background on the input, and the first and last row
    and column it keeps do not. *)
Theorem cropBlackEdges_trims_background cctx c out :
  0 < width c → 0 < height c →
  cropBlackEdges cctx c = Ok out → out ≠ c →
  ∃ left top,
    out = drawRegion (createCanvas (width out) (height out) true)
            c left top (width out) (height out)
    ∧ 0 ≤ left ∧ 0 ≤ top ∧ 0 < width out ∧ 0 < height out
    ∧ left + width out ≤ width c ∧ top + height out ≤ height c
    ∧ (∀ y, 0 ≤ y < top ∨ top + height out ≤ y < height c →
         isRowBlack c 25 y = Ok true)
    ∧ (∀ x, 0 ≤ x < left ∨ left + width out ≤ x < width c →
         isColBlack c 25 x = Ok true)
    ∧ isRowBlack c 25 top = Ok false
    ∧ isRowBlack c 25 (top + height out - 1) = Ok false
    ∧ isColBlack c 25 left = Ok false
    ∧ isColBlack c 25 (left + width out - 1) = Ok false.
Proof.
  intros Hw Hh Hout Hne.
  destruct (ctx2d c) eqn:Hctx; last first.
  { unfold cropBlackEdges in Hout. rewrite Hctx in Hout. simpl in Hout. congruence. }
  destruct (cropBlackEdges_scans cctx c Hw Hh Hctx)
    as (top & bottom & left & right & Htop & Hbottom & Hleft & Hright
        & ? & ? & ? & ? & Hcrop).
  rewrite Hout in Hcrop. injection Hcrop as Hcrop.
  destruct (Z.ltb_spec bottom top); [simpl in Hcrop; congruence |].
  destruct (Z.ltb_spec right left); [simpl in Hcrop; congruence |]. simpl in Hcrop.
  destruct ((top =? 0) && (bottom =? height c - 1) && (left =? 0)
            && (right =? width c - 1)); [congruence |].
  destruct cctx; [| congruence]. subst out. simpl.
  exists left, top.
  replace (top + (bottom - top + 1) - 1) with bottom by lia.
  replace (left + (right - left + 1) - 1) with right by lia.
  split_and!; try lia; try done.
  - intros y [Hy | Hy].
    + by apply (scan_up_passed _ _ _ _ _ Htop).
    + apply (scan_down_passed _ _ _ _ _ Hbottom). lia.
  - intros x [Hx | Hx].
    + by apply (scan_up_passed _ _ _ _ _ Hleft).
    + apply (scan_down_passed _ _ _ _ _ Hright). lia.
  - apply scan_up_exit in Htop as [? | ?]; [lia | done | lia].
  - apply scan_down_exit in Hbottom as [? | ?]; [lia | done | lia].
  - apply scan_up_exit in Hleft as [? | ?]; [lia | done | lia].
  - apply scan_down_exit in Hright as [? | ?]; [lia | done | lia].
Qed.

Lemma cropBlackEdges_trims_background_witness :
  ∃ left top,
    staggered_cropped
    = drawRegion (createCanvas (width staggered_cropped) (height staggered_cropped) true)
        staggered left top (width staggered_cropped) (height staggered_cropped)
    ∧ 0 ≤ left ∧ 0 ≤ top ∧ 0 < width staggered_cropped ∧ 0 < height staggered_cropped
    ∧ left + width staggered_cropped ≤ width staggered
    ∧ top + height staggered_cropped ≤ height staggered
    ∧ (∀ y, 0 ≤ y < top ∨ top + height staggered_cropped ≤ y < height staggered →
         isRowBlack staggered 25 y = Ok true)
    ∧ (∀ x, 0 ≤ x < left ∨ left + width staggered_cropped ≤ x < width staggered →
         isColBlack staggered 25 x = Ok true)
    ∧ isRowBlack staggered 25 top = Ok false
    ∧ isRowBlack staggered 25 (top + height staggered_cropped - 1) = Ok false
    ∧ isColBlack staggered 25 left = Ok false
    ∧ isColBlack staggered 25 (left + width staggered_cropped - 1) = Ok false.
Proof.
  apply (cropBlackEdges_trims_background true staggered staggered_cropped);
    [simpl; lia | simpl; lia | reflexivity |].
  intros Heq. apply (f_equal width) in Heq. discriminate Heq.
Defined.

(** The sampling loop on a line with enough bright samples. *)
Lemma line_scan_bright data thresh len idxs nonBlack checked :
  checked + Z.of_nat (length idxs)
    ≤ 50 * (nonBlack + Z.of_nat (length (List.filter (bright data thresh) idxs))) →
  line_scan data thresh len idxs nonBlack checked = false.
Proof.
  revert nonBlack checked. induction idxs as [| i idxs IH]; intros nonBlack checked;
    simpl.
  - intros Hle. unfold ratio_below_2pct. destruct (checked =? 0); [done |].
    apply Z.ltb_ge. lia.
  - destruct (bright data thresh i); simpl; intros Hle.
    + destruct (ratio_above_5pct (nonBlack + 1) len); [done |]. apply IH. lia.
    + apply IH. lia.
Qed.

Lemma filter_length_middle {A} (f : A → bool) (pre mid post : list A) :
  Forall (λ a, f a = true) mid →
  (length mid ≤ length (List.filter f (pre ++ mid ++ post)))%nat.
Proof.
  intros Hmid. rewrite !List.filter_app, !length_app.
  assert (List.filter f mid = mid) as ->; [| lia].
  induction Hmid as [| a mid Ha _ IH]; [done |]. simpl. by rewrite Ha, IH.
Qed.

(** A line of [n] pixels whose pixels from [l] to [r] are bright, at least
    4 of them and at least a tenth of the line, does not test background. *)
Lemma line_scan_bright_span (ps : list Pixel) thresh len l r :
  0 ≤ l → r < Z.of_nat (length ps) → 4 ≤ r - l + 1 →
  Z.of_nat (length ps) ≤ 10 * (r - l + 1) →
  (∀ i, l ≤ i ≤ r → ∃ p, ps !! Z.to_nat i = Some p ∧ bright_pixel thresh p = true) →
  let data := flat_map pixel_bytes ps in
  line_scan data thresh len (indices (Z.of_nat (length data)) (4 * 4)) 0 0 = false.
Proof.
  intros Hl Hr Hspan Htenth Hbright data. apply line_scan_bright.
  unfold data. rewrite length_pixel_bytes, Nat2Z.inj_mul.
  set (n := Z.of_nat (length ps)) in *. unfold indices.
  change (Z.of_nat 4) with 4.
  set (A := (4 * n + 4 * 4 - 1) `div` (4 * 4)).
  set (B := (l + 3) `div` 4). set (C := r `div` 4 - B + 1).
  assert (0 ≤ B ∧ 0 ≤ C ∧ B + C ≤ A ∧ A ≤ 50 * C
          ∧ ∀ k, B ≤ k < B + C → l ≤ 4 * k ≤ r) as (HB & HC & HBC & HA & Hk).
  { unfold C, B, A. split_and!; Z.div_mod_to_equations; lia. }
  replace A with (B + (C + (A - B - C))) by lia.
  rewrite (seqZ_app 0 B) by lia. rewrite (seqZ_app (0 + B) C) by lia.
  rewrite !fmap_app, !length_app, !length_fmap, !length_seqZ.
  pose proof (filter_length_middle (bright (flat_map pixel_bytes ps) thresh)
                ((λ k, k * (4 * 4)) <$> seqZ 0 B)
                ((λ k, k * (4 * 4)) <$> seqZ (0 + B) C)
                ((λ k, k * (4 * 4)) <$> seqZ (0 + B + C) (A - B - C))) as Hmid.
  rewrite length_fmap, length_seqZ in Hmid.
  assert (Forall (λ i, bright (flat_map pixel_bytes ps) thresh i = true)
            ((λ k, k * (4 * 4)) <$> seqZ (0 + B) C)) as Hall.
  { apply Forall_forall. intros i Hi.
    apply list_elem_of_fmap in Hi as (k & -> & Hin).
    apply elem_of_seqZ in Hin.
    replace (k * (4 * 4)) with (4 * (4 * k)) by lia.
    rewrite bright_pixel_at by lia.
    destruct (Hbright (4 * k)) as (p & -> & Hp); [apply Hk; lia | done]. }
  specialize (Hmid Hall). lia.
Qed.

(** A line of dark pixels tests background. *)
Lemma line_scan_dark_line (ps : list Pixel) thresh len :
  ps ≠ [] → Forall (λ p, bright_pixel thresh p = false) ps →
  let data := flat_map pixel_bytes ps in
  line_scan data thresh len (indices (Z.of_nat (length data)) (4 * 4)) 0 0 = true.
Proof.
  intros Hne Hdark data. rewrite line_scan_dark.
  - unfold ratio_below_2pct.
    assert (indices (Z.of_nat (length data)) (4 * 4) ≠ []) as Hidx.
    { apply indices_nonempty; [lia |]. unfold data. rewrite length_pixel_bytes.
      destruct ps; [done | simpl; lia]. }
    destruct (indices (Z.of_nat (length data)) (4 * 4)); [done |]. simpl length.
    destruct (Z.eqb_spec (0 + Z.of_nat (S (length l))) 0); [lia |].
    apply Z.ltb_lt. lia.
  - apply Forall_forall. intros i Hi. apply elem_of_indices in Hi as [Hi Hmod]; [| lia].
    assert (i = 4 * (i `div` 4)) as ->.
    { clear -Hmod. change (4 * 4) with 16 in Hmod. Z.div_mod_to_equations. lia. }
    unfold data. rewrite bright_pixel_at by (apply Z.div_pos; lia).
    destruct (_ !! _) as [p |] eqn:Hp; [| done].
    apply list_elem_of_lookup_2 in Hp. rewrite Forall_forall in Hdark. by apply Hdark.
Qed.

Lemma elem_of_rect_pixels_range c sx sy sw sh p :
  p ∈ rect_pixels c sx sy sw sh →
  ∃ i j, 0 ≤ i < sw ∧ 0 ≤ j < sh ∧ p = pixel_at c (sx + i) (sy + j).
Proof.
  unfold rect_pixels. intros Hp.
  apply list_elem_of_In, in_flat_map in Hp as (j & Hj & Hp).
  apply list_elem_of_In, elem_of_seqZ in Hj.
  apply list_elem_of_In, list_elem_of_fmap in Hp as (i & -> & Hi).
  apply elem_of_seqZ in Hi. exists i, j. split_and!; done || lia.
Qed.

Lemma rect_pixels_nonempty c sx sy sw sh :
  0 < sw → 0 < sh → rect_pixels c sx sy sw sh ≠ [].
Proof.
  intros Hw Hh Hnil. pose proof (length_rect_pixels c sx sy sw sh) as Hlen.
  rewrite Hnil in Hlen. simpl in Hlen. nia.
Qed.

Lemma pixel_at_inside c px py :
  0 ≤ px < width c → 0 ≤ py < height c → pixel_at c px py = pix c px py.
Proof.
  intros Hpx Hpy. unfold pixel_at, inside.
  repeat match goal with |- context [?a <=? ?b] =>
    destruct (Z.leb_spec a b); [| lia] end.
  repeat match goal with |- context [?a <? ?b] =>
    destruct (Z.ltb_spec a b); [| lia] end.
  done.
Qed.

(** The tests of a row and of a column, by the pixels of the line. *)
Lemma isRowBlack_dark_row c thresh y :
  0 < width c →
  (∀ px, 0 ≤ px < width c → bright_pixel thresh (pixel_at c px y) = false) →
  isRowBlack c thresh y = Ok true.
Proof.
  intros Hw Hdark. unfold isRowBlack, getImageData.
  destruct (Z.eqb_spec (width c) 0); [lia |]. simpl.
  rewrite line_scan_dark_line; [done | apply rect_pixels_nonempty; lia |].
  apply Forall_forall. intros p (i & j & Hi & Hj & ->)%elem_of_rect_pixels_range.
  replace j with 0 by lia. rewrite Z.add_0_r, Z.add_0_l. by apply Hdark.
Qed.

Lemma isColBlack_dark_col c thresh x :
  0 < height c →
  (∀ py, 0 ≤ py < height c → bright_pixel thresh (pixel_at c x py) = false) →
  isColBlack c thresh x = Ok true.
Proof.
  intros Hh Hdark. unfold isColBlack, getImageData.
  destruct (Z.eqb_spec (height c) 0); [lia |]. simpl.
  rewrite line_scan_dark_line; [done | apply rect_pixels_nonempty; lia |].
  apply Forall_forall. intros p (i & j & Hi & Hj & ->)%elem_of_rect_pixels_range.
  replace i with 0 by lia. rewrite Z.add_0_r, Z.add_0_l. by apply Hdark.
Qed.

Lemma isRowBlack_bright_span c thresh y l r :
  0 ≤ l → r < width c → 4 ≤ r - l + 1 → width c ≤ 10 * (r - l + 1) →
  (∀ px, l ≤ px ≤ r → bright_pixel thresh (pixel_at c px y) = true) →
  isRowBlack c thresh y = Ok false.
Proof.
  intros Hl Hr Hspan Htenth Hbright. unfold isRowBlack, getImageData.
  destruct (Z.eqb_spec (width c) 0); [lia |]. simpl.
  rewrite (line_scan_bright_span _ thresh _ l r); [done | done | | done | |].
  - rewrite length_rect_pixels; lia.
  - rewrite length_rect_pixels; lia.
  - intros i Hi. exists (pixel_at c i y). split; [| by apply Hbright].
    pose proof (lookup_rect_pixels c 0 y (width c) 1 i 0) as Hlook.
    rewrite Z.mul_0_l, !Z.add_0_l, Z.add_0_r in Hlook. apply Hlook; lia.
Qed.

Lemma isColBlack_bright_span c thresh x t b :
  0 ≤ t → b < height c → 4 ≤ b - t + 1 → height c ≤ 10 * (b - t + 1) →
  (∀ py, t ≤ py ≤ b → bright_pixel thresh (pixel_at c x py) = true) →
  isColBlack c thresh x = Ok false.
Proof.
  intros Ht Hb Hspan Htenth Hbright. unfold isColBlack, getImageData.
  destruct (Z.eqb_spec (height c) 0); [lia |]. simpl.
  rewrite (line_scan_bright_span _ thresh _ t b); [done | done | | done | |].
  - rewrite length_rect_pixels; lia.
  - rewrite length_rect_pixels; lia.
  - intros j Hj. exists (pixel_at c x j). split; [| by apply Hbright].
    pose proof (lookup_rect_pixels c x 0 1 (height c) 0 j) as Hlook.
    rewrite Z.mul_1_r, !Z.add_0_r, Z.add_0_l in Hlook. apply Hlook; lia.
Qed.

(** Cropping a canvas that is dark except for a rectangle of bright pixels. *)
Lemma cropBlackEdges_rectangle c l t r b :
  ctx2d c = true →
  0 ≤ l → r < width c → 0 ≤ t → b < height c →
  4 ≤ r - l + 1 → 4 ≤ b - t + 1 →
  width c ≤ 10 * (r - l + 1) → height c ≤ 10 * (b - t + 1) →
  (∀ px py, 0 ≤ px < width c → 0 ≤ py < height c →
     bright_pixel 25 (pix c px py)
     = (l <=? px) && (px <=? r) && (t <=? py) && (py <=? b)) →
  cropBlackEdges true c =
  Ok (if (t =? 0) && (b =? height c - 1) && (l =? 0) && (r =? width c - 1) then c
      else drawRegion (createCanvas (r - l + 1) (b - t + 1) true)
             c l t (r - l + 1) (b - t + 1)).
Proof.
  intros Hctx Hl Hr Ht Hb Hspanx Hspany Htenthx Htenthy Hpix.
  assert (∀ px py, 0 ≤ px < width c → 0 ≤ py < height c →
            bright_pixel 25 (pixel_at c px py)
            = (l <=? px) && (px <=? r) && (t <=? py) && (py <=? b)) as Hat.
  { intros px py Hpx Hpy. rewrite pixel_at_inside by done. by apply Hpix. }
  assert (∀ y, 0 ≤ y < height c → isRowBlack c 25 y = Ok (negb ((t <=? y) && (y <=? b))))
    as Hrow.
  { intros y Hy. destruct (Z.leb_spec t y), (Z.leb_spec y b); simpl.
    - apply (isRowBlack_bright_span c 25 y l r); [done.. |].
      intros px Hpx. rewrite Hat by lia.
      destruct (Z.leb_spec l px), (Z.leb_spec px r), (Z.leb_spec t y), (Z.leb_spec y b);
        simpl; lia || done.
    - apply isRowBlack_dark_row; [lia |]. intros px Hpx. rewrite Hat by lia.
      destruct (Z.leb_spec y b); [lia |]. by rewrite andb_false_r.
    - apply isRowBlack_dark_row; [lia |]. intros px Hpx. rewrite Hat by lia.
      destruct (Z.leb_spec t y); [lia |]. by rewrite andb_false_r.
    - lia. }
  assert (∀ x, 0 ≤ x < width c → isColBlack c 25 x = Ok (negb ((l <=? x) && (x <=? r))))
    as Hcol.
  { intros x Hx. destruct (Z.leb_spec l x), (Z.leb_spec x r); simpl.
    - apply (isColBlack_bright_span c 25 x t b); [done.. |].
      intros py Hpy. rewrite Hat by lia.
      destruct (Z.leb_spec l x), (Z.leb_spec x r), (Z.leb_spec t py), (Z.leb_spec py b);
        simpl; lia || done.
    - apply isColBlack_dark_col; [lia |]. intros py Hpy. rewrite Hat by lia.
      destruct (Z.leb_spec x r); [lia |]. by rewrite andb_false_r.
    - apply isColBlack_dark_col; [lia |]. intros py Hpy. rewrite Hat by lia.
      destruct (Z.leb_spec l x); [lia |]. done.
    - lia. }
  assert (∀ v, 0 ≤ v < height c → (t ≤ v ≤ b → isRowBlack c 25 v = Ok false)
                                  ∧ (¬ t ≤ v ≤ b → isRowBlack c 25 v = Ok true)) as Hrow'.
  { intros v Hv. rewrite Hrow by done.
    destruct (Z.leb_spec t v), (Z.leb_spec v b); simpl; split; intros; done || lia. }
  assert (∀ v, 0 ≤ v < width c → (l ≤ v ≤ r → isColBlack c 25 v = Ok false)
                                 ∧ (¬ l ≤ v ≤ r → isColBlack c 25 v = Ok true)) as Hcol'.
  { intros v Hv. rewrite Hcol by done.
    destruct (Z.leb_spec l v), (Z.leb_spec v r); simpl; split; intros; done || lia. }
  unfold cropBlackEdges. rewrite Hctx. simpl.
  rewrite (scan_up_to _ _ 0 _ t);
    [| intros; apply Hrow'; lia | apply Hrow'; lia | lia | lia]. simpl.
  rewrite (scan_down_to _ _ _ _ b);
    [| intros; apply Hrow'; lia | apply Hrow'; lia | lia | lia]. simpl.
  rewrite (scan_up_to _ _ 0 _ l);
    [| intros; apply Hcol'; lia | apply Hcol'; lia | lia | lia]. simpl.
  rewrite (scan_down_to _ _ _ _ r);
    [| intros; apply Hcol'; lia | apply Hcol'; lia | lia | lia]. simpl.
  destruct (Z.ltb_spec b t); [lia |]. destruct (Z.ltb_spec r l); [lia |]. simpl.
  by destruct ((t =? 0) && (b =? height c - 1) && (l =? 0) && (r =? width c - 1)).
Qed.

(** X14: a canvas that is dark except for a rectangle of bright pixels, at
    least 4 pixels and at least a tenth of the canvas in width and in
    height, is cropped to exactly that rectangle (and returned as it is when
    the rectangle is the whole canvas). *)
Theorem cropBlackEdges_bright_rectangle c l t r b :
  ctx2d c = true →
  0 ≤ l → r < width c → 0 ≤ t → b < height c →
  4 ≤ r - l + 1 → 4 ≤ b - t + 1 →
  width c ≤ 10 * (r - l + 1) → height c ≤ 10 * (b - t + 1) →
  (∀ px py, 0 ≤ px < width c → 0 ≤ py < height c →
     bright_pixel 25 (pix c px py)
     = (l <=? px) && (px <=? r) && (t <=? py) && (py <=? b)) →
  cropBlackEdges true c =
  Ok (if (t =? 0) && (b =? height c - 1) && (l =? 0) && (r =? width c - 1) then c
      else drawRegion (createCanvas (r - l + 1) (b - t + 1) true)
             c l t (r - l + 1) (b - t + 1)).
Proof. apply cropBlackEdges_rectangle. Qed.

Lemma cropBlackEdges_bright_rectangle_witness :
  cropBlackEdges true framed =
  Ok (if (1 =? 0) && (4 =? height framed - 1) && (1 =? 0) && (4 =? width framed - 1)
      then framed
      else drawRegion (createCanvas (4 - 1 + 1) (4 - 1 + 1) true)
             framed 1 1 (4 - 1 + 1) (4 - 1 + 1)).
Proof.
  apply (cropBlackEdges_bright_rectangle framed 1 1 4 4);
    [reflexivity | simpl; lia.. |].
  intros px py _ _. simpl.
  by destruct ((1 <=? px) && (px <=? 4) && (1 <=? py) && (py <=? 4)).
Defined.

(** ** Idempotence of the border cropper on rectangles *)

(** The sampling loop on a line of bright pixels. *)
Lemma line_scan_bright_line (ps : list Pixel) thresh len :
  Forall (λ p, bright_pixel thresh p = true) ps →
  let data := flat_map pixel_bytes ps in
  line_scan data thresh len (indices (Z.of_nat (length data)) (4 * 4)) 0 0 = false.
Proof.
  intros Hbright data. apply line_scan_bright.
  assert (List.filter (bright data thresh) (indices (Z.of_nat (length data)) (4 * 4))
          = indices (Z.of_nat (length data)) (4 * 4)) as ->; [| lia].
  assert (Forall (λ i, bright data thresh i = true)
            (indices (Z.of_nat (length data)) (4 * 4))) as Hall.
  { apply Forall_forall. intros i Hi. apply elem_of_indices in Hi as [Hi Hmod]; [| lia].
    assert (i = 4 * (i `div` 4)) as Heq.
    { clear -Hmod. change (4 * 4) with 16 in Hmod. Z.div_mod_to_equations. lia. }
    unfold data in Hi. rewrite length_pixel_bytes in Hi.
    rewrite Heq. unfold data. rewrite bright_pixel_at by (apply Z.div_pos; lia).
    destruct (lookup_lt_is_Some_2 ps (Z.to_nat (i `div` 4))) as [p Hp]; [lia |].
    rewrite Hp. rewrite Forall_forall in Hbright.
    by apply Hbright, list_elem_of_lookup_2 with (Z.to_nat (i `div` 4)). }
  induction Hall as [| i idxs Hi _ IH]; [done |]. simpl. simpl in Hi. by rewrite Hi, IH.
Qed.

Lemma isRowBlack_bright_row c thresh y :
  0 < width c →
  (∀ px, 0 ≤ px < width c → bright_pixel thresh (pixel_at c px y) = true) →
  isRowBlack c thresh y = Ok false.
Proof.
  intros Hw Hbright. unfold isRowBlack, getImageData.
  destruct (Z.eqb_spec (width c) 0); [lia |]. simpl.
  rewrite line_scan_bright_line; [done |].
  apply Forall_forall. intros p (i & j & Hi & Hj & ->)%elem_of_rect_pixels_range.
  replace j with 0 by lia. rewrite Z.add_0_r, Z.add_0_l. by apply Hbright.
Qed.

Lemma isColBlack_bright_col c thresh x :
  0 < height c →
  (∀ py, 0 ≤ py < height c → bright_pixel thresh (pixel_at c x py) = true) →
  isColBlack c thresh x = Ok false.
Proof.
  intros Hh Hbright. unfold isColBlack, getImageData.
  destruct (Z.eqb_spec (height c) 0); [lia |]. simpl.
  rewrite line_scan_bright_line; [done |].
  apply Forall_forall. intros p (i & j & Hi & Hj & ->)%elem_of_rect_pixels_range.
  replace i with 0 by lia. rewrite Z.add_0_r, Z.add_0_l. by apply Hbright.
Qed.

(** A canvas of bright pixels is returned as it is. *)
Lemma cropBlackEdges_bright cctx c :
  0 < width c → 0 < height c →
  (∀ px py, 0 ≤ px < width c → 0 ≤ py < height c →
     bright_pixel 25 (pixel_at c px py) = true) →
  cropBlackEdges cctx c = Ok c.
Proof.
  intros Hw Hh Hbright. apply cropBlackEdges_no_trim; [done | done | ..].
  - apply isRowBlack_bright_row; [done |]. intros px Hpx. apply Hbright; lia.
  - apply isRowBlack_bright_row; [done |]. intros px Hpx. apply Hbright; lia.
  - apply isColBlack_bright_col; [done |]. intros py Hpy. apply Hbright; lia.
  - apply isColBlack_bright_col; [done |]. intros py Hpy. apply Hbright; lia.
Qed.

(** A row or a column that does not test background has a bright pixel. *)
Lemma isRowBlack_false_bright c thresh y :
  0 < width c → isRowBlack c thresh y = Ok false →
  ∃ px, 0 ≤ px < width c ∧ bright_pixel thresh (pixel_at c px y) = true.
Proof.
  intros Hw Htest.
  destruct (decide (Forall (λ px, bright_pixel thresh (pixel_at c px y) = false)
                      (seqZ 0 (width c)))) as [Hall | Hex].
  - rewrite isRowBlack_dark_row in Htest; [done | done |].
    intros px Hpx. rewrite Forall_forall in Hall. apply Hall, elem_of_seqZ. lia.
  - apply not_Forall_Exists in Hex; [| intros px; apply _].
    apply Exists_exists in Hex as (px & Hpx%elem_of_seqZ & Hbright).
    exists px. split; [lia |]. simpl in Hbright. by apply not_false_iff_true.
Qed.

Lemma isColBlack_false_bright c thresh x :
  0 < height c → isColBlack c thresh x = Ok false →
  ∃ py, 0 ≤ py < height c ∧ bright_pixel thresh (pixel_at c x py) = true.
Proof.
  intros Hh Htest.
  destruct (decide (Forall (λ py, bright_pixel thresh (pixel_at c x py) = false)
                      (seqZ 0 (height c)))) as [Hall | Hex].
  - rewrite isColBlack_dark_col in Htest; [done | done |].
    intros py Hpy. rewrite Forall_forall in Hall. apply Hall, elem_of_seqZ. lia.
  - apply not_Forall_Exists in Hex; [| intros py; apply _].
    apply Exists_exists in Hex as (py & Hpy%elem_of_seqZ & Hbright).
    exists py. split; [lia |]. simpl in Hbright. by apply not_false_iff_true.
Qed.

(** C4, amended: applying [cropBlackEdges] to its own output yields that
    output unchanged for every canvas whose bright pixels (red, green or
    blue above 25) are exactly the pixels of one rectangle, whatever the
    size and the place of the rectangle and whether or not the canvases
    obtain their contexts: an all-dark canvas (an empty rectangle), a
    canvas of bright pixels, and bright content surrounded by dark
    padding. *)
Theorem cropBlackEdges_idempotent_rectangle cctx c l t r b :
  0 < width c → 0 < height c →
  (∀ px py, 0 ≤ px < width c → 0 ≤ py < height c →
     bright_pixel 25 (pix c px py)
     = (l <=? px) && (px <=? r) && (t <=? py) && (py <=? b)) →
  ∃ out, cropBlackEdges cctx c = Ok out ∧ cropBlackEdges cctx out = Ok out.
Proof.
  intros Hw Hh Hpix.
  destruct (ctx2d c) eqn:Hctx; last first.
  { exists c. unfold cropBlackEdges. rewrite Hctx. by split. }
  destruct (cropBlackEdges_scans cctx c Hw Hh Hctx)
    as (top & bottom & left & right & Htop & Hbottom & Hleft & Hright
        & ? & ? & ? & ? & Hcrop).
  destruct (Z.ltb_spec bottom top); [exists c; by rewrite Hcrop |].
  destruct (Z.ltb_spec right left); [exists c; by rewrite Hcrop |]. simpl in Hcrop.
  destruct ((top =? 0) && (bottom =? height c - 1) && (left =? 0)
            && (right =? width c - 1)); [exists c; by rewrite Hcrop |].
  destruct cctx; [| exists c; by rewrite Hcrop].
  apply scan_up_exit in Htop as [? | Htop]; [lia | | lia].
  apply scan_down_exit in Hbottom as [? | Hbottom]; [lia | | lia].
  apply scan_up_exit in Hleft as [? | Hleft]; [lia | | lia].
  apply scan_down_exit in Hright as [? | Hright]; [lia | | lia].
  assert (∀ px py, 0 ≤ px < width c → 0 ≤ py < height c →
            bright_pixel 25 (pixel_at c px py) = true →
            l ≤ px ≤ r ∧ t ≤ py ≤ b) as Hin.
  { intros px py Hpx Hpy. rewrite pixel_at_inside, Hpix by done.
    destruct (Z.leb_spec l px), (Z.leb_spec px r), (Z.leb_spec t py), (Z.leb_spec py b);
      simpl; done || lia. }
  apply isRowBlack_false_bright in Htop as (px1 & ? & Hb1); [| done].
  apply isRowBlack_false_bright in Hbottom as (px2 & ? & Hb2); [| done].
  apply isColBlack_false_bright in Hleft as (py1 & ? & Hb3); [| done].
  apply isColBlack_false_bright in Hright as (py2 & ? & Hb4); [| done].
  apply Hin in Hb1; [| lia..]. apply Hin in Hb2; [| lia..].
  apply Hin in Hb3; [| lia..]. apply Hin in Hb4; [| lia..].
  eexists. split; [exact Hcrop |].
  destruct (subregion_drawRegion c left top (right - left + 1) (bottom - top + 1) true)
    as (_ & _ & _ & _ & _ & _ & Hsub); [lia.. |].
  apply cropBlackEdges_bright; [simpl; lia | simpl; lia |].
  intros px py Hpx Hpy. simpl in Hpx, Hpy. rewrite Hsub by (simpl; lia).
  rewrite pixel_at_inside, Hpix by lia.
  destruct (Z.leb_spec l (left + px)), (Z.leb_spec (left + px) r),
           (Z.leb_spec t (top + py)), (Z.leb_spec (top + py) b); simpl; done || lia.
Qed.

Lemma cropBlackEdges_idempotent_rectangle_witness :
  ∃ out, cropBlackEdges true framed = Ok out ∧ cropBlackEdges true out = Ok out.
Proof.
  apply (cropBlackEdges_idempotent_rectangle true framed 1 1 4 4);
    [simpl; lia | simpl; lia |].
  intros px py _ _. simpl.
  by destruct ((1 <=? px) && (px <=? 4) && (1 <=? py) && (py <=? 4)).
Defined.

(** ** Cropping the composite *)

Lemma composite_context env grid (images : gmap string (option Image)) canvas :
  composite env grid images = Ok canvas →
  ctx2d canvas = true
  ∧ width canvas = Grid.x grid * 512 ∧ height canvas = Grid.y grid * 512.
Proof.
  unfold composite. destruct (stitch_ctx env); simpl; [| done]. intros [= <-].
  induction (grid_coords grid) as [| coord l IH] using rev_ind; [done |].
  rewrite fold_left_app. simpl. by destruct (images !! key coord) as [[] |].
Qed.

(** X15: on a zoom level of the catalog, when the tiles of the rows above
    row [k] are absent and every other tile is a 512 x 512 image of bright
    pixels, the border cropper removes exactly the [k * 512] rows of the
    absent tiles from the composite. *)
Theorem stitch_crops_absent_rows env sched panoId grid canvas k :
  grid ∈ GRID_SIZES →
  composite env grid (images (downloadTiles env sched panoId (Grid.zoom grid) grid))
  = Ok canvas →
  0 ≤ k < Grid.y grid →
  (∀ coord, coord ∈ grid_coords grid → Coord.y coord < k →
     tile_entry env panoId (Grid.zoom grid) coord = None) →
  (∀ coord, coord ∈ grid_coords grid → k ≤ Coord.y coord →
     ∃ img, tile_entry env panoId (Grid.zoom grid) coord = Some img
       ∧ img_width img = 512 ∧ img_height img = 512
       ∧ ∀ i j, 0 ≤ i < 512 → 0 ≤ j < 512 → bright_pixel 25 (img_pix img i j) = true) →
  cropBlackEdges true canvas =
  Ok (if k =? 0 then canvas
      else drawRegion
             (createCanvas (Grid.x grid * 512) ((Grid.y grid - k) * 512) true)
             canvas 0 (k * 512) (Grid.x grid * 512) ((Grid.y grid - k) * 512)).
Proof.
  intros Hin Hcomposite Hk Habsent Hbright.
  destruct (grid_positive grid Hin) as [Hx Hy].
  destruct (composite_context _ _ _ _ Hcomposite) as (Hctx & Hw & Hh).
  assert (Grid.y grid ≤ 8) as Hy8.
  { revert Hin. unfold GRID_SIZES.
    intros [-> | [-> | ?%not_elem_of_nil]%elem_of_cons]%elem_of_cons; simpl; lia || done. }
  rewrite (cropBlackEdges_rectangle canvas 0 (k * 512) (width canvas - 1)
             (height canvas - 1)); [| done | lia..|].
  - rewrite !Z.eqb_refl, andb_true_r. simpl.
    destruct (Z.eqb_spec k 0) as [-> | Hk0].
    + done.
    + destruct (Z.eqb_spec (k * 512) 0); [lia |].
      rewrite Hw, Hh. do 3 f_equal; lia.
  - intros px py Hpx Hpy.
    set (coord := {| Coord.x := px `div` 512; Coord.y := py `div` 512 |}).
    assert (px = Coord.x coord * 512 + px `mod` 512
            ∧ py = Coord.y coord * 512 + py `mod` 512) as [Hpx' Hpy'].
    { simpl. pose proof (Z.div_mod px 512). pose proof (Z.div_mod py 512). lia. }
    pose proof (Z.mod_pos_bound px 512 ltac:(lia)) as Hi.
    pose proof (Z.mod_pos_bound py 512 ltac:(lia)) as Hj.
    assert (coord ∈ grid_coords grid) as Hcoord.
    { apply elem_of_grid_coords. simpl. split.
      - split; [apply Z.div_pos; lia | apply Z.div_lt_upper_bound; lia].
      - split; [apply Z.div_pos; lia | apply Z.div_lt_upper_bound; lia]. }
    rewrite <- (pixel_at_inside canvas px py) by done.
    rewrite Hpx' at 1. rewrite Hpy' at 1.
    rewrite (stitch_places_tiles_pixel env sched panoId grid canvas coord
               (px `mod` 512) (py `mod` 512)); [| done.. | | done | done].
    + destruct (Z.leb_spec 0 px); [| lia].
      destruct (Z.leb_spec px (width canvas - 1)); [| lia].
      destruct (Z.leb_spec py (height canvas - 1)); [| lia]. simpl.
      rewrite andb_true_r.
      destruct (Z.leb_spec (k * 512) py) as [Hrow | Hrow].
      * destruct (Hbright coord Hcoord) as (img & -> & Hiw & Hih & Himg).
        { simpl. apply Z.div_le_lower_bound; lia. }
        rewrite Hiw, Hih. unfold inside.
        repeat match goal with |- context [?a <=? ?b] =>
          destruct (Z.leb_spec a b); [| lia] end.
        repeat match goal with |- context [?a <? ?b] =>
          destruct (Z.ltb_spec a b); [| lia] end.
        simpl. by apply Himg.
      * rewrite Habsent; [done | done |].
        simpl. apply Z.div_lt_upper_bound; lia.
    + intros coord' img Hcoord' Hentry.
      destruct (decide (k ≤ Coord.y coord')) as [Hge | Hlt].
      * destruct (Hbright coord' Hcoord' Hge) as (img' & Himg' & Hiw & Hih & _).
        rewrite Hentry in Himg'. injection Himg' as <-. lia.
      * rewrite Habsent in Hentry by (done || lia). done.
Qed.

(** An image whose pixels are all bright is not classified blank. *)
Lemma isTileBlack_all_bright img :
  0 < img_width img → 0 < img_height img →
  (∀ px py, 0 ≤ px < img_width img → 0 ≤ py < img_height img →
     bright_pixel 25 (img_pix img px py) = true) →
  isTileBlack true img = Ok false.
Proof.
  intros Hw Hh Hbright. rewrite isTileBlack_sampled by done. f_equal.
  assert (count_bright 25 (every_nth 16 (row_major img))
          = Z.of_nat (length (every_nth 16 (row_major img)))) as ->.
  { unfold count_bright. f_equal. f_equal.
    assert (Forall (λ p, bright_pixel 25 p = true) (every_nth 16 (row_major img)))
      as Hall.
    { apply Forall_forall. intros p Hp%elem_of_every_nth%elem_of_row_major.
      destruct Hp as (px & py & Hpx & Hpy & ->). by apply Hbright. }
    induction Hall as [| p l Hp _ IH]; [done |]. simpl. by rewrite Hp, IH. }
  unfold ratio_below_2pct. destruct (_ =? 0); [done |]. apply Z.ltb_ge. lia.
Qed.

Lemma top_row_missing_entry coord :
  coord ∈ grid_coords zoom3 →
  tile_entry top_row_missing "pano" 3 coord
  = if Coord.y coord =? 0 then None else Some white_tile.
Proof.
  intros Hin. unfold tile_entry.
  assert (fetchTileWithRetry top_row_missing (tileUrl "pano" coord 3) 2
          = if Coord.y coord =? 0
            then Throw (TileLoadFailed (tileUrl "pano" coord 3))
            else Ok white_tile) as ->.
  { apply list_elem_of_In in Hin. vm_compute in Hin.
    repeat (destruct Hin as [<- | Hin]; [by vm_compute |]). done. }
  destruct (Coord.y coord =? 0); [done |].
  rewrite isTileBlack_all_bright; [done | simpl; lia.. | done].
Qed.

Lemma stitch_crops_absent_rows_witness :
  cropBlackEdges true top_row_missing_composite =
  Ok (if 1 =? 0 then top_row_missing_composite
      else drawRegion (createCanvas (8 * 512) ((4 - 1) * 512) true)
             top_row_missing_composite 0 (1 * 512) (8 * 512) ((4 - 1) * 512)).
Proof.
  apply (stitch_crops_absent_rows top_row_missing [] "pano" zoom3
           top_row_missing_composite 1).
  - apply (bool_decide_unpack _). reflexivity.
  - apply composite_value. reflexivity.
  - simpl. lia.
  - intros coord Hin Hy. rewrite top_row_missing_entry by done.
    apply elem_of_grid_coords in Hin.
    by destruct (Z.eqb_spec (Coord.y coord) 0); [| lia].
  - intros coord Hin Hy. rewrite top_row_missing_entry by done.
    destruct (Z.eqb_spec (Coord.y coord) 0); [lia |].
    exists white_tile. split_and!; done.
Defined.

(** ** The catalog and the job *)

Lemma resolution_grid r :
  r ∈ getAvailableResolutions →
  ∃ grid, grid ∈ GRID_SIZES
    ∧ res_zoom r = Grid.zoom grid
    ∧ res_width r = Grid.x grid * 512
    ∧ res_height r = Grid.y grid * 512
    ∧ res_tileCount r = Grid.x grid * Grid.y grid.
Proof.
  unfold getAvailableResolutions, GRID_SIZES. simpl.
  intros [-> | [-> | ?%not_elem_of_nil]%elem_of_cons]%elem_of_cons; [| | done].
  - eexists. split; [left |]. done.
  - eexists. split; [right; left |]. done.
Qed.

(** The output of a job is at most as large as the grid. *)
Lemma stitch_output_size env sched panoId grid out :
  grid ∈ GRID_SIZES →
  (stitchStreetViewImage env sched panoId (Grid.zoom grid)).2 = Ok out →
  0 < width out ≤ Grid.x grid * 512 ∧ 0 < height out ≤ Grid.y grid * 512.
Proof.
  intros Hin. rewrite stitch_at_grid by done. cbn zeta. cbn [snd].
  destruct (grid_positive grid Hin) as [Hx Hy].
  destruct (composite env grid _) as [canvas | e] eqn:Hcomposite; [| done].
  destruct (composite_context _ _ _ _ Hcomposite) as (_ & Hw & Hh). cbn [bind].
  destruct (cropBlackEdges_cases (crop_ctx env) canvas) as (cropped & -> & Hcrop);
    [lia.. |]. cbn [bind].
  destruct (removeHorizontalWrap_cases (wrap_ctx env) cropped) as (out' & -> & Hwrap).
  intros [= ->].
  assert (0 < width cropped ≤ width canvas ∧ 0 < height cropped ≤ height canvas)
    as [Hcw Hch].
  { destruct Hcrop as [-> | (left & top & Hsub & _)]; [lia |].
    destruct Hsub as (? & ? & ? & ? & ? & ? & _). lia. }
  destruct Hwrap as [-> | (? & ? & Hsub)]; [lia |].
  destruct Hsub as (? & ? & ? & ? & ? & ? & _). lia.
Qed.

(** X16: every resolution that [getAvailableResolutions] offers is accepted
    by [stitchStreetViewImage]: the job never throws the invalid zoom error,
    it starts as many fetches as the entry's [tileCount] and its last
    progress report is [{tileCount, tileCount}]; the image it returns is at
    most [width] x [height] pixels, the size the entry announces. *)
Theorem resolutions_are_stitchable env sched panoId r :
  r ∈ getAvailableResolutions →
  let outcome := stitchStreetViewImage env sched panoId (res_zoom r) in
  (∀ zoom, outcome.2 ≠ Throw (InvalidZoom zoom))
  ∧ Z.of_nat (length (fetch_events outcome.1)) = res_tileCount r
  ∧ last (progress_events outcome.1)
    = Some {| loaded := res_tileCount r; total := res_tileCount r |}
  ∧ ∀ out, outcome.2 = Ok out →
      0 < width out ≤ res_width r ∧ 0 < height out ≤ res_height r.
Proof.
  intros (grid & Hin & -> & -> & -> & ->)%resolution_grid. cbn zeta.
  destruct (grid_positive grid Hin) as [Hx Hy].
  pose proof (grid_keys_NoDup grid Hin) as Hkeys.
  destruct (stitch_result env sched panoId grid Hin) as [Hok Hthrow].
  split_and!.
  - intros zoom Hzoom. destruct (stitch_ctx env).
    + destruct Hok as [canvas Hcanvas]; [done |]. congruence.
    + rewrite Hthrow in Hzoom by done. discriminate Hzoom.
  - rewrite stitch_at_grid by done. cbn zeta. cbn [fst].
    pose proof (downloadTiles_reachable env sched panoId (Grid.zoom grid) grid) as Hreach.
    destruct (reachable_pool_inv _ _ _ _ _ Hkeys Hreach) as [_ Hfetch _].
    rewrite (finished_queue_empty env panoId (Grid.zoom grid) (grid_coords grid))
      in Hfetch;
      [| by apply reachable_inv
       | by apply (downloadTiles_joined env sched panoId (Grid.zoom grid) grid)].
    rewrite app_nil_r in Hfetch. rewrite Hfetch, length_fmap.
    apply length_grid_coords; lia.
  - rewrite stitch_at_grid by done. cbn zeta. cbn [fst].
    destruct (downloadTiles_joined env sched panoId (Grid.zoom grid) grid Hkeys)
      as (_ & _ & -> & _).
    rewrite length_grid_coords by lia.
    rewrite last_lookup, length_progress_upto by nia. simpl.
    rewrite lookup_progress_upto by lia. do 2 f_equal; lia.
  - intros out Hout. by apply (stitch_output_size env sched panoId grid).
Qed.

Lemma resolutions_are_stitchable_witness :
  let r := {| res_zoom := 3; res_width := 4096; res_height := 2048;
              res_label := "High"; res_tileCount := 32 |} in
  let outcome := stitchStreetViewImage offline [] "pano" (res_zoom r) in
  (∀ zoom, outcome.2 ≠ Throw (InvalidZoom zoom))
  ∧ Z.of_nat (length (fetch_events outcome.1)) = res_tileCount r
  ∧ last (progress_events outcome.1)
    = Some {| loaded := res_tileCount r; total := res_tileCount r |}
  ∧ ∀ out, outcome.2 = Ok out →
      0 < width out ≤ res_width r ∧ 0 < height out ≤ res_height r.
Proof.
  apply (resolutions_are_stitchable offline [] "pano"
           {| res_zoom := 3; res_width := 4096; res_height := 2048;
              res_label := "High"; res_tileCount := 32 |}).
  rewrite resolutions_computed. left.
Defined.

(** * URL parsing *)

Lemma string_app_cons c s t : String c s +:+ t = String c (s +:+ t).
Proof. done. Qed.

Lemma string_app_nil_r s : s +:+ "" = s.
Proof. induction s as [|c s IH]; [done|]. by rewrite string_app_cons, IH. Qed.

Lemma string_app_assoc s t u : (s +:+ t) +:+ u = s +:+ t +:+ u.
Proof. induction s as [|c s IH]; [done|]. by rewrite !string_app_cons, IH. Qed.

Lemma string_length_app s t :
  String.length (s +:+ t) = (String.length s + String.length t)%nat.
Proof. induction s as [|c s IH]; [done|]. rewrite string_app_cons. simpl. by rewrite IH. Qed.

Lemma string_forall_app p s t :
  string_forall p (s +:+ t) = string_forall p s && string_forall p t.
Proof.
  induction s as [|c s IH]; [done|].
  rewrite string_app_cons. simpl. rewrite IH. by destruct (p c).
Qed.

Lemma span_spec p s run tail :
  span p s = (run, tail) →
  s = run +:+ tail ∧ string_forall p run = true ∧ stops p tail.
Proof.
  revert run tail. induction s as [|c s IH]; intros run tail; simpl.
  - by intros [= <- <-].
  - destruct (p c) eqn:Hc.
    + destruct (span p s) as [run' tail'] eqn:Hs. intros [= <- <-].
      destruct (IH _ _ eq_refl) as (-> & Hall & Hstop).
      split_and!; [done| |done]. simpl. by rewrite Hc.
    + intros [= <- <-]. by split_and!.
Qed.

Lemma span_app p run tail :
  string_forall p run = true → stops p tail → span p (run +:+ tail) = (run, tail).
Proof.
  intros Hall Hstop. induction run as [|c run IH].
  - change ("" +:+ tail) with tail. destruct tail as [|d tail]; [done|].
    simpl in *. by rewrite Hstop.
  - rewrite string_app_cons. simpl in *.
    apply andb_true_iff in Hall as [-> Hall]. by rewrite IH.
Qed.

Lemma strip_spec lit s rest : strip lit s = Some rest ↔ s = lit +:+ rest.
Proof.
  revert s. induction lit as [|a lit IH]; intros s; simpl.
  - change ("" +:+ rest) with rest. split; [by intros [= ->]|by intros ->].
  - rewrite string_app_cons. destruct s as [|b s]; [done|].
    destruct (Ascii.eqb_spec a b) as [->|Hne].
    + rewrite IH. split; [by intros ->|by intros [= ->]].
    + split; [done|]. intros [= ? ?]. by destruct Hne.
Qed.

Lemma strip_app lit rest : strip lit (lit +:+ rest) = Some rest.
Proof. by apply strip_spec. Qed.

(** [first_match] returns the match at the leftmost position that has one. *)
Lemma first_match_Some {A} (f : string → option A) s m :
  first_match f s = Some m →
  ∃ pre suf, s = pre +:+ suf ∧ f suf = Some m
    ∧ ∀ p1 p2, pre = p1 +:+ p2 → p2 ≠ EmptyString → f (p2 +:+ suf) = None.
Proof.
  induction s as [|c s IH]; simpl.
  - destruct (f "") eqn:Hf; [|done]. intros [= ->].
    exists "", "". split_and!; [done..|].
    intros [|??] [|??]; by rewrite ?string_app_cons.
  - destruct (f (String c s)) eqn:Hf.
    + intros [= ->]. exists "", (String c s). split_and!; [done..|].
      intros [|??] [|??]; by rewrite ?string_app_cons.
    + intros (pre & suf & -> & Hm & Hleft)%IH.
      exists (String c pre), suf. split_and!; [done..|].
      intros [|d p1] p2; rewrite ?string_app_cons.
      * change ("" +:+ p2) with p2. by intros <- _.
      * intros [= <- ->] ?. by apply (Hleft p1).
Qed.

Lemma first_match_None {A} (f : string → option A) s :
  first_match f s = None ↔ ∀ pre suf, s = pre +:+ suf → f suf = None.
Proof.
  induction s as [|c s IH]; simpl.
  - destruct (f "") eqn:Hf.
    + split; [done|]. intros Hnone. rewrite <- Hf. by apply (Hnone "" "").
    + split; [|done]. intros _ [|??] [|??]; by rewrite ?string_app_cons.
  - destruct (f (String c s)) eqn:Hf.
    + split; [done|]. intros Hnone. rewrite <- Hf. by apply (Hnone "" (String c s)).
    + rewrite IH. split.
      * intros Hnone [|d pre] suf; rewrite ?string_app_cons.
        -- change ("" +:+ suf) with suf. by intros <-.
        -- intros [= <- ->]. by apply (Hnone pre).
      * intros Hnone pre suf ->. by apply (Hnone (String c pre)).
Qed.

(** A position that matches makes [first_match] succeed, at that position
    or to the left of it. *)
Lemma first_match_found {A} (f : string → option A) pre suf :
  is_Some (f suf) →
  ∃ m pre' suf',
    first_match f (pre +:+ suf) = Some m ∧ pre +:+ suf = pre' +:+ suf'
    ∧ f suf' = Some m ∧ (String.length pre' ≤ String.length pre)%nat.
Proof.
  intros [m Hm]. induction pre as [|c pre IH].
  - change ("" +:+ suf) with suf. exists m, "", suf.
    split_and!; [|done..]. destruct suf; simpl; by rewrite Hm.
  - rewrite string_app_cons. simpl.
    destruct (f (String c (pre +:+ suf))) as [m'|] eqn:Hf.
    + exists m', "", (String c (pre +:+ suf)). split_and!; [done..|simpl; lia].
    + destruct IH as (m' & pre' & suf' & Hfirst & Heq & Hm' & Hlen).
      exists m', (String c pre'), suf'. rewrite string_app_cons, <- Heq.
      split_and!; [done..|simpl; lia].
Qed.

Lemma pano_param_spec s id :
  pano_param s = Some id ↔
  ∃ rest, s = "pano=" +:+ id +:+ rest ∧ id ≠ EmptyString
    ∧ string_forall is_id_char id = true ∧ stops is_id_char rest.
Proof.
  unfold pano_param. split.
  - destruct (strip "pano=" s) as [rest|] eqn:Hstrip; [|done].
    apply strip_spec in Hstrip as ->.
    destruct (span is_id_char rest) as [[|c run] tail] eqn:Hspan; [done|].
    intros [= <-]. apply span_spec in Hspan as (-> & Hall & Hstop).
    by exists tail.
  - intros (rest & -> & Hne & Hall & Hstop).
    rewrite strip_app, span_app by done. by destruct id.
Qed.

Lemma place_param_spec s id :
  place_param s = Some id ↔
  ∃ c rest, s = "!1s" +:+ id +:+ String c rest ∧ id ≠ EmptyString
    ∧ string_forall is_id_char id = true ∧ (c = "!"%char ∨ c = "&"%char).
Proof.
  unfold place_param. split.
  - destruct (strip "!1s" s) as [rest|] eqn:Hstrip; [|done].
    apply strip_spec in Hstrip as ->.
    destruct (span is_id_char rest) as [[|c run] [|d tail]] eqn:Hspan; [done..|].
    apply span_spec in Hspan as (-> & Hall & Hstop).
    destruct (Ascii.eqb_spec d "!") as [->|?]; simpl.
    { intros [= <-]. exists "!"%char, tail. split_and!; auto. }
    destruct (Ascii.eqb_spec d "&") as [->|?]; [|done].
    intros [= <-]. exists "&"%char, tail. split_and!; auto.
  - intros (c & rest & -> & Hne & Hall & Hc).
    rewrite strip_app, span_app; [| done | by destruct Hc as [-> | ->]].
    destruct id; [done|]. by destruct Hc as [-> | ->].
Qed.

Lemma pano_param_head c rest :
  is_id_char c = true → is_Some (pano_param ("pano=" +:+ String c rest)).
Proof.
  intros Hc. unfold pano_param. rewrite strip_app. simpl. rewrite Hc.
  by destruct (span is_id_char rest).
Qed.

Lemma extractUrlData_panoId {Float} (parseFloat : string → Float) url :
  ExtractedData.panoId (extractUrlData parseFloat url) =
  match first_match pano_param url with
  | Some id => Some id
  | None => first_match place_param url
  end.
Proof. done. Qed.

(** X17: a panorama id that [extractUrlData] returns is a non-empty run of
    the characters [a-zA-Z0-9_-] that stands in the URL right after [pano=],
    up to the first other character, or right after [!1s] and right before a
    [!] or a [&]. *)
Theorem extractUrlData_panoId_sound {Float} (parseFloat : string → Float) url id :
  ExtractedData.panoId (extractUrlData parseFloat url) = Some id →
  id ≠ EmptyString ∧ string_forall is_id_char id = true
  ∧ ((∃ pre rest, url = pre +:+ "pano=" +:+ id +:+ rest ∧ stops is_id_char rest)
     ∨ (∃ pre c rest, url = pre +:+ "!1s" +:+ id +:+ String c rest
                      ∧ (c = "!"%char ∨ c = "&"%char))).
Proof.
  rewrite extractUrlData_panoId.
  destruct (first_match pano_param url) as [id'|] eqn:Hpano.
  - intros [= ->].
    apply first_match_Some in Hpano as (pre & suf & -> & Hm & _).
    apply pano_param_spec in Hm as (rest & -> & Hne & Hall & Hstop).
    split_and!; [done..|]. left. by exists pre, rest.
  - intros (pre & suf & -> & Hm & _)%first_match_Some.
    apply place_param_spec in Hm as (c & rest & -> & Hne & Hall & Hc).
    split_and!; [done..|]. right. by exists pre, c, rest.
Qed.

Lemma extractUrlData_panoId_sound_witness :
  "AF1QipN-x_9k"%string ≠ EmptyString
  ∧ string_forall is_id_char "AF1QipN-x_9k" = true
  ∧ ((∃ pre rest, share_link = pre +:+ "pano=" +:+ "AF1QipN-x_9k" +:+ rest
                  ∧ stops is_id_char rest)
     ∨ (∃ pre c rest, share_link = pre +:+ "!1s" +:+ "AF1QipN-x_9k" +:+ String c rest
                      ∧ (c = "!"%char ∨ c = "&"%char))).
Proof. apply (extractUrlData_panoId_sound (λ s, s) share_link). reflexivity. Defined.

Lemma panoId_none_iff {Float} (parseFloat : string → Float) url :
  ExtractedData.panoId (extractUrlData parseFloat url) = None ↔
  (∀ pre c rest, url = pre +:+ "pano=" +:+ String c rest → is_id_char c = false)
  ∧ (∀ pre id c rest,
       url = pre +:+ "!1s" +:+ id +:+ String c rest →
       id ≠ EmptyString → string_forall is_id_char id = true →
       c ≠ "!"%char ∧ c ≠ "&"%char).
Proof.
  rewrite extractUrlData_panoId. split.
  - destruct (first_match pano_param url) eqn:Hpano; [done|]. intros Hplace.
    rewrite first_match_None in Hpano. rewrite first_match_None in Hplace.
    split.
    + intros pre c rest Hurl. destruct (is_id_char c) eqn:Hc; [|done].
      destruct (pano_param_head c rest Hc) as [id Hid].
      by rewrite (Hpano _ _ Hurl) in Hid.
    + intros pre id c rest Hurl Hne Hall.
      assert (place_param ("!1s" +:+ id +:+ String c rest) ≠ Some id) as Hno.
      { by rewrite (Hplace _ _ Hurl). }
      rewrite place_param_spec in Hno.
      split; intros ->; apply Hno; eexists _, rest; split_and!; eauto.
  - intros [Hpano Hplace].
    assert (first_match pano_param url = None) as ->.
    { apply first_match_None. intros pre suf ->.
      destruct (pano_param suf) as [id|] eqn:Hm; [|done].
      apply pano_param_spec in Hm as (rest & -> & Hne & Hall & _).
      destruct id as [|c run]; [done|]. simpl in Hall.
      apply andb_true_iff in Hall as [Hc _].
      rewrite string_app_cons in Hpano. by rewrite (Hpano pre c _ eq_refl) in Hc. }
    apply first_match_None. intros pre suf ->.
    destruct (place_param suf) as [id|] eqn:Hm; [|done].
    apply place_param_spec in Hm as (c & rest & -> & Hne & Hall & Hc).
    destruct (Hplace pre id c rest eq_refl Hne Hall). by destruct Hc.
Qed.

(** X18: [extractUrlData] returns no panorama id exactly when the URL has
    neither a [pano=] followed by a character of [a-zA-Z0-9_-] nor a [!1s]
    followed by a non-empty run of such characters and then a [!] or a
    [&]. *)
Theorem extractUrlData_panoId_none {Float} (parseFloat : string → Float) url :
  ExtractedData.panoId (extractUrlData parseFloat url) = None ↔
  (∀ pre c rest, url = pre +:+ "pano=" +:+ String c rest → is_id_char c = false)
  ∧ (∀ pre id c rest,
       url = pre +:+ "!1s" +:+ id +:+ String c rest →
       id ≠ EmptyString → string_forall is_id_char id = true →
       c ≠ "!"%char ∧ c ≠ "&"%char).
Proof. apply panoId_none_iff. Qed.

(** X19: when the URL has a [pano=] followed by a character of
    [a-zA-Z0-9_-], [extractUrlData] returns the id after the leftmost such
    [pano=], up to the first other character, whatever [!1s] groups the URL
    has. *)
Theorem extractUrlData_prefers_pano {Float} (parseFloat : string → Float) pre c rest :
  is_id_char c = true →
  ∃ id pre' rest',
    ExtractedData.panoId (extractUrlData parseFloat (pre +:+ "pano=" +:+ String c rest))
      = Some id
    ∧ pre +:+ "pano=" +:+ String c rest = pre' +:+ "pano=" +:+ id +:+ rest'
    ∧ id ≠ EmptyString ∧ string_forall is_id_char id = true ∧ stops is_id_char rest'
    ∧ (String.length pre' ≤ String.length pre)%nat.
Proof.
  intros Hc. rewrite extractUrlData_panoId.
  destruct (first_match_found pano_param pre _ (pano_param_head c rest Hc))
    as (id & pre' & suf' & -> & Heq & Hm & Hlen).
  apply pano_param_spec in Hm as (rest' & -> & Hne & Hall & Hstop).
  by exists id, pre', rest'.
Qed.

Lemma extractUrlData_prefers_pano_witness :
  ∃ id pre' rest',
    ExtractedData.panoId
      (extractUrlData (λ s, s)
         ("https://maps.google.com/?x=!1sAAA!2e0&" +:+ "pano=" +:+ String "t" "u510&z=1"))
      = Some id
    ∧ "https://maps.google.com/?x=!1sAAA!2e0&" +:+ "pano=" +:+ String "t" "u510&z=1"
      = pre' +:+ "pano=" +:+ id +:+ rest'
    ∧ id ≠ EmptyString ∧ string_forall is_id_char id = true ∧ stops is_id_char rest'
    ∧ (String.length pre' ≤ String.length "https://maps.google.com/?x=!1sAAA!2e0&")%nat.
Proof. apply extractUrlData_prefers_pano. reflexivity. Defined.

Lemma number_spec s text rest :
  number s = Some (text, rest) → s = text +:+ rest ∧ decimal text.
Proof.
  unfold number.
  assert (∃ sign s1,
    match s with
    | String c s' => if Ascii.eqb c "-" then ("-"%string, s') else (EmptyString, s)
    | EmptyString => (EmptyString, s)
    end = (sign, s1)
    ∧ s = sign +:+ s1 ∧ (sign = EmptyString ∨ sign = "-"%string))
    as (sign & s1 & -> & -> & Hsign).
  { destruct s as [|c s']; [by exists "", ""; auto|].
    destruct (Ascii.eqb_spec c "-") as [->|?].
    - exists "-", s'; auto.
    - exists "", (String c s'); auto. }
  destruct (span is_digit s1) as [[|c int] s2] eqn:Hint; [done|].
  apply span_spec in Hint as (-> & Hint & _).
  destruct (strip "." s2) as [s3|] eqn:Hdot; [|done].
  apply strip_spec in Hdot as ->.
  destruct (span is_digit s3) as [[|d frac] s4] eqn:Hfrac; [done|].
  apply span_spec in Hfrac as (-> & Hfrac & _).
  intros [= <- <-]. split.
  - by rewrite !string_app_assoc.
  - exists sign, (String c int), (String d frac). by split_and!.
Qed.

Lemma coords_param_spec lit s lat lng :
  coords_param lit s = Some (lat, lng) →
  ∃ rest, s = lit +:+ lat +:+ "," +:+ lng +:+ rest ∧ decimal lat ∧ decimal lng.
Proof.
  unfold coords_param.
  destruct (strip lit s) as [s1|] eqn:Hlit; [|done].
  apply strip_spec in Hlit as ->.
  destruct (number s1) as [[lat' s2]|] eqn:Hlat; [|done].
  apply number_spec in Hlat as [-> Hlat].
  destruct (strip "," s2) as [s3|] eqn:Hcomma; [|done].
  apply strip_spec in Hcomma as ->.
  destruct (number s3) as [[lng' s4]|] eqn:Hlng; [|done].
  apply number_spec in Hlng as [-> Hlng].
  intros [= <- <-]. by exists s4.
Qed.

Lemma parse_coords_Some {Float} (parseFloat : string → Float) lit url ll :
  parse_coords parseFloat (first_match (coords_param lit) url) = Some ll →
  ∃ lat lng pre rest,
    url = pre +:+ lit +:+ lat +:+ "," +:+ lng +:+ rest
    ∧ decimal lat ∧ decimal lng
    ∧ ll = {| LatLng.lat := parseFloat lat; LatLng.lng := parseFloat lng |}.
Proof.
  destruct (first_match (coords_param lit) url) as [[lat lng]|] eqn:Hm; [|done].
  intros [= <-].
  apply first_match_Some in Hm as (pre & suf & -> & Hm & _).
  apply coords_param_spec in Hm as (rest & -> & Hlat & Hlng).
  by exists lat, lng, pre, rest.
Qed.

(** X20: coordinates that [extractUrlData] returns are [parseFloat] of two
    texts of the form [-?\d+\.\d+] that stand in the URL, separated by a
    comma, right after an [@] or right after [ll=]. *)
Theorem extractUrlData_coords_sound {Float} (parseFloat : string → Float) url ll :
  ExtractedData.coords (extractUrlData parseFloat url) = Some ll →
  ∃ lit lat lng pre rest,
    (lit = "@"%string ∨ lit = "ll="%string)
    ∧ url = pre +:+ lit +:+ lat +:+ "," +:+ lng +:+ rest
    ∧ decimal lat ∧ decimal lng
    ∧ ll = {| LatLng.lat := parseFloat lat; LatLng.lng := parseFloat lng |}.
Proof.
  unfold extractUrlData. simpl.
  destruct (parse_coords parseFloat (first_match (coords_param "@") url))
    as [ll'|] eqn:Hat.
  - intros [= <-].
    apply parse_coords_Some in Hat as (lat & lng & pre & rest & Hurl).
    exists "@"%string, lat, lng, pre, rest. split; [by left|done].
  - intros (lat & lng & pre & rest & Hurl)%parse_coords_Some.
    exists "ll="%string, lat, lng, pre, rest. split; [by right|done].
Qed.

Lemma extractUrlData_coords_sound_witness :
  ∃ lit lat lng pre rest,
    (lit = "@"%string ∨ lit = "ll="%string)
    ∧ api_link = pre +:+ lit +:+ lat +:+ "," +:+ lng +:+ rest
    ∧ decimal lat ∧ decimal lng
    ∧ {| LatLng.lat := "48.857832"%string; LatLng.lng := "-2.295226"%string |}
      = {| LatLng.lat := lat; LatLng.lng := lng |}.
Proof. apply (extractUrlData_coords_sound (λ s, s) api_link). reflexivity. Defined.

Lemma span_app_run p run rest :
  string_forall p run = true →
  span p (run +:+ rest) = (run +:+ (span p rest).1, (span p rest).2).
Proof.
  intros Hall. induction run as [|c run IH].
  - change ("" +:+ rest) with rest. by destruct (span p rest).
  - rewrite !string_app_cons. simpl in *.
    apply andb_true_iff in Hall as [-> Hall]. by rewrite IH.
Qed.

Lemma span_stops p s : stops p s → span p s = (EmptyString, s).
Proof. destruct s as [|c s]; [done|]. simpl. by intros ->. Qed.

Lemma number_complete text rest :
  decimal text →
  ∃ text' rest',
    number (text +:+ rest) = Some (text', rest')
    ∧ (stops is_digit rest → text' = text ∧ rest' = rest).
Proof.
  intros (sign & int & frac & -> & Hsign & Hint & Hfrac & Hi & Hf).
  rewrite !string_app_assoc. unfold number.
  assert (match sign +:+ int +:+ "." +:+ frac +:+ rest with
          | String c s' =>
              if Ascii.eqb c "-" then ("-"%string, s')
              else (EmptyString, sign +:+ int +:+ "." +:+ frac +:+ rest)
          | EmptyString => (EmptyString, sign +:+ int +:+ "." +:+ frac +:+ rest)
          end = (sign, int +:+ "." +:+ frac +:+ rest)) as ->.
  { destruct Hsign as [-> | ->]; [|done].
    change ("" +:+ ?s) with s. destruct int as [|c int]; [done|].
    rewrite string_app_cons. simpl in Hi. apply andb_true_iff in Hi as [Hc _].
    destruct (Ascii.eqb_spec c "-") as [->|?]; done. }
  rewrite (span_app is_digit int) by done.
  destruct int as [|c int]; [done|]. rewrite strip_app.
  rewrite (span_app_run is_digit frac) by done.
  destruct frac as [|d frac]; [done|]. rewrite string_app_cons.
  eexists _, _. split; [done|]. intros Hstop.
  rewrite (span_stops _ _ Hstop). simpl.
  by rewrite string_app_nil_r.
Qed.

Lemma coords_param_complete lit lat lng rest :
  decimal lat → decimal lng →
  is_Some (coords_param lit (lit +:+ lat +:+ "," +:+ lng +:+ rest)).
Proof.
  intros Hlat Hlng. unfold coords_param. rewrite strip_app.
  destruct (number_complete lat ("," +:+ lng +:+ rest) Hlat)
    as (lat' & s2 & -> & Hstop).
  destruct Hstop as [_ ->]; [done|]. rewrite strip_app.
  by destruct (number_complete lng rest Hlng) as (lng' & s4 & -> & _).
Qed.

Lemma parse_coords_None {Float} (parseFloat : string → Float) lit url :
  parse_coords parseFloat (first_match (coords_param lit) url) = None ↔
  ∀ pre lat lng rest,
    url = pre +:+ lit +:+ lat +:+ "," +:+ lng +:+ rest → ¬ (decimal lat ∧ decimal lng).
Proof.
  split.
  - destruct (first_match (coords_param lit) url) as [[??]|] eqn:Hm; [done|].
    intros _ pre lat lng rest Hurl [Hlat Hlng].
    rewrite first_match_None in Hm.
    destruct (coords_param_complete lit lat lng rest Hlat Hlng) as [m Hsome].
    by rewrite (Hm _ _ Hurl) in Hsome.
  - intros Hnone.
    destruct (first_match (coords_param lit) url) as [[lat lng]|] eqn:Hm; [|done].
    apply first_match_Some in Hm as (pre & suf & -> & Hm & _).
    apply coords_param_spec in Hm as (rest & -> & Hlat & Hlng).
    by destruct (Hnone pre lat lng rest).
Qed.

(** X21: [extractUrlData] returns no coordinates exactly when the URL has
    no [@] and no [ll=] that is followed by two texts of the form
    [-?\d+\.\d+] with a comma between them. *)
Theorem extractUrlData_coords_none {Float} (parseFloat : string → Float) url :
  ExtractedData.coords (extractUrlData parseFloat url) = None ↔
  ∀ lit pre lat lng rest,
    lit = "@"%string ∨ lit = "ll="%string →
    url = pre +:+ lit +:+ lat +:+ "," +:+ lng +:+ rest →
    ¬ (decimal lat ∧ decimal lng).
Proof.
  unfold extractUrlData. simpl. split.
  - destruct (parse_coords parseFloat (first_match (coords_param "@") url))
      eqn:Hat; [done|].
    intros Hll lit pre lat lng rest [-> | ->].
    + by apply (parse_coords_None parseFloat "@").
    + by apply (parse_coords_None parseFloat "ll=").
  - intros Hnone.
    assert (parse_coords parseFloat (first_match (coords_param "@") url) = None)
      as ->.
    { apply parse_coords_None. intros pre lat lng rest. apply Hnone. by left. }
    apply parse_coords_None. intros pre lat lng rest. apply Hnone. by right.
Qed.

(** * The application *)

Lemma panoId_nonempty {Float} (parseFloat : string → Float) url id :
  ExtractedData.panoId (extractUrlData parseFloat url) = Some id → truthy (Some id) = Some id.
Proof.
  rewrite extractUrlData_panoId.
  destruct (first_match pano_param url) as [id'|] eqn:Hpano.
  - intros [= ->].
    apply first_match_Some in Hpano as (pre & suf & -> & Hm & _).
    apply pano_param_spec in Hm as (rest & -> & Hne & _). by destruct id.
  - intros (pre & suf & -> & Hm & _)%first_match_Some.
    apply place_param_spec in Hm as (c & rest & -> & Hne & _). by destruct id.
Qed.

(** The reports of a job leave the last one in [viewerProgress]. *)
Lemma fold_handleViewerProgress {Float} ps (st : App.t Float) :
  fold_left handleViewerProgress ps st =
  setViewerProgress
    match last ps with Some p => Some p | None => App.viewerProgress st end st.
Proof.
  revert st. induction ps as [|p ps IH]; intros st; cbn [fold_left].
  - by destruct st.
  - rewrite IH. destruct ps as [|q ps]; [done|].
    change (last (p :: q :: ps)) with (last (q :: ps)).
    destruct (last (q :: ps)) eqn:Hlast; [done|]. by apply last_None in Hlast.
Qed.

Lemma stitch_fetch_events env sched panoId grid :
  grid ∈ GRID_SIZES →
  fetch_events (stitchStreetViewImage env sched panoId (Grid.zoom grid)).1
  = (λ coord, tileUrl panoId coord (Grid.zoom grid)) <$> grid_coords grid.
Proof.
  intros Hin. pose proof (grid_keys_NoDup grid Hin) as Hkeys.
  rewrite stitch_at_grid by done. cbn zeta. cbn [fst].
  pose proof (downloadTiles_reachable env sched panoId (Grid.zoom grid) grid) as Hreach.
  destruct (reachable_pool_inv _ _ _ _ _ Hkeys Hreach) as [_ Hfetch _].
  rewrite (finished_queue_empty env panoId (Grid.zoom grid) (grid_coords grid)) in Hfetch.
  - by rewrite app_nil_r in Hfetch.
  - by apply reachable_inv.
  - by apply (downloadTiles_joined env sched panoId (Grid.zoom grid) grid).
Qed.

Lemma stitch_progress_events env sched panoId grid :
  grid ∈ GRID_SIZES →
  progress_events (stitchStreetViewImage env sched panoId (Grid.zoom grid)).1
  = progress_upto (Grid.x grid * Grid.y grid) (Grid.x grid * Grid.y grid).
Proof.
  intros Hin. pose proof (grid_keys_NoDup grid Hin) as Hkeys.
  destruct (grid_positive grid Hin) as [Hx Hy].
  rewrite stitch_at_grid by done. cbn zeta. cbn [fst].
  destruct (downloadTiles_joined env sched panoId (Grid.zoom grid) grid Hkeys)
    as (_ & _ & -> & _).
  by rewrite length_grid_coords by lia.
Qed.

Lemma zoom3_in_catalog : zoom3 ∈ GRID_SIZES.
Proof. apply (bool_decide_unpack _). reflexivity. Qed.

Lemma handleSubmit_no_id {Float} (parseFloat : string → Float) env sched st url :
  ExtractedData.panoId (extractUrlData parseFloat url) = None →
  handleSubmit parseFloat env sched st url =
  ([], {| App.isLoading := false; App.error := Some NoPanoramaId; App.panoId := None;
          App.availableResolutions := []; App.viewerImageUrl := None;
          App.viewerProgress := None; App.mapCoords := App.mapCoords st |}).
Proof. intros Hid. unfold handleSubmit. by rewrite Hid. Qed.

(** X22: submitting a URL that has neither a [pano=] followed by a character
    of [a-zA-Z0-9_-] nor a [!1s] group fetches nothing and leaves the
    application with the missing-id error, no panorama id, no resolutions,
    no image and the map coordinates it had before, whatever coordinates the
    URL has; any request for a resolution made in that state is rejected
    without a fetch. *)
Theorem handleSubmit_without_panorama_id {Float} (parseFloat : string → Float)
    env sched st url :
  (∀ pre c rest, url = pre +:+ "pano=" +:+ String c rest → is_id_char c = false) →
  (∀ pre id c rest,
     url = pre +:+ "!1s" +:+ id +:+ String c rest →
     id ≠ EmptyString → string_forall is_id_char id = true →
     c ≠ "!"%char ∧ c ≠ "&"%char) →
  let outcome := handleSubmit parseFloat env sched st url in
  outcome.1 = []
  ∧ outcome.2 =
    {| App.isLoading := false; App.error := Some NoPanoramaId; App.panoId := None;
       App.availableResolutions := []; App.viewerImageUrl := None;
       App.viewerProgress := None; App.mapCoords := App.mapCoords st |}
  ∧ ∀ sched' zoom,
      handleStitchRequest env sched' outcome.2 zoom = ([], inr PanoramaIdUnavailable).
Proof.
  intros Hpano Hplace outcome. unfold outcome.
  rewrite handleSubmit_no_id by (by apply panoId_none_iff).
  by split_and!.
Qed.

Lemma handleSubmit_without_panorama_id_witness :
  let outcome := handleSubmit (λ s, s) offline [] initial_state place_link in
  outcome.1 = []
  ∧ outcome.2 =
    {| App.isLoading := false; App.error := Some NoPanoramaId; App.panoId := None;
       App.availableResolutions := []; App.viewerImageUrl := None;
       App.viewerProgress := None; App.mapCoords := App.mapCoords initial_state |}
  ∧ ∀ sched' zoom,
      handleStitchRequest offline sched' outcome.2 zoom = ([], inr PanoramaIdUnavailable).
Proof.
  apply (handleSubmit_without_panorama_id (λ s, s) offline [] initial_state place_link).
  - apply (proj1 (proj1 (panoId_none_iff (λ s : string, s) place_link) eq_refl)).
  - apply (proj2 (proj1 (panoId_none_iff (λ s : string, s) place_link) eq_refl)).
Defined.

Lemma handleSubmit_with_id {Float} (parseFloat : string → Float) env sched st url id :
  ExtractedData.panoId (extractUrlData parseFloat url) = Some id →
  handleSubmit parseFloat env sched st url =
  let st1 :=
    {| App.isLoading := true; App.error := None; App.panoId := Some id;
       App.availableResolutions := getAvailableResolutions;
       App.viewerImageUrl := None; App.viewerProgress := None;
       App.mapCoords := ExtractedData.coords (extractUrlData parseFloat url) |} in
  let outcome := stitchStreetViewImage env sched id 3 in
  let st2 := fold_left handleViewerProgress (progress_events outcome.1) st1 in
  (outcome.1,
   setIsLoading false
     match outcome.2 with
     | Ok url => setViewerImageUrl (Some url) st2
     | Throw e => setError (Some (Raised e)) st2
     end).
Proof.
  intros Hid. unfold handleSubmit.
  rewrite Hid, (panoId_nonempty _ _ _ Hid). cbn zeta.
  rewrite resolutions_computed. cbn [List.find res_zoom Z.eqb Pos.eqb].
  by destruct (stitchStreetViewImage env sched id 3).
Qed.

(** X23: submitting a URL in which [extractUrlData] finds a panorama id
    runs one job for that id at zoom level 3: its 32 tiles are fetched, and
    afterwards the application is not loading, holds the id, the two
    resolutions of the catalog, the coordinates found in the URL (or none)
    and the progress 32 of 32; it holds the image and no error when the
    compositor obtains its context, and the context error and no image
    otherwise. *)
Theorem handleSubmit_stitches_default {Float} (parseFloat : string → Float)
    env sched st url id :
  ExtractedData.panoId (extractUrlData parseFloat url) = Some id →
  let outcome := handleSubmit parseFloat env sched st url in
  let job := stitchStreetViewImage env sched id 3 in
  outcome.1 = job.1
  ∧ fetch_events outcome.1 = (λ coord, tileUrl id coord 3) <$> grid_coords zoom3
  ∧ App.isLoading outcome.2 = false
  ∧ App.panoId outcome.2 = Some id
  ∧ App.availableResolutions outcome.2 = getAvailableResolutions
  ∧ App.mapCoords outcome.2 = ExtractedData.coords (extractUrlData parseFloat url)
  ∧ App.viewerProgress outcome.2 = Some {| loaded := 32; total := 32 |}
  ∧ (stitch_ctx env = true →
     App.error outcome.2 = None
     ∧ ∃ out, App.viewerImageUrl outcome.2 = Some out ∧ job.2 = Ok out)
  ∧ (stitch_ctx env = false →
     App.error outcome.2 = Some (Raised NoCanvasContext)
     ∧ App.viewerImageUrl outcome.2 = None).
Proof.
  intros Hid outcome job. unfold outcome.
  rewrite (handleSubmit_with_id _ _ _ _ _ _ Hid). cbn zeta. fold job.
  pose proof (stitch_fetch_events env sched id zoom3 zoom3_in_catalog) as Hfetch.
  pose proof (stitch_progress_events env sched id zoom3 zoom3_in_catalog) as Hprog.
  destruct (stitch_result env sched id zoom3 zoom3_in_catalog) as [Hok Hthrow].
  change (stitchStreetViewImage env sched id (Grid.zoom zoom3)) with job in *.
  cbn zeta in Hok, Hthrow. cbn [fst snd].
  rewrite fold_handleViewerProgress, Hprog.
  change (last (progress_upto (Grid.x zoom3 * Grid.y zoom3) (Grid.x zoom3 * Grid.y zoom3)))
    with (Some {| loaded := 32; total := 32 |}).
  split_and!; [done | done | ..].
  - by destruct (job.2).
  - by destruct (job.2).
  - by destruct (job.2).
  - by destruct (job.2).
  - by destruct (job.2).
  - intros Hctx. destruct (Hok Hctx) as [out ->]. split; [done|]. by exists out.
  - intros Hctx. by rewrite (Hthrow Hctx).
Qed.

Lemma handleSubmit_stitches_default_witness :
  let outcome := handleSubmit (λ s, s) offline [] initial_state api_link in
  let job := stitchStreetViewImage offline [] "tu510ie_z4ptBZYo2BGEJg" 3 in
  outcome.1 = job.1
  ∧ fetch_events outcome.1
    = (λ coord, tileUrl "tu510ie_z4ptBZYo2BGEJg" coord 3) <$> grid_coords zoom3
  ∧ App.isLoading outcome.2 = false
  ∧ App.panoId outcome.2 = Some "tu510ie_z4ptBZYo2BGEJg"%string
  ∧ App.availableResolutions outcome.2 = getAvailableResolutions
  ∧ App.mapCoords outcome.2 = ExtractedData.coords (extractUrlData (λ s, s) api_link)
  ∧ App.viewerProgress outcome.2 = Some {| loaded := 32; total := 32 |}
  ∧ (stitch_ctx offline = true →
     App.error outcome.2 = None
     ∧ ∃ out, App.viewerImageUrl outcome.2 = Some out ∧ job.2 = Ok out)
  ∧ (stitch_ctx offline = false →
     App.error outcome.2 = Some (Raised NoCanvasContext)
     ∧ App.viewerImageUrl outcome.2 = None).
Proof.
  apply (handleSubmit_stitches_default (λ s, s) offline [] initial_state api_link).
  reflexivity.
Defined.

Lemma handleSubmit_state {Float} (parseFloat : string → Float) env sched st url id :
  ExtractedData.panoId (extractUrlData parseFloat url) = Some id →
  App.panoId (handleSubmit parseFloat env sched st url).2 = Some id
  ∧ App.availableResolutions (handleSubmit parseFloat env sched st url).2
    = getAvailableResolutions.
Proof.
  intros Hid. rewrite (handleSubmit_with_id _ _ _ _ _ _ Hid). cbn zeta. cbn [snd].
  rewrite fold_handleViewerProgress.
  by destruct ((stitchStreetViewImage env sched id 3).2).
Qed.

(** X24: after a URL with a panorama id has been submitted, a request for
    any resolution the application then offers runs a job for that id at the
    resolution's zoom level: it fetches as many tiles as the resolution
    announces and, when the compositor obtains its context, yields an image
    within the announced width and height; otherwise it fails with the
    context error.  It is never rejected for a missing id or an invalid zoom
    level. *)
Theorem handleStitchRequest_after_submit {Float} (parseFloat : string → Float)
    env sched sched' st url id r :
  ExtractedData.panoId (extractUrlData parseFloat url) = Some id →
  let st' := (handleSubmit parseFloat env sched st url).2 in
  r ∈ App.availableResolutions st' →
  let request := handleStitchRequest env sched' st' (res_zoom r) in
  request.1 = (stitchStreetViewImage env sched' id (res_zoom r)).1
  ∧ Z.of_nat (length (fetch_events request.1)) = res_tileCount r
  ∧ (stitch_ctx env = true →
     ∃ out, request.2 = inl out
       ∧ 0 < width out ≤ res_width r ∧ 0 < height out ≤ res_height r)
  ∧ (stitch_ctx env = false → request.2 = inr (Raised NoCanvasContext)).
Proof.
  intros Hid st'. destruct (handleSubmit_state parseFloat env sched st url id Hid)
    as [Hpano Hres].
  fold st' in Hpano, Hres. rewrite Hres.
  intros (grid & Hin & -> & -> & -> & ->)%resolution_grid request.
  unfold request, handleStitchRequest.
  rewrite Hpano, (panoId_nonempty _ _ _ Hid).
  pose proof (stitch_fetch_events env sched' id grid Hin) as Hfetch.
  destruct (stitch_result env sched' id grid Hin) as [Hok Hthrow].
  pose proof (stitch_output_size env sched' id grid) as Hsize.
  destruct (grid_positive grid Hin) as [Hx Hy].
  destruct (stitchStreetViewImage env sched' id (Grid.zoom grid)) as [events imageUrl].
  cbn [fst snd] in *. split_and!.
  - done.
  - rewrite Hfetch, length_fmap. apply length_grid_coords; lia.
  - intros Hctx. destruct (Hok Hctx) as [out ->]. exists out. split; [done|].
    by apply Hsize.
  - intros Hctx. by rewrite (Hthrow Hctx).
Qed.

Lemma handleStitchRequest_after_submit_witness :
  let r := {| res_zoom := 4; res_width := 8192; res_height := 4096;
              res_label := "Maximum"; res_tileCount := 128 |} in
  let st' := (handleSubmit (λ s, s) offline [] initial_state api_link).2 in
  let request := handleStitchRequest offline [] st' (res_zoom r) in
  request.1 = (stitchStreetViewImage offline [] "tu510ie_z4ptBZYo2BGEJg" (res_zoom r)).1
  ∧ Z.of_nat (length (fetch_events request.1)) = res_tileCount r
  ∧ (stitch_ctx offline = true →
     ∃ out, request.2 = inl out
       ∧ 0 < width out ≤ res_width r ∧ 0 < height out ≤ res_height r)
  ∧ (stitch_ctx offline = false → request.2 = inr (Raised NoCanvasContext)).
Proof.
  apply (handleStitchRequest_after_submit (λ s, s) offline [] [] initial_state api_link
           "tu510ie_z4ptBZYo2BGEJg").
  - reflexivity.
  - rewrite (proj2 (handleSubmit_state (λ s : string, s) offline [] initial_state api_link
                      "tu510ie_z4ptBZYo2BGEJg" eq_refl)).
    rewrite resolutions_computed. right. left.
Defined.

(** * The earlier revision of the service *)

Lemma legacy_column_match hashes k ys valid :
  (let '(isMatch, hasValidTile) := Legacy.column_match hashes k ys valid in
   isMatch && hasValidTile) = true ↔
  Forall (λ y, Legacy.hash_at hashes k y = Legacy.hash_at hashes 0 y) ys
  ∧ (valid = true ∨ Exists (λ y, is_Some (Legacy.hash_at hashes 0 y)) ys).
Proof.
  revert valid. induction ys as [|y ys IH]; intros valid; cbn [Legacy.column_match].
  - rewrite Exists_nil. simpl. split; [intros ->; auto | by intros [_ [-> | []]]].
  - rewrite Forall_cons, Exists_cons.
    destruct (Legacy.hash_at hashes k y) as [hr|] eqn:Hr,
             (Legacy.hash_at hashes 0 y) as [ho|] eqn:Ho.
    + destruct (String.eqb_spec hr ho) as [->|Hne].
      * rewrite IH. split; [intros [? _]; eauto | intros [[_ ?] _]; auto].
      * split; [done | intros [[[= ?] _] _]; done].
    + split; [done | by intros [[? _] _]].
    + split; [done | by intros [[? _] _]].
    + rewrite IH. split.
      * intros [? [? | ?]]; auto.
      * intros [[_ ?] [? | [[? [=]] | ?]]]; auto.
Qed.

Lemma legacy_repeats_iff hashes grid k :
  Legacy.repeats hashes grid k ↔
  (let '(isMatch, hasValidTile) :=
     Legacy.column_match hashes k (seqZ 0 (Grid.y grid)) false in
   isMatch && hasValidTile) = true.
Proof.
  rewrite legacy_column_match, Forall_forall, Exists_exists. unfold Legacy.repeats.
  split.
  - intros [Hall (y & Hy & Hsome)]. split.
    + intros y' Hy'%elem_of_seqZ. apply Hall. lia.
    + right. exists y. split; [apply elem_of_seqZ; lia | done].
  - intros [Hall [[=] | (y & Hy%elem_of_seqZ & Hsome)]]. split.
    + intros y' Hy'. apply Hall, elem_of_seqZ. lia.
    + exists y. split; [lia | done].
Qed.

Lemma legacy_find_repeat hashes grid xs :
  (∃ pre post,
     xs = pre ++ Legacy.find_repeat hashes grid xs :: post
     ∧ Legacy.repeats hashes grid (Legacy.find_repeat hashes grid xs)
     ∧ Forall (λ j, ¬ Legacy.repeats hashes grid j) pre)
  ∨ (Legacy.find_repeat hashes grid xs = Grid.x grid
     ∧ Forall (λ j, ¬ Legacy.repeats hashes grid j) xs).
Proof.
  induction xs as [|x xs IH]; cbn [Legacy.find_repeat].
  - right. by split.
  - pose proof (legacy_repeats_iff hashes grid x) as Hx.
    destruct (Legacy.column_match hashes x (seqZ 0 (Grid.y grid)) false)
      as [isMatch hasValidTile].
    destruct (isMatch && hasValidTile).
    + left. exists [], xs. split_and!; [done | by apply Hx | done].
    + assert (¬ Legacy.repeats hashes grid x) as Hno.
      { intros Hrep%Hx. done. }
      destruct IH as [(pre & post & Hxs & Hrep & Hpre) | [Hend Hall]].
      * left. exists (x :: pre), post. split_and!; [by rewrite Hxs at 1 | done |].
        by apply Forall_cons.
      * right. split; [done | by apply Forall_cons].
Qed.

(** X25: the number of columns the earlier revision keeps is the least
    [k] from 1 below the number of columns of the grid such that column [k]
    repeats column 0 (in every row the two tiles have equal hashes or both
    have none, and some row has hashes), and the number of columns of the
    grid when there is no such column. *)
Theorem legacy_actualCols_least_repeat hashes grid :
  1 ≤ Grid.x grid →
  let k := Legacy.actualCols hashes grid in
  1 ≤ k ≤ Grid.x grid
  ∧ (k < Grid.x grid → Legacy.repeats hashes grid k)
  ∧ (∀ j, 1 ≤ j < k → ¬ Legacy.repeats hashes grid j).
Proof.
  intros Hx k. unfold k, Legacy.actualCols.
  destruct (legacy_find_repeat hashes grid (seqZ 1 (Grid.x grid - 1)))
    as [(pre & post & Hxs & Hrep & Hpre) | [-> Hall]].
  - set (r := Legacy.find_repeat hashes grid (seqZ 1 (Grid.x grid - 1))) in *.
    assert (seqZ 1 (Grid.x grid - 1) !! length pre = Some r) as Hr.
    { rewrite Hxs. by rewrite list_lookup_middle. }
    apply lookup_seqZ in Hr as [Hr Hlen].
    split_and!; [lia | lia | done |].
    intros j Hj.
    assert (pre !! Z.to_nat (j - 1) = Some j) as Hlook.
    { assert (seqZ 1 (Grid.x grid - 1) !! Z.to_nat (j - 1) = Some j) as Hseq.
      { apply lookup_seqZ. lia. }
      rewrite Hxs, lookup_app_l in Hseq by lia. done. }
    by apply (Forall_lookup_1 _ _ _ _ Hpre Hlook).
  - split_and!; [lia | lia | lia |].
    intros j Hj. rewrite Forall_forall in Hall. apply Hall, elem_of_seqZ. lia.
Qed.

Lemma legacy_actualCols_least_repeat_witness :
  let k := Legacy.actualCols Legacy.period_two {| Grid.zoom := 0; Grid.x := 3; Grid.y := 1 |} in
  1 ≤ k ≤ 3
  ∧ (k < 3 → Legacy.repeats Legacy.period_two {| Grid.zoom := 0; Grid.x := 3; Grid.y := 1 |} k)
  ∧ (∀ j, 1 ≤ j < k →
       ¬ Legacy.repeats Legacy.period_two {| Grid.zoom := 0; Grid.x := 3; Grid.y := 1 |} j).
Proof.
  apply (legacy_actualCols_least_repeat Legacy.period_two
           {| Grid.zoom := 0; Grid.x := 3; Grid.y := 1 |}).
  simpl. lia.
Defined.

Lemma legacy_wrap32_add n t : Legacy.wrap32 (n + 4294967296 * t) = Legacy.wrap32 n.
Proof.
  unfold Legacy.wrap32.
  replace (n + 4294967296 * t + 2147483648) with (n + 2147483648 + t * 4294967296) by lia.
  by rewrite Z_mod_plus_full.
Qed.

Lemma legacy_wrap32_eq n : ∃ t, Legacy.wrap32 n = n + 4294967296 * t.
Proof.
  exists (- ((n + 2147483648) `div` 4294967296)). unfold Legacy.wrap32.
  pose proof (Z.div_mod (n + 2147483648) 4294967296). lia.
Qed.

Lemma legacy_wrap32_range n : -2147483648 ≤ Legacy.wrap32 n < 2147483648.
Proof.
  unfold Legacy.wrap32.
  pose proof (Z.mod_pos_bound (n + 2147483648) 4294967296). lia.
Qed.

(** One round of the hash on the wrapped value of [acc]. *)
Lemma legacy_hash_round acc s :
  Legacy.wrap32
    (Legacy.wrap32 (Z.shiftl (Legacy.wrap32 (Legacy.wrap32 acc)) 5)
     - Legacy.wrap32 acc + s)
  = Legacy.wrap32 (31 * acc + s).
Proof.
  rewrite Z.shiftl_mul_pow2 by lia.
  destruct (legacy_wrap32_eq acc) as [t1 ->].
  destruct (legacy_wrap32_eq (acc + 4294967296 * t1)) as [t2 ->].
  destruct (legacy_wrap32_eq ((acc + 4294967296 * t1 + 4294967296 * t2) * 2 ^ 5))
    as [t3 ->].
  replace ((acc + 4294967296 * t1 + 4294967296 * t2) * 2 ^ 5 + 4294967296 * t3
           - (acc + 4294967296 * t1) + s)
    with (31 * acc + s + 4294967296 * (31 * t1 + 32 * t2 + t3)) by lia.
  apply legacy_wrap32_add.
Qed.

Lemma legacy_hash_step_pixel (ps : list Pixel) (k : nat) p hash :
  ps !! k = Some p →
  Legacy.hash_step (flat_map pixel_bytes ps) hash (4 * Z.of_nat k)
  = Legacy.wrap32 (Legacy.wrap32 (Z.shiftl (Legacy.wrap32 hash) 5) - hash
                   + (red p + green p + blue p)).
Proof.
  intros Hp. unfold Legacy.hash_step, data_at.
  assert (∀ c : nat, (c < 4)%nat →
    (if 4 * Z.of_nat k + Z.of_nat c <? 0 then None
     else flat_map pixel_bytes ps !! Z.to_nat (4 * Z.of_nat k + Z.of_nat c))
    = pixel_bytes p !! c) as Hdata.
  { intros c Hc. destruct (Z.ltb_spec (4 * Z.of_nat k + Z.of_nat c) 0); [lia|].
    replace (Z.to_nat (4 * Z.of_nat k + Z.of_nat c)) with (4 * k + c)%nat by lia.
    rewrite lookup_pixel_bytes by done. by rewrite Hp. }
  pose proof (Hdata 0%nat ltac:(lia)) as H0.
  pose proof (Hdata 1%nat ltac:(lia)) as H1.
  pose proof (Hdata 2%nat ltac:(lia)) as H2.
  rewrite Z.add_0_r in H0. change (Z.of_nat 1) with 1 in H1. change (Z.of_nat 2) with 2 in H2.
  rewrite H0, H1, H2. cbn [pixel_bytes lookup list_lookup].
  rewrite Z.land_diag. f_equal. lia.
Qed.

Lemma legacy_poly31_snoc sums s :
  Legacy.poly31 (sums ++ [s]) = 31 * Legacy.poly31 sums + s.
Proof. unfold Legacy.poly31. by rewrite fold_left_app. Qed.

Lemma legacy_hash_fold (ps : list Pixel) (m : nat) :
  (m ≤ length ps)%nat →
  fold_left (Legacy.hash_step (flat_map pixel_bytes ps))
    ((λ k, k * 4) <$> seqZ 0 (Z.of_nat m)) 0
  = Legacy.wrap32
      (Legacy.poly31 ((λ p, red p + green p + blue p) <$> take m ps)).
Proof.
  induction m as [|m IH]; intros Hm; [done|].
  destruct (lookup_lt_is_Some_2 ps m ltac:(lia)) as [p Hp].
  rewrite Nat2Z.inj_succ, <- Z.add_1_r, seqZ_app by lia.
  rewrite fmap_app, fold_left_app, IH by lia.
  rewrite (take_S_r _ _ _ Hp), fmap_app.
  change ((λ p, red p + green p + blue p) <$> [p]) with [red p + green p + blue p].
  rewrite legacy_poly31_snoc.
  change (seqZ (0 + Z.of_nat m) 1) with [0 + Z.of_nat m]. cbn [fmap list_fmap fold_left].
  replace ((0 + Z.of_nat m) * 4) with (4 * Z.of_nat m) by lia.
  rewrite (legacy_hash_step_pixel _ _ _ _ Hp).
  apply legacy_hash_round.
Qed.

Lemma legacy_hash_row img :
  0 < img_width img → 0 < img_height img →
  rect_pixels
    (drawImage (createCanvas (img_width img) 1 true) img 0 (- (img_height img `div` 2)))
    0 0 (img_width img) 1
  = (λ px, img_pix img px (img_height img `div` 2)) <$> seqZ 0 (img_width img).
Proof.
  intros Hw Hh. unfold rect_pixels. change (seqZ 0 1) with [0]. cbn [flat_map].
  rewrite app_nil_r. apply list_fmap_ext. intros i px Hpx%lookup_seqZ.
  unfold pixel_at, drawImage, createCanvas, inside; cbn [width height pix].
  assert (0 ≤ img_height img `div` 2 < img_height img) as Hmid.
  { split; [apply Z.div_pos; lia | apply Z.div_lt_upper_bound; lia]. }
  replace (0 + px - 0) with px by lia.
  replace (0 + 0 - - (img_height img `div` 2)) with (img_height img `div` 2) by lia.
  replace (0 + px) with px by lia.
  repeat match goal with
  | |- context [?a <=? ?b] => destruct (Z.leb_spec a b); [|lia]
  | |- context [?a <? ?b] => destruct (Z.ltb_spec a b); [|lia]
  end.
  done.
Qed.

Lemma legacy_getTileHash_value img :
  0 < img_width img → 0 < img_height img →
  Legacy.getTileHash true img
  = Ok (pretty (Legacy.wrap32 (Legacy.poly31 (Legacy.middle_row img)))).
Proof.
  intros Hw Hh. unfold Legacy.getTileHash, getImageData. cbn [createCanvas ctx2d negb].
  destruct (Z.eqb_spec (img_width img) 0) as [|_]; [lia|]. cbn [orb Z.eqb bind].
  rewrite legacy_hash_row by done. do 2 f_equal.
  set (ps := (λ px, img_pix img px (img_height img `div` 2)) <$> seqZ 0 (img_width img)).
  assert (length ps = Z.to_nat (img_width img)) as Hlen.
  { unfold ps. by rewrite length_fmap, length_seqZ. }
  rewrite length_pixel_bytes, Hlen. unfold indices.
  replace ((Z.of_nat (4 * Z.to_nat (img_width img)) + 4 - 1) `div` 4)
    with (Z.of_nat (Z.to_nat (img_width img))).
  2:{ apply Z.div_unique with 3; lia. }
  rewrite legacy_hash_fold by lia. rewrite <- Hlen, firstn_all.
  unfold ps, Legacy.middle_row. by rewrite <- list_fmap_compose.
Qed.

(** X26: the hash the earlier revision takes of a tile is the decimal text
    of a 32-bit integer, the wrap-around of the polynomial in 31 whose
    coefficients are the sums red + green + blue of the pixels of the
    tile's middle row: two tiles of the same width whose middle rows have
    the same sums have the same hash, whatever their other rows, their
    alpha and their split of the sums into colours. *)
Theorem legacy_getTileHash_middle_row img :
  0 < img_width img → 0 < img_height img →
  ∃ hash,
    Legacy.getTileHash true img = Ok (pretty hash)
    ∧ hash = Legacy.wrap32 (Legacy.poly31 (Legacy.middle_row img))
    ∧ -2147483648 ≤ hash < 2147483648
    ∧ ∀ img', 0 < img_width img' → 0 < img_height img' →
        Legacy.middle_row img' = Legacy.middle_row img →
        Legacy.getTileHash true img' = Legacy.getTileHash true img.
Proof.
  intros Hw Hh. eexists.
  split; [by apply legacy_getTileHash_value |].
  split; [done |].
  split; [apply legacy_wrap32_range |].
  intros img' Hw' Hh' Hrow. rewrite !legacy_getTileHash_value by done.
  by rewrite Hrow.
Qed.

Lemma legacy_getTileHash_middle_row_witness :
  ∃ hash,
    Legacy.getTileHash true Legacy.red_dot = Ok (pretty hash)
    ∧ hash = Legacy.wrap32 (Legacy.poly31 (Legacy.middle_row Legacy.red_dot))
    ∧ -2147483648 ≤ hash < 2147483648
    ∧ ∀ img', 0 < img_width img' → 0 < img_height img' →
        Legacy.middle_row img' = Legacy.middle_row Legacy.red_dot →
        Legacy.getTileHash true img' = Legacy.getTileHash true Legacy.red_dot.
Proof. apply (legacy_getTileHash_middle_row Legacy.red_dot); simpl; lia. Defined.
